(** * go-mph: a hash/displace minimal perfect hash table

    Shallow embedding of [mph.go] (functions [New], [NewUint64], [Query],
    [xorshiftMult64], [nextPower2]) and the properties of the build and
    query procedures.

    Conventions.
    - [uint64], [uint32], [int32] and [int] values are integers of [Z];
      every wrap-around of the source is written out ([wrap64], [wrapU32],
      [wrap32], [wrapInt]).
    - Slices are lists; an index expression [a[i]] is [load a i] and an
      assignment [a[i] = x] is [store a i x], both of which panic outside
      the bounds as Go does.
    - The scratch [map[uint64]int32] of the seed search is a [gmap Z Z];
      reading an absent key gives Go's zero value.
    - [sort.Slice] and the iteration order of [range] over a map are left
      to the Go runtime by the language; they are parameters of the
      development ([sortSlice], [rangeOrder]) constrained by what the
      language promises about them.
    - [xxhash.Sum64String], which [New] applies to every string key, is
      code of another package; it is a parameter as well. *)

From stdpp Require Import gmap list fin_maps sorting strings.
From Stdlib Require Import ZArith Lia.

Local Open Scope Z_scope.

(** ** Machine integers *)

Definition wrap64 (z : Z) : Z := z mod 2 ^ 64.
Definition wrapU32 (z : Z) : Z := z mod 2 ^ 32.
Definition wrap32 (z : Z) : Z := (z + 2 ^ 31) mod 2 ^ 32 - 2 ^ 31.
Definition wrapInt (z : Z) : Z := (z + 2 ^ 63) mod 2 ^ 64 - 2 ^ 63.

Definition isU64 (z : Z) : Prop := 0 ≤ z < 2 ^ 64.

(** ** Outcomes of a Go computation

    [Ok] is a normal return, [Err] the [(nil, err)] return of [NewUint64],
    [Panic] a run-time panic (index out of range), [Diverge] a loop that
    does not end (or that the model stopped following). *)

Inductive BuildError : Type :=
  | ErrTooManyKeys
  | ErrDuplicateHash (h : Z)
  | ErrNoSeed.

Inductive outcome (A : Type) : Type :=
  | Ok (a : A)
  | Err (e : BuildError)
  | Panic
  | Diverge.

Arguments Ok {A} a.
Arguments Err {A} e.
Arguments Panic {A}.
Arguments Diverge {A}.

Global Instance outcome_ret : MRet outcome := λ A a, Ok a.

Global Instance outcome_bind : MBind outcome := λ A B k m,
  match m with
  | Ok a => k a
  | Err e => Err e
  | Panic => Panic
  | Diverge => Diverge
  end.

(** [for { body }] followed for at most [n] rounds. The body either leaves
    the loop with a result ([inl]) or asks for another round from a new
    state ([inr]); after [n] rounds the state reached is handed back. *)
Fixpoint loop {S R : Type} (n : positive) (body : S → R + S) (st : S) : R + S :=
  match n with
  | xH => body st
  | xO n' =>
      match loop n' body st with
      | inl r => inl r
      | inr st' => loop n' body st'
      end
  | xI n' =>
      match body st with
      | inl r => inl r
      | inr st' =>
          match loop n' body st' with
          | inl r => inl r
          | inr st'' => loop n' body st''
          end
      end
  end.

(** [a[i]] and [a[i] = x] with Go's bounds check. *)
Definition load {A : Type} (a : list A) (i : Z) : outcome A :=
  if decide (0 ≤ i) then
    match a !! Z.to_nat i with
    | Some x => Ok x
    | None => Panic
    end
  else Panic.

Definition store {A : Type} (a : list A) (i : Z) (x : A) : outcome (list A) :=
  if decide (0 ≤ i < Z.of_nat (length a)) then Ok (<[Z.to_nat i := x]> a)
  else Panic.

(** ** Data model *)

Record Table : Type := mkTable {
  Values : list Z;   (* []int32 *)
  Seeds : list Z;    (* []uint32 *)
  Mask : Z           (* uint64 *)
}.

Definition singletonBit : Z := 2147483648.
Definition payloadMask : Z := Z.lxor singletonBit (Z.ones 32).

Record entry : Type := mkEntry {
  idx : Z;    (* int32 *)
  hash : Z    (* uint64 *)
}.

(** ** [xorshiftMult64] and [nextPower2] *)

Definition xorshiftMult64 (x : Z) : Z :=
  let x := Z.lxor x (Z.shiftr x 12) in
  let x := Z.lxor x (wrap64 (Z.shiftl x 25)) in
  let x := Z.lxor x (Z.shiftr x 27) in
  wrap64 (x * 2685821657736338717).

(** [for i < n { i <<= 1 }]: the loop either stops within 64 rounds or
    never (once [i] has overflowed to 0 it stays there). *)
Fixpoint nextPower2_loop (fuel : nat) (i n : Z) : outcome Z :=
  if i <? n then
    match fuel with
    | O => Diverge
    | S fuel' => nextPower2_loop fuel' (wrapInt (Z.shiftl i 1)) n
    end
  else Ok i.

Definition nextPower2 (n : Z) : outcome Z := nextPower2_loop 64 1 n.

(** ** [NewUint64] *)

(** The scan of the sorted copy for two equal neighbours. *)
Fixpoint findDuplicate (tmp : list Z) : option Z :=
  match tmp with
  | prev :: rest =>
      match rest with
      | cur :: _ => if cur =? prev then Some cur else findDuplicate rest
      | [] => None
      end
  | [] => None
  end.

(** [for idx, k := range keys { h[i] = append(h[i], entry{int32(idx)+1, hash}) }] *)
Fixpoint bucketize (i0 : Z) (keys : list Z) (mask : Z)
    (h : list (list entry)) : outcome (list (list entry)) :=
  match keys with
  | [] => Ok h
  | k :: keys' =>
      let i := wrapInt (Z.land k mask) in
      b ← load h i;
      h ← store h i (b ++ [mkEntry (wrap32 (wrap32 i0 + 1)) k]);
      bucketize (i0 + 1) keys' mask h
  end.

(** Outcome of one candidate seed on a bucket: the scratch map after the
    inner [for _, k := range subkeys] loop, and whether the loop ran to its
    end ([Placed]) or hit an occupied slot ([Collided]). *)
Inductive attempt : Type :=
  | Placed (entries : gmap Z Z)
  | Collided (entries : gmap Z Z).

Fixpoint trySeed (subkeys : list entry) (seed mask : Z) (values : list Z)
    (entries : gmap Z Z) : outcome attempt :=
  match subkeys with
  | [] => Ok (Placed entries)
  | k :: subkeys' =>
      let i := Z.land (xorshiftMult64 (wrap64 (hash k + seed))) mask in
      if default 0 (entries !! i) =? 0 then
        v ← load values (wrapInt i);
        if v =? 0 then trySeed subkeys' seed mask values (<[i := idx k]> entries)
        else Ok (Collided entries)
      else Ok (Collided entries)
  end.

(** The largest number of rounds the seed loop can make: [seed] goes up by
    one in each and the loop is left when it reaches [2^31]. *)
Definition seedRounds : positive := 2147483648.

(** The closure [func(i, j int) bool { return len(h[i]) > len(h[j]) }]
    handed to [sort.Slice], as a comparison of two buckets. *)
Definition bySizeDesc (a b : list entry) : bool :=
  Z.of_nat (length b) <? Z.of_nat (length a).

Section Runtime.

(** [sort.Slice(x, less)] for a slice of any element type, and the order
    in which [range] visits the entries of a map. *)
Variable sortSlice : ∀ A : Type, (A → A → bool) → list A → list A.
Variable rangeOrder : gmap Z Z → list (Z * Z).

(** [for k := range entries { delete(entries, k) }] *)
Definition clearEntries (entries : gmap Z Z) : gmap Z Z :=
  foldl (λ m kv, delete (fst kv) m) entries (rangeOrder entries).

(** One round of [newseed: for { seed++; ... }] from the loop state
    [(seed, entries)]: [inl] leaves the loop ([return] or [break]), [inr]
    is [continue newseed]. *)
Definition seedStep (subkeys : list entry) (mask : Z) (values : list Z)
    (st : Z * gmap Z Z) : outcome (Z * gmap Z Z) + (Z * gmap Z Z) :=
  let '(seed, entries) := st in
  let seed := wrap64 (seed + 1) in
  if 2 ^ 31 <=? seed then inl (Err ErrNoSeed)
  else
    match trySeed subkeys seed mask values entries with
    | Ok (Placed entries) => inl (Ok (seed, entries))
    | Ok (Collided entries) => inr (seed, clearEntries entries)
    | Err e => inl (Err e)
    | Panic => inl Panic
    | Diverge => inl Diverge
    end.

Definition seedLoop (subkeys : list entry) (mask : Z) (values : list Z)
    : outcome (Z * gmap Z Z) :=
  match loop seedRounds (seedStep subkeys mask values) (0, ∅) with
  | inl r => r
  | inr _ => Diverge
  end.

(** [for k, v := range entries { values[int(k)] = v }] *)
Fixpoint commit (visit : list (Z * Z)) (values : list Z) : outcome (list Z) :=
  match visit with
  | [] => Ok values
  | (k, v) :: visit' =>
      values ← store values (wrapInt k) v;
      commit visit' values
  end.

(** The first loop over the sorted buckets; it returns [h[hidx:]] with the
    two arrays. *)
Fixpoint solveBuckets (h : list (list entry)) (mask : Z)
    (values seeds : list Z)
    : outcome (list (list entry) * list Z * list Z) :=
  match h with
  | [] => Ok ([], values, seeds)
  | subkeys :: h' =>
      if 1 <? Z.of_nat (length subkeys) then
        '(seed, entries) ← seedLoop subkeys mask values;
        values ← commit (rangeOrder entries) values;
        k0 ← load subkeys 0;
        seeds ← store seeds (wrapInt (Z.land (hash k0) mask)) (wrapU32 seed);
        solveBuckets h' mask values seeds
      else Ok (h, values, seeds)
  end.

(** [for i := range values { if values[i] == 0 {...} else { values[i]-- } }] *)
Fixpoint collectFree (i : Z) (values : list Z) : list Z * list Z :=
  match values with
  | [] => ([], [])
  | v :: values' =>
      let '(free, out) := collectFree (i + 1) values' in
      if v =? 0 then (i :: free, v :: out)
      else (free, wrap32 (v - 1) :: out)
  end.

(** The second loop over the sorted buckets, from where the first one
    stopped. *)
Fixpoint placeSingletons (h : list (list entry)) (mask : Z) (free : list Z)
    (values seeds : list Z) : outcome (list Z * list Z) :=
  match h with
  | [] => Ok (values, seeds)
  | bucket :: h' =>
      if 0 <? Z.of_nat (length bucket) then
        k ← load bucket 0;
        dst ← load free 0;
        let free := drop 1 free in
        values ← store values dst (wrap32 (idx k - 1));
        seeds ← store seeds (wrapInt (Z.land (hash k) mask))
                   (Z.lor singletonBit (wrapU32 dst));
        placeSingletons h' mask free values seeds
      else Ok (values, seeds)
  end.

Definition NewUint64 (keys : list Z) : outcome Table :=
  let n := Z.of_nat (length keys) in
  if n =? 0 then Ok (mkTable [] [] 0)
  else if 2 ^ 31 <? n then Err ErrTooManyKeys
  else
    let tmp := sortSlice Z Z.ltb keys in
    match findDuplicate tmp with
    | Some d => Err (ErrDuplicateHash d)
    | None =>
        size ← nextPower2 n;
        let size := wrap64 size in
        let mask := wrap64 (size - 1) in
        let h := replicate (Z.to_nat (wrapInt size)) [] in
        let values := replicate (Z.to_nat (wrapInt size)) 0 in
        let seeds := replicate (Z.to_nat (wrapInt size)) 0 in
        h ← bucketize 0 keys mask h;
        let h := sortSlice (list entry) bySizeDesc h in
        '(rest, values, seeds) ← solveBuckets h mask values seeds;
        let '(free, values) := collectFree 0 values in
        '(values, seeds) ← placeSingletons rest mask free values seeds;
        Ok (mkTable values seeds mask)
    end.

(** The stages of [NewUint64] on a non-empty input without duplicates,
    named so that the state between two of its loops can be talked
    about: the sorted buckets, and the state after the first loop. *)
Definition bucketPhase (keys : list Z)
    : outcome (Z * Z * list (list entry)) :=
  size ← nextPower2 (Z.of_nat (length keys));
  let size := wrap64 size in
  let mask := wrap64 (size - 1) in
  h ← bucketize 0 keys mask (replicate (Z.to_nat (wrapInt size)) []);
  Ok (size, mask, sortSlice (list entry) bySizeDesc h).

Definition solvePhase (keys : list Z)
    : outcome (Z * list (list entry) * list Z * list Z) :=
  '(size, mask, h) ← bucketPhase keys;
  '(rest, values, seeds) ←
     solveBuckets h mask (replicate (Z.to_nat (wrapInt size)) 0)
       (replicate (Z.to_nat (wrapInt size)) 0);
  Ok (mask, rest, values, seeds).

Definition placePhase (st : Z * list (list entry) * list Z * list Z)
    : outcome Table :=
  let '(mask, rest, values, seeds) := st in
  let '(free, values) := collectFree 0 values in
  '(values, seeds) ← placeSingletons rest mask free values seeds;
  Ok (mkTable values seeds mask).

End Runtime.

(** ** [Query] *)

Definition Query (t : Table) (hash : Z) : outcome Z :=
  if Z.of_nat (length (Values t)) =? 0 then Ok (-1)
  else
    let i := wrapInt (Z.land hash (Mask t)) in
    s ← load (Seeds t) i;
    if negb (Z.land s singletonBit =? 0) then
      let dst := Z.land s payloadMask in
      load (Values t) dst
    else
      let seed := Z.land s payloadMask in
      let j := Z.land (xorshiftMult64 (wrap64 (hash + seed))) (Mask t) in
      load (Values t) (wrapInt j).

(** ** A reference runtime

    Insertion sort is what [sort.Slice] runs on slices of at most 12
    elements; the canonical listing of a [gmap] is one admissible visiting
    order. *)

Fixpoint insertSorted {A : Type} (less : A → A → bool) (x : A) (l : list A)
    : list A :=
  match l with
  | [] => [x]
  | y :: l' => if less x y then x :: l else y :: insertSorted less x l'
  end.

Definition insertionSort (A : Type) (less : A → A → bool) (l : list A)
    : list A :=
  foldl (λ acc x, insertSorted less x acc) [] l.

Definition canonicalOrder (m : gmap Z Z) : list (Z * Z) := map_to_list m.

(** ** What the language promises about the runtime *)

(** The requirements of [sort.Interface.Less]: irreflexive, transitive, and
    with a transitive complement. *)
Definition strictWeakOrder {A : Type} (less : A → A → bool) : Prop :=
  (∀ x, less x x = false) ∧
  (∀ x y z, less x y = true → less y z = true → less x z = true) ∧
  (∀ x y z, less x y = false → less y z = false → less x z = false).

(** [sort.Slice] rearranges the slice and, for an admissible [less], leaves
    no later element less than an earlier one. Nothing is said about the
    relative order of elements that [less] does not separate. *)
Definition sortSliceContract
    (sortSlice : ∀ A : Type, (A → A → bool) → list A → list A) : Prop :=
  ∀ (A : Type) (less : A → A → bool) (l : list A),
    sortSlice A less l ≡ₚ l ∧
    (strictWeakOrder less →
     StronglySorted (λ x y, less y x = false) (sortSlice A less l)).

(** [range] over a map visits every entry once, in some order. *)
Definition rangeOrderContract (rangeOrder : gmap Z Z → list (Z * Z)) : Prop :=
  ∀ m, rangeOrder m ≡ₚ map_to_list m.

(** ** Vocabulary of the properties *)

(** Home slot of a fingerprint, and the slot a seed displaces it to. *)
Definition home (mask h : Z) : Z := Z.land h mask.
Definition slotOf (mask seed h : Z) : Z :=
  Z.land (xorshiftMult64 (wrap64 (h + seed))) mask.

(** A seed fits a bucket when it sends the members to pairwise distinct
    slots, none of them occupied in [values]. *)
Definition seedFits (mask : Z) (values : list Z) (subkeys : list entry)
    (seed : Z) : Prop :=
  NoDup ((λ e, slotOf mask seed (hash e)) <$> subkeys) ∧
  ∀ e, e ∈ subkeys →
    values !! Z.to_nat (slotOf mask seed (hash e)) = Some 0.

(** The scratch map a fitting seed leaves behind. *)
Definition placement (mask seed : Z) (subkeys : list entry) (m0 : gmap Z Z)
    : gmap Z Z :=
  foldl (λ m e, <[slotOf mask seed (hash e) := idx e]> m) m0 subkeys.

(** Slots of [values] still marked empty. *)
Definition countZero (values : list Z) : nat :=
  length (filter (λ v, v = 0) values).

(** The entries the bucketing loop creates from [keys], the first of them
    with loop index [i0]. *)
Fixpoint entriesFrom (i0 : Z) (keys : list Z) : list entry :=
  match keys with
  | [] => []
  | k :: keys' => mkEntry (wrap32 (wrap32 i0 + 1)) k :: entriesFrom (i0 + 1) keys'
  end.

(** A fingerprint [h] is routed to slot [j] by [seeds] when the descriptor
    at its home slot is a displacement seed that sends [h] to [j], or a
    singleton descriptor with payload [j]. *)
Definition routed (mask : Z) (seeds : list Z) (h j : Z) : Prop :=
  ∃ s, seeds !! Z.to_nat (home mask h) = Some s ∧
    ((1 ≤ s < 2 ^ 31 ∧ j = slotOf mask s h) ∨
     (0 ≤ j ≤ mask ∧ s = Z.lor singletonBit j)).

(** What the bucketing guarantees about the (sorted) list of buckets: no
    entry occurs twice, two entries lie in the same bucket exactly when
    they have the same home slot, and no entry carries the marker 0. *)
Definition bucketsOk (mask : Z) (hs : list (list entry)) : Prop :=
  NoDup (concat hs) ∧
  (∀ b e e', b ∈ hs → e ∈ b → e' ∈ concat hs →
     home mask (hash e) = home mask (hash e') ↔ e' ∈ b) ∧
  (∀ e, e ∈ concat hs → idx e ≠ 0).

(** State of the arrays after the seed search has handled the entries
    [P]: in [values] the occupied slots hold 1-based ordinals. *)
Record solved (mask : Z) (P : list entry) (values seeds : list Z) : Prop := {
  solved_values_len : Z.of_nat (length values) = mask + 1;
  solved_seeds_len : Z.of_nat (length seeds) = mask + 1;
  solved_routed : ∀ e, e ∈ P →
    ∃ j, routed mask seeds (hash e) j ∧ values !! Z.to_nat j = Some (idx e);
  solved_prov : ∀ (j : nat) v, values !! j = Some v → v ≠ 0 →
    ∃ e, e ∈ P ∧ routed mask seeds (hash e) (Z.of_nat j) ∧ v = idx e;
  solved_seeds : ∀ (j : nat) s, seeds !! j = Some s → 0 ≤ s < 2 ^ 31;
  solved_count : (countZero values + length P)%nat = Z.to_nat (mask + 1)
}.

(** State of the arrays during the singleton allocation, after the entries
    [P] have been given their slots: occupied slots hold 0-based ordinals
    and [free] lists the slots still to hand out. *)
Record placed (mask : Z) (P : list entry) (free values seeds : list Z)
    : Prop := {
  placed_values_len : Z.of_nat (length values) = mask + 1;
  placed_seeds_len : Z.of_nat (length seeds) = mask + 1;
  placed_routed : ∀ e, e ∈ P →
    ∃ j, routed mask seeds (hash e) j ∧ 0 ≤ j ≤ mask ∧ (j ∉ free) ∧
         values !! Z.to_nat j = Some (wrap32 (idx e - 1));
  placed_slots : ∀ j, 0 ≤ j ≤ mask →
    (j ∈ free ∧ values !! Z.to_nat j = Some 0) ∨
    (∃ e, e ∈ P ∧ routed mask seeds (hash e) j);
  placed_free_NoDup : NoDup free;
  placed_free_range : ∀ j, j ∈ free → 0 ≤ j ≤ mask;
  placed_seeds : ∀ (j : nat) s, seeds !! j = Some s →
    0 ≤ s < 2 ^ 31 ∨ ∃ dst, 0 ≤ dst ≤ mask ∧ s = Z.lor singletonBit dst;
  placed_count : (length free + length P)%nat = Z.to_nat (mask + 1)
}.

(** The index of [Values] that [Query] reads for a fingerprint, on a
    non-empty table. *)
Definition querySlot (t : Table) (hash : Z) : outcome Z :=
  let i := wrapInt (Z.land hash (Mask t)) in
  s ← load (Seeds t) i;
  if negb (Z.land s singletonBit =? 0) then Ok (Z.land s payloadMask)
  else
    let seed := Z.land s payloadMask in
    Ok (wrapInt (Z.land (xorshiftMult64 (wrap64 (hash + seed))) (Mask t))).

(** What a finished table satisfies with respect to the keys it was built
    from: its size is the least power of two that holds them, and every
    entry has been placed. *)
Definition tableOk (keys : list Z) (t : Table) : Prop :=
  ∃ b free,
    0 ≤ b ≤ 31 ∧ Mask t = 2 ^ b - 1 ∧
    Z.of_nat (length keys) ≤ 2 ^ b ∧
    (b = 0 ∨ 2 ^ (b - 1) < Z.of_nat (length keys)) ∧
    placed (Mask t) (entriesFrom 0 keys) free (Values t) (Seeds t).

(** The table handed back to the caller, if any. *)
Definition tableOf (r : outcome Table) : option Table :=
  match r with
  | Ok t => Some t
  | _ => None
  end.


(** Two more admissible runtimes: a sort that treats equal elements in the
    opposite order, and a map iteration in the opposite order. *)
Definition reverseInsertionSort (A : Type) (less : A → A → bool) (l : list A)
    : list A :=
  insertionSort A less (reverse l).

Definition reversedOrder (m : gmap Z Z) : list (Z * Z) :=
  reverse (map_to_list m).

(** Distinctness of a list of integer literals. *)
Ltac distinct_literals :=
  repeat (apply NoDup_cons; split;
          [rewrite ?elem_of_cons, elem_of_nil; lia|]);
  apply NoDup_nil_2.

(** ** String keys *)

Section StringKeys.
Variable sortSlice : ∀ A : Type, (A → A → bool) → list A → list A.
Variable rangeOrder : gmap Z Z → list (Z * Z).

(** [xxhash.Sum64String] of the package [github.com/cespare/xxhash/v2],
    which is not part of this repository. *)
Variable Sum64String : string → Z.

(** [New]: hash every key, then build from the fingerprints. *)
Definition New (keys : list string) : outcome Table :=
  let hKeys := Sum64String <$> keys in
  NewUint64 sortSlice rangeOrder hKeys.

End StringKeys.

(** ** Tables from elsewhere *)

(** A table whose two arrays have the length its mask announces. *)
Definition shaped (t : Table) : Prop :=
  0 ≤ Mask t < 2 ^ 63 ∧
  Z.of_nat (length (Values t)) = Mask t + 1 ∧
  Z.of_nat (length (Seeds t)) = Mask t + 1.

(** * Proofs *)

(** ** The reference runtime meets the contracts *)

Section InsertionSort.
Context {A : Type} (less : A → A → bool).

Lemma insertSorted_perm x l : insertSorted less x l ≡ₚ x :: l.
Proof.
  induction l as [|y l IH]; simpl; [done|].
  destruct (less x y); [done|].
  rewrite IH. apply Permutation_swap.
Qed.

Lemma insertionSort_perm_acc l acc :
  foldl (λ acc x, insertSorted less x acc) acc l ≡ₚ acc ++ l.
Proof.
  revert acc. induction l as [|x l IH]; intros acc; simpl.
  - by rewrite app_nil_r.
  - rewrite IH, insertSorted_perm. simpl. apply Permutation_middle.
Qed.

Hypothesis Hless : strictWeakOrder less.

Lemma insertSorted_sorted x l :
  StronglySorted (λ a b, less b a = false) l →
  StronglySorted (λ a b, less b a = false) (insertSorted less x l).
Proof.
  destruct Hless as (Hirr & Htr & Hntr).
  induction 1 as [|y l Hs IH Hy]; simpl.
  - repeat constructor.
  - destruct (less x y) eqn:Hxy.
    + assert (Hyx : less y x = false).
      { destruct (less y x) eqn:E; [|done].
        rewrite <- (Hirr x). symmetry. by eapply Htr. }
      constructor; [by constructor|].
      constructor; [done|].
      eapply Forall_impl; [exact Hy|]. simpl. intros z Hz. by eapply Hntr.
    + constructor; [done|].
      rewrite insertSorted_perm. by constructor.
Qed.

Lemma insertionSort_sorted_acc l acc :
  StronglySorted (λ a b, less b a = false) acc →
  StronglySorted (λ a b, less b a = false)
    (foldl (λ acc x, insertSorted less x acc) acc l).
Proof.
  revert acc. induction l as [|x l IH]; intros acc Hacc; simpl; [done|].
  apply IH. by apply insertSorted_sorted.
Qed.
End InsertionSort.

Lemma insertionSort_contract : sortSliceContract insertionSort.
Proof.
  intros A less l. split.
  - unfold insertionSort. by rewrite insertionSort_perm_acc.
  - intros Hless. apply insertionSort_sorted_acc; [done|constructor].
Qed.

Lemma canonicalOrder_contract : rangeOrderContract canonicalOrder.
Proof. by intros m. Qed.

(** ** Machine arithmetic *)

Lemma wrapInt_small z : - 2 ^ 63 ≤ z < 2 ^ 63 → wrapInt z = z.
Proof. intros H. unfold wrapInt. rewrite Z.mod_small; lia. Qed.

Lemma wrap64_small z : 0 ≤ z < 2 ^ 64 → wrap64 z = z.
Proof. intros H. unfold wrap64. by rewrite Z.mod_small. Qed.

Lemma wrap64_range z : 0 ≤ wrap64 z < 2 ^ 64.
Proof. unfold wrap64. apply Z.mod_pos_bound. lia. Qed.

Lemma wrap32_small z : - 2 ^ 31 ≤ z < 2 ^ 31 → wrap32 z = z.
Proof. intros H. unfold wrap32. rewrite Z.mod_small; lia. Qed.

Lemma wrapU32_small z : 0 ≤ z < 2 ^ 32 → wrapU32 z = z.
Proof. intros H. unfold wrapU32. by rewrite Z.mod_small. Qed.

(** The 1-based ordinal kept in an [entry] is never the "empty" marker 0,
    and decrementing it gives the 0-based ordinal back. *)
Lemma idx_nonzero i : 0 ≤ i < 2 ^ 31 → wrap32 (wrap32 i + 1) ≠ 0.
Proof.
  intros H. rewrite (wrap32_small i) by lia. unfold wrap32.
  destruct (decide (i + 1 = 2 ^ 31)) as [->|].
  - by vm_compute.
  - rewrite Z.mod_small; lia.
Qed.

Lemma idx_decrement i : 0 ≤ i < 2 ^ 31 → wrap32 (wrap32 (wrap32 i + 1) - 1) = i.
Proof.
  intros H. rewrite (wrap32_small i) by lia.
  destruct (decide (i + 1 = 2 ^ 31)) as [Heq|].
  - rewrite Heq. assert (i = 2 ^ 31 - 1) as -> by lia. by vm_compute.
  - rewrite (wrap32_small (i + 1)) by lia. rewrite wrap32_small; lia.
Qed.

(** Masking with [2^b - 1] keeps the low [b] bits. *)
Lemma land_mask_range b x : 0 ≤ b → 0 ≤ Z.land x (2 ^ b - 1) < 2 ^ b.
Proof.
  intros Hb. replace (2 ^ b - 1) with (Z.ones b)
    by (rewrite Z.ones_equiv; lia).
  rewrite Z.land_ones by done. apply Z.mod_pos_bound. lia.
Qed.

Lemma land_nonneg_range x m : 0 ≤ m → 0 ≤ Z.land x m ≤ m.
Proof.
  intros Hm. split.
  - apply Z.land_nonneg. by right.
  - assert (Hd : Z.ldiff (Z.land x m) m = 0).
    { apply Z.bits_inj'. intros n Hn.
      rewrite Z.ldiff_spec, Z.land_spec, Z.bits_0.
      by destruct (Z.testbit x n), (Z.testbit m n). }
    apply Z.sub_nocarry_ldiff in Hd.
    assert (0 ≤ Z.ldiff m (Z.land x m)) by (apply Z.ldiff_nonneg; by left).
    lia.
Qed.

(** ** [nextPower2] *)

Lemma nextPower2_loop_spec fuel j n :
  0 ≤ j → 1 ≤ n ≤ 2 ^ 62 → (j = 0 ∨ 2 ^ (j - 1) < n) →
  63 ≤ j + Z.of_nat fuel →
  ∃ b, j ≤ b ≤ 62 ∧ nextPower2_loop fuel (2 ^ j) n = Ok (2 ^ b) ∧
       n ≤ 2 ^ b ∧ (b = 0 ∨ 2 ^ (b - 1) < n).
Proof.
  revert j. induction fuel as [|fuel IH]; intros j Hj Hn Hlow Hfuel.
  - assert (2 ^ 63 ≤ 2 ^ j) by (apply Z.pow_le_mono_r; lia).
    simpl. destruct (Z.ltb_spec (2 ^ j) n); [lia|].
    destruct Hlow as [->|Hlow]; [lia|].
    assert (2 ^ 62 ≤ 2 ^ (j - 1)) by (apply Z.pow_le_mono_r; lia). lia.
  - simpl. destruct (Z.ltb_spec (2 ^ j) n) as [Hlt|Hge].
    + assert (j < 62).
      { apply (Z.pow_lt_mono_r_iff 2); lia. }
      rewrite Z.shiftl_mul_pow2 by lia.
      replace (2 ^ j * 2 ^ 1) with (2 ^ (j + 1))
        by (rewrite Z.pow_add_r; lia).
      assert (2 ^ (j + 1) ≤ 2 ^ 62) by (apply Z.pow_le_mono_r; lia).
      assert (0 < 2 ^ (j + 1)) by (apply Z.pow_pos_nonneg; lia).
      rewrite wrapInt_small by lia.
      destruct (IH (j + 1)) as (b & Hb & Heq & Hnb & Hsm); try lia.
      { right. by replace (j + 1 - 1) with j by lia. }
      exists b. repeat split; try done; lia.
    + exists j. repeat split; try done; try lia.
      destruct Hlow as [->|Hlow]; [lia|].
      assert (j - 1 < 62); [|lia].
      apply (Z.pow_lt_mono_r_iff 2); lia.
Qed.

Lemma nextPower2_spec n :
  1 ≤ n ≤ 2 ^ 31 →
  ∃ b, 0 ≤ b ≤ 31 ∧ nextPower2 n = Ok (2 ^ b) ∧ n ≤ 2 ^ b ∧
       (b = 0 ∨ 2 ^ (b - 1) < n).
Proof.
  intros Hn. destruct (nextPower2_loop_spec 64 0 n) as (b & Hb & Heq & Hnb & Hsm);
    try lia.
  exists b. repeat split; try done; try lia.
  destruct Hsm as [->|Hsm]; [lia|].
  assert (b - 1 < 31); [|lia].
  apply (Z.pow_lt_mono_r_iff 2); lia.
Qed.

(** ** The bounded loop *)

Lemma loop_rounds {S R : Type} (I : Z → S → Prop) (Q : R → Prop)
    (body : S → R + S) :
  (∀ k st, I k st →
     match body st with inl r => Q r | inr st' => I (k + 1) st' end) →
  ∀ n k st, I k st →
    match loop n body st with
    | inl r => Q r
    | inr st' => I (k + Z.pos n) st'
    end.
Proof.
  intros Hbody. induction n as [n IH|n IH|]; intros k st Hst; simpl.
  - specialize (Hbody k st Hst). destruct (body st) as [r|st1]; [done|].
    pose proof (IH _ _ Hbody) as H1.
    destruct (loop n body st1) as [r|st2]; [done|].
    pose proof (IH _ _ H1) as H2.
    by replace (k + Z.pos n~1) with (k + 1 + Z.pos n + Z.pos n) by lia.
  - pose proof (IH _ _ Hst) as H1.
    destruct (loop n body st) as [r|st1]; [done|].
    pose proof (IH _ _ H1) as H2.
    by replace (k + Z.pos n~0) with (k + Z.pos n + Z.pos n) by lia.
  - by apply Hbody.
Qed.

(** ** One candidate seed *)

Lemma load_in_range {A : Type} (a : list A) (i : Z) :
  0 ≤ i < Z.of_nat (length a) →
  ∃ x, a !! Z.to_nat i = Some x ∧ load a i = Ok x.
Proof.
  intros Hi. destruct (lookup_lt_is_Some_2 a (Z.to_nat i)) as [x Hx]; [lia|].
  exists x. split; [done|]. unfold load. rewrite decide_True by lia.
  by rewrite Hx.
Qed.

Lemma store_in_range {A : Type} (a : list A) (i : Z) (x : A) :
  0 ≤ i < Z.of_nat (length a) → store a i x = Ok (<[Z.to_nat i := x]> a).
Proof. intros Hi. unfold store. by rewrite decide_True. Qed.

Section TrySeed.
Variables (seed mask : Z) (values : list Z).
Hypothesis Hmask : 0 ≤ mask < Z.of_nat (length values).
Hypothesis Hlen : Z.of_nat (length values) ≤ 2 ^ 63.

Lemma slotOf_range h : 0 ≤ slotOf mask seed h < Z.of_nat (length values).
Proof.
  unfold slotOf.
  pose proof (land_nonneg_range (xorshiftMult64 (wrap64 (h + seed))) mask).
  lia.
Qed.

Lemma trySeed_spec subkeys m0 :
  (∀ e, e ∈ subkeys → idx e ≠ 0) →
  (∀ k v, m0 !! k = Some v → v ≠ 0) →
  match trySeed subkeys seed mask values m0 with
  | Ok (Placed m) =>
      (seedFits mask values subkeys seed ∧
       ∀ e, e ∈ subkeys → m0 !! slotOf mask seed (hash e) = None) ∧
      m = placement mask seed subkeys m0
  | Ok (Collided _) =>
      ¬ (seedFits mask values subkeys seed ∧
         ∀ e, e ∈ subkeys → m0 !! slotOf mask seed (hash e) = None)
  | _ => False
  end.
Proof.
  unfold seedFits.
  revert m0. induction subkeys as [|e sub IH]; intros m0 Hidx Hm0; simpl.
  - repeat split; [constructor|by intros ? ?%elem_of_nil..].
  - fold (slotOf mask seed (hash e)).
    set (i := slotOf mask seed (hash e)).
    pose proof (slotOf_range (hash e)) as Hi. fold i in Hi.
    destruct (Z.eqb_spec (default 0 (m0 !! i)) 0) as [Hfree|Hocc].
    + assert (Hnone : m0 !! i = None).
      { destruct (m0 !! i) as [v|] eqn:E; [|done].
        simpl in Hfree. subst v. by apply Hm0 in E. }
      rewrite wrapInt_small by lia.
      destruct (load_in_range values i) as (v & Hv & ->); [lia|]. simpl.
      destruct (Z.eqb_spec v 0) as [->|Hv0].
      * assert (Hidx' : ∀ e', e' ∈ sub → idx e' ≠ 0).
        { intros e' He'. apply Hidx. by right. }
        assert (Hm0' : ∀ k v, <[i := idx e]> m0 !! k = Some v → v ≠ 0).
        { intros k v [[<- <-]|[_ ?]]%lookup_insert_Some;
            [apply Hidx; by left|by eapply Hm0]. }
        specialize (IH (<[i := idx e]> m0) Hidx' Hm0').
        destruct (trySeed sub seed mask values (<[i := idx e]> m0))
          as [[m|m]| | |]; [| |done..].
        -- destruct IH as (((Hnd & Hval) & Hm1) & ->).
           assert (Hfresh : ∀ e', e' ∈ sub → slotOf mask seed (hash e') ≠ i).
           { intros e' He' Heq. specialize (Hm1 e' He').
             by rewrite Heq, lookup_insert_eq in Hm1. }
           split; [split; [split|]|done].
           ++ constructor; [|done].
              intros (e' & Heq & He')%list_elem_of_fmap.
              by eapply Hfresh.
           ++ intros e' [->|He']%elem_of_cons; [exact Hv|by apply Hval].
           ++ intros e' [->|He']%elem_of_cons; [exact Hnone|].
              specialize (Hm1 e' He').
              by rewrite lookup_insert_ne in Hm1 by (symmetry; by apply Hfresh).
        -- intros [[Hnd Hval] Hm1]. apply IH.
           apply NoDup_cons in Hnd as [Hni Hnd].
           split; [split|]; [done|..].
           ++ intros e' He'. apply Hval. by right.
           ++ intros e' He'. rewrite lookup_insert_ne.
              ** apply Hm1. by right.
              ** intros Heq. apply Hni. apply list_elem_of_fmap.
                 by exists e'.
      * intros [[_ Hval] _]. specialize (Hval e). fold i in Hval.
        rewrite Hv in Hval. apply Hv0. 
        assert (Some v = Some 0) as [= ->] by (apply Hval; by left). done.
    + intros [_ Hm1]. specialize (Hm1 e). fold i in Hm1.
      rewrite Hm1 in Hocc by (by left). by apply Hocc.
Qed.
End TrySeed.

(** ** The seed search *)

Lemma seedFits_trySeed mask values subkeys seed :
  seedFits mask values subkeys seed ↔
  seedFits mask values subkeys seed ∧
  ∀ e, e ∈ subkeys → (∅ : gmap Z Z) !! slotOf mask seed (hash e) = None.
Proof. split; [|by intros [? _]]. intros H. split; [done|]. by intros. Qed.

Section SeedLoop.
Variable rangeOrder : gmap Z Z → list (Z * Z).
Hypothesis Hrange : rangeOrderContract rangeOrder.

Lemma foldl_delete_lookup (l : list (Z * Z)) (m : gmap Z Z) k :
  k ∈ l.*1 ∨ m !! k = None →
  foldl (λ m kv, delete (fst kv) m) m l !! k = None.
Proof.
  revert m. induction l as [|[k' v'] l IH]; intros m Hk; simpl.
  - destruct Hk as [Hk|Hk]; [by apply elem_of_nil in Hk|done].
  - apply IH. destruct (decide (k = k')) as [->|Hne].
    + right. apply lookup_delete_eq.
    + destruct Hk as [Hk|Hk].
      * left. simpl in Hk. apply elem_of_cons in Hk as [?|?]; done.
      * right. by rewrite lookup_delete_ne.
Qed.

Lemma clearEntries_empty m : clearEntries rangeOrder m = ∅.
Proof.
  apply map_eq. intros k. rewrite lookup_empty.
  apply foldl_delete_lookup.
  destruct (m !! k) as [v|] eqn:E; [left|by right].
  apply list_elem_of_fmap. exists (k, v). split; [done|].
  rewrite (Hrange m). by apply elem_of_map_to_list.
Qed.

Variables (mask : Z) (values : list Z) (subkeys : list entry).
Hypothesis Hmask : 0 ≤ mask < Z.of_nat (length values).
Hypothesis Hlen : Z.of_nat (length values) ≤ 2 ^ 63.
Hypothesis Hidx : ∀ e, e ∈ subkeys → idx e ≠ 0.

(** The seed search returns the least fitting seed of [[1, 2^31)] with
    its placement, or reports that no seed of that range fits; it does
    nothing else. *)
Lemma seedLoop_spec :
  match seedLoop rangeOrder subkeys mask values with
  | Ok (seed, m) =>
      1 ≤ seed < 2 ^ 31 ∧ seedFits mask values subkeys seed ∧
      (∀ s, 1 ≤ s < seed → ¬ seedFits mask values subkeys s) ∧
      m = placement mask seed subkeys ∅
  | Err e =>
      e = ErrNoSeed ∧ ∀ s, 1 ≤ s < 2 ^ 31 → ¬ seedFits mask values subkeys s
  | Panic | Diverge => False
  end.
Proof.
  unfold seedLoop.
  pose (I := λ (k : Z) (st : Z * gmap Z Z),
    st = (k, ∅) ∧ 0 ≤ k < 2 ^ 31 ∧
    ∀ s, 1 ≤ s ≤ k → ¬ seedFits mask values subkeys s).
  pose (Q := λ r : outcome (Z * gmap Z Z),
    match r with
    | Ok (seed, m) =>
        1 ≤ seed < 2 ^ 31 ∧ seedFits mask values subkeys seed ∧
        (∀ s, 1 ≤ s < seed → ¬ seedFits mask values subkeys s) ∧
        m = placement mask seed subkeys ∅
    | Err e =>
        e = ErrNoSeed ∧
        ∀ s, 1 ≤ s < 2 ^ 31 → ¬ seedFits mask values subkeys s
    | Panic | Diverge => False
    end).
  assert (Hstep : ∀ k st, I k st →
    match seedStep rangeOrder subkeys mask values st with
    | inl r => Q r
    | inr st' => I (k + 1) st'
    end).
  { intros k st (-> & Hk & Hnone). unfold seedStep.
    rewrite wrap64_small by lia.
    destruct (Z.leb_spec (2 ^ 31) (k + 1)) as [Hend|Hgo].
    { split; [done|]. intros s Hs. apply Hnone. lia. }
    pose proof (trySeed_spec (k + 1) mask values Hmask Hlen subkeys ∅ Hidx)
      as Htry.
    assert (Hempty : ∀ (k : Z) (v : Z), (∅ : gmap Z Z) !! k = Some v → v ≠ 0)
      by (intros k' v'; by rewrite lookup_empty).
    specialize (Htry Hempty).
    destruct (trySeed subkeys (k + 1) mask values ∅) as [[m|m]| | |];
      [| |done..].
    - destruct Htry as [[Hfit _] ->].
      split; [lia|]. split; [done|]. split; [|done].
      intros s Hs. apply Hnone. lia.
    - rewrite clearEntries_empty. split; [done|]. split; [lia|].
      intros s Hs. destruct (decide (s = k + 1)) as [->|].
      + intros Hfit. apply Htry. by apply seedFits_trySeed.
      + apply Hnone. lia. }
  assert (H0 : I 0 (0, ∅)) by (unfold I; repeat split; intros; lia).
  pose proof (loop_rounds I Q _ Hstep seedRounds 0 (0, ∅) H0) as Hloop.
  destruct (loop seedRounds _ _) as [r|st]; [exact Hloop|].
  destruct Hloop as (_ & Hk & _). unfold seedRounds in Hk. lia.
Qed.
End SeedLoop.

(** ** Committing a placement *)

Lemma countZero_insert (values : list Z) (i : nat) (v : Z) :
  values !! i = Some 0 → v ≠ 0 →
  S (countZero (<[i := v]> values)) = countZero values.
Proof.
  unfold countZero. revert i. induction values as [|w values IH]; intros i Hi Hv.
  - by rewrite lookup_nil in Hi.
  - destruct i as [|i]; simpl in Hi.
    + injection Hi as ->.
      change (<[0%nat := v]> (0 :: values)) with (v :: values).
      rewrite !filter_cons.
      by repeat case_decide.
    + change (<[S i := v]> (w :: values)) with (w :: <[i := v]> values).
      rewrite !filter_cons. specialize (IH i Hi Hv).
      destruct (decide (w = 0)); simpl; lia.
Qed.

Lemma commit_spec (visit : list (Z * Z)) (values : list Z) :
  NoDup visit.*1 →
  Z.of_nat (length values) ≤ 2 ^ 63 →
  (∀ k v, (k, v) ∈ visit →
     0 ≤ k < Z.of_nat (length values) ∧ values !! Z.to_nat k = Some 0 ∧ v ≠ 0) →
  ∃ values',
    commit visit values = Ok values' ∧
    length values' = length values ∧
    (∀ k v, (k, v) ∈ visit → values' !! Z.to_nat k = Some v) ∧
    (∀ j, (∀ k v, (k, v) ∈ visit → Z.to_nat k ≠ j) → values' !! j = values !! j) ∧
    (countZero values' + length visit = countZero values)%nat.
Proof.
  revert values. induction visit as [|[k v] visit IH]; intros values Hnd Hlen Hin; simpl.
  - exists values. split_and!; [done|done| |done|simpl; lia].
    by intros k v ?%elem_of_nil.
  - apply NoDup_cons in Hnd as [Hk Hnd].
    destruct (Hin k v) as (Hkr & Hk0 & Hv); [by left|].
    rewrite wrapInt_small by lia. rewrite store_in_range by done. simpl.
    destruct (IH (<[Z.to_nat k := v]> values)) as (values' & -> & Hl & Hset & Hkeep & Hcnt);
      [done|by rewrite length_insert|..].
    { intros k' v' Hin'. destruct (Hin k' v') as (? & ? & ?); [by right|].
      rewrite length_insert. split_and!; [lia|lia| |done].
      rewrite list_lookup_insert_ne; [done|].
      intros Heq. apply Hk. apply list_elem_of_fmap. exists (k', v').
      split; [simpl; lia|done]. }
    exists values'. rewrite length_insert in Hl. split_and!; [done|done|..].
    + intros k' v' [[= -> ->]|Hin']%elem_of_cons; [|by apply Hset].
      rewrite Hkeep.
      * apply list_lookup_insert_eq. lia.
      * intros k' v' Hin' Heq. apply Hk. apply list_elem_of_fmap.
        exists (k', v'). destruct (Hin k' v') as (? & ? & ?); [by right|].
        split; [simpl; lia|done].
    + intros j Hj. rewrite Hkeep.
      * apply list_lookup_insert_ne. eapply Hj. by left.
      * intros k' v' Hin'. eapply Hj. by right.
    + rewrite <- (countZero_insert values (Z.to_nat k) v) by done. lia.
Qed.

Lemma wrapInt_inj a b :
  0 ≤ a < 2 ^ 64 → 0 ≤ b < 2 ^ 64 → wrapInt a = wrapInt b → a = b.
Proof.
  unfold wrapInt. intros Ha Hb Heq.
  assert (Hm : (a + 2 ^ 63) mod 2 ^ 64 = (b + 2 ^ 63) mod 2 ^ 64) by lia.
  assert (Hhi : ∀ x, 2 ^ 63 ≤ x < 2 ^ 64 →
                     (x + 2 ^ 63) mod 2 ^ 64 = x - 2 ^ 63).
  { intros x Hx. replace (x + 2 ^ 63) with ((x - 2 ^ 63) + 1 * 2 ^ 64) by lia.
    rewrite Z.mod_add by lia. apply Z.mod_small. lia. }
  destruct (decide (a < 2 ^ 63)), (decide (b < 2 ^ 63));
    rewrite ?(Z.mod_small (a + _)), ?(Z.mod_small (b + _)),
      ?(Hhi a), ?(Hhi b) in Hm by lia; lia.
Qed.

(** Two visiting orders of the same map commit the same array (or both
    panic). *)
Lemma store_store_comm (values : list Z) (k1 k2 v1 v2 : Z) :
  k1 ≠ k2 →
  (values1 ← store values k1 v1; store values1 k2 v2) =
  (values2 ← store values k2 v2; store values2 k1 v1).
Proof.
  intros Hne. unfold store.
  destruct (decide (0 ≤ k1 < Z.of_nat (length values))) as [H1|H1];
    destruct (decide (0 ≤ k2 < Z.of_nat (length values))) as [H2|H2]; simpl;
    rewrite ?length_insert, ?decide_True, ?decide_False by done; try done.
  f_equal. apply list_insert_insert_ne. lia.
Qed.

Lemma commit_perm (visit1 visit2 : list (Z * Z)) (values : list Z) :
  visit1 ≡ₚ visit2 →
  NoDup visit1.*1 →
  (∀ k v, (k, v) ∈ visit1 → 0 ≤ k < 2 ^ 64) →
  commit visit1 values = commit visit2 values.
Proof.
  intros Hperm. revert values.
  induction Hperm as [|[k v] l1 l2 Hp IH|[k1 v1] [k2 v2] l|l1 l2 l3 Hp1 IH1 Hp2 IH2];
    intros values Hnd Hr.
  - done.
  - simpl. apply NoDup_cons in Hnd as [_ Hnd].
    destruct (store values (wrapInt k) v); simpl; try done.
    apply IH; [done|]. intros k' v' ?. eapply Hr. by right.
  - simpl. 
    assert (wrapInt k2 ≠ wrapInt k1).
    { intros Heq. apply wrapInt_inj in Heq.
      - subst k2. simpl in Hnd. apply NoDup_cons in Hnd as [Hn _].
        apply Hn. by left.
      - eapply (Hr k2 v2). by left.
      - eapply (Hr k1 v1). right. by left. }
    transitivity
      ((values1 ← store values (wrapInt k2) v2; store values1 (wrapInt k1) v1)
         ≫= commit l);
      [by destruct (store values (wrapInt k2) v2)|].
    rewrite store_store_comm by done.
    by destruct (store values (wrapInt k1) v1).
  - rewrite IH1 by done. apply IH2.
    + by rewrite <- Hp1.
    + intros k v Hin. eapply Hr. by rewrite Hp1.
Qed.

(** ** Bucketing *)

Lemma concat_replicate_nil {A : Type} (n : nat) :
  concat (replicate n (@nil A)) = [].
Proof. induction n as [|n IH]; simpl; done. Qed.

Lemma concat_insert_app {A : Type} (h : list (list A)) (i : nat) b l :
  h !! i = Some b → concat (<[i := b ++ l]> h) ≡ₚ concat h ++ l.
Proof.
  revert i. induction h as [|b' h IH]; intros i Hi.
  - by rewrite lookup_nil in Hi.
  - destruct i as [|i]; simpl in *.
    + injection Hi as ->. rewrite <- !app_assoc.
      apply Permutation_app_head, Permutation_app_comm.
    + rewrite (IH i Hi). by rewrite app_assoc.
Qed.

Lemma elem_of_entriesFrom e i0 keys :
  e ∈ entriesFrom i0 keys ↔
  ∃ i : nat, keys !! i = Some (hash e) ∧
             idx e = wrap32 (wrap32 (i0 + Z.of_nat i) + 1).
Proof.
  revert i0. induction keys as [|k keys IH]; intros i0; simpl.
  - split; [by intros ?%elem_of_nil|]. intros (i & Hi & _).
    by rewrite lookup_nil in Hi.
  - rewrite elem_of_cons, IH. split.
    + intros [->|(i & Hi & He)].
      * exists 0%nat. simpl. by rewrite Z.add_0_r.
      * exists (S i). simpl. split; [done|]. rewrite He. do 3 f_equal. lia.
    + intros ([|i] & Hi & He); simpl in *.
      * left. destruct e as [ie he]. simpl in *. injection Hi as ->.
        rewrite He. by rewrite Z.add_0_r.
      * right. exists i. split; [done|]. rewrite He. do 3 f_equal. lia.
Qed.

Lemma length_entriesFrom i0 keys : length (entriesFrom i0 keys) = length keys.
Proof. revert i0. induction keys; intros; simpl; auto. Qed.

Lemma hash_entriesFrom i0 keys : hash <$> entriesFrom i0 keys = keys.
Proof. revert i0. induction keys; intros; simpl; f_equal; auto. Qed.

Lemma bucketize_spec keys i0 mask (h0 : list (list entry)) :
  0 ≤ mask < Z.of_nat (length h0) →
  Z.of_nat (length h0) ≤ 2 ^ 63 →
  ∃ h, bucketize i0 keys mask h0 = Ok h ∧
       length h = length h0 ∧
       concat h ≡ₚ concat h0 ++ entriesFrom i0 keys ∧
       ∀ (j : nat) b e, h !! j = Some b → e ∈ b →
         (∃ b0, h0 !! j = Some b0 ∧ e ∈ b0) ∨
         Z.of_nat j = home mask (hash e).
Proof.
  revert i0 h0. induction keys as [|k keys IH]; intros i0 h0 Hmask Hlen; simpl.
  - exists h0. split_and!; [done|done|by rewrite app_nil_r|]. eauto.
  - pose proof (land_nonneg_range k mask) as Hk.
    rewrite wrapInt_small by lia.
    destruct (load_in_range h0 (Z.land k mask)) as (b & Hb & ->); [lia|].
    simpl. rewrite store_in_range by lia. simpl.
    set (e0 := mkEntry (wrap32 (wrap32 i0 + 1)) k).
    destruct (IH (i0 + 1) (<[Z.to_nat (Z.land k mask) := b ++ [e0]]> h0))
      as (h & -> & Hl & Hperm & Hhome); rewrite ?length_insert; [done..|].
    exists h. rewrite length_insert in Hl. split_and!; [done|done|..].
    + rewrite Hperm, (concat_insert_app _ _ _ _ Hb).
      by rewrite <- app_assoc.
    + intros j b' e Hj He.
      destruct (Hhome j b' e Hj He) as [(b0 & Hb0 & He0)|Hh]; [|by right].
      destruct (decide (j = Z.to_nat (Z.land k mask))) as [->|Hne].
      * rewrite list_lookup_insert_eq in Hb0 by lia. injection Hb0 as <-.
        apply elem_of_app in He0 as [He0|He0]; [left; eauto|].
        apply list_elem_of_singleton in He0 as ->. right.
        unfold home. simpl. lia.
      * rewrite list_lookup_insert_ne in Hb0 by done. left. eauto.
Qed.

(** ** Placements *)

Section Placement.
Variables (mask seed : Z).

Lemma placement_lookup_other (b : list entry) (m0 : gmap Z Z) k :
  k ∉ (λ e, slotOf mask seed (hash e)) <$> b →
  placement mask seed b m0 !! k = m0 !! k.
Proof.
  revert m0. induction b as [|e b IH]; intros m0 Hk; simpl; [done|].
  rewrite fmap_cons, not_elem_of_cons in Hk. destruct Hk as [Hne Hk].
  change (placement mask seed b (<[slotOf mask seed (hash e) := idx e]> m0) !! k
          = m0 !! k).
  rewrite IH by done. by rewrite lookup_insert_ne.
Qed.

Lemma placement_lookup_elem (b : list entry) (m0 : gmap Z Z) e :
  NoDup ((λ e, slotOf mask seed (hash e)) <$> b) → e ∈ b →
  placement mask seed b m0 !! slotOf mask seed (hash e) = Some (idx e).
Proof.
  revert m0. induction b as [|e0 b IH]; intros m0 Hnd He.
  - by apply elem_of_nil in He.
  - rewrite fmap_cons in Hnd. apply NoDup_cons in Hnd as [Hni Hnd].
    change (placement mask seed b (<[slotOf mask seed (hash e0) := idx e0]> m0)
              !! slotOf mask seed (hash e) = Some (idx e)).
    apply elem_of_cons in He as [->|He]; [|by apply IH].
    rewrite placement_lookup_other by done. apply lookup_insert_eq.
Qed.

Lemma placement_lookup_Some (b : list entry) (m0 : gmap Z Z) k v :
  placement mask seed b m0 !! k = Some v →
  m0 !! k = Some v ∨ ∃ e, e ∈ b ∧ k = slotOf mask seed (hash e) ∧ v = idx e.
Proof.
  revert m0. induction b as [|e0 b IH]; intros m0 Hk; [by left|].
  change (placement mask seed b (<[slotOf mask seed (hash e0) := idx e0]> m0)
            !! k = Some v) in Hk.
  apply IH in Hk as [Hk|(e & He & -> & ->)].
  - apply lookup_insert_Some in Hk as [[<- <-]|[_ Hk]]; [|by left].
    right. exists e0. split; [by left|done].
  - right. exists e. split; [by right|done].
Qed.

Lemma placement_size (b : list entry) (m0 : gmap Z Z) :
  NoDup ((λ e, slotOf mask seed (hash e)) <$> b) →
  (∀ e, e ∈ b → m0 !! slotOf mask seed (hash e) = None) →
  size (placement mask seed b m0) = (size m0 + length b)%nat.
Proof.
  revert m0. induction b as [|e0 b IH]; intros m0 Hnd Hnone; simpl; [lia|].
  rewrite fmap_cons in Hnd. apply NoDup_cons in Hnd as [Hni Hnd].
  change (size (placement mask seed b
                  (<[slotOf mask seed (hash e0) := idx e0]> m0))
          = (size m0 + S (length b))%nat).
  rewrite IH; [|done|].
  - rewrite map_size_insert_None; [lia|]. apply Hnone. by left.
  - intros e He. rewrite lookup_insert_ne; [apply Hnone; by right|].
    intros Heq. apply Hni. apply list_elem_of_fmap. by exists e.
Qed.
End Placement.

(** ** Buckets *)

Lemma elem_of_concat {A : Type} (x : A) (ls : list (list A)) :
  x ∈ concat ls ↔ ∃ l, l ∈ ls ∧ x ∈ l.
Proof.
  induction ls as [|l ls IH]; simpl.
  - split; [by intros ?%elem_of_nil|]. by intros (l & ?%elem_of_nil & _).
  - rewrite elem_of_app, IH. split.
    + intros [Hx|(l' & Hl' & Hx)]; [exists l|exists l']; split; try done;
        [by left|by right].
    + intros (l' & [->|Hl']%elem_of_cons & Hx); [by left|right; eauto].
Qed.

Lemma bucketsOk_disjoint mask Pb b h e e' :
  bucketsOk mask (Pb ++ b :: h) →
  e ∈ b → e' ∈ concat Pb ∨ e' ∈ concat h →
  home mask (hash e) ≠ home mask (hash e').
Proof.
  intros (Hnd & Hsame & _) He He' Heq.
  rewrite concat_app, concat_cons in Hnd, Hsame.
  apply NoDup_app in Hnd as (_ & Hd1 & Hnd).
  apply NoDup_app in Hnd as (_ & Hd2 & _).
  assert (Hin : e' ∈ b).
  { apply (Hsame b e e'); [|done| |done].
    - apply elem_of_app. right. by left.
    - rewrite !elem_of_app. tauto. }
  destruct He' as [He'|He'].
  - apply (Hd1 e' He'). apply elem_of_app. by left.
  - by apply (Hd2 e' Hin).
Qed.

Lemma bucketsOk_same_home mask hs b e e' :
  bucketsOk mask hs → b ∈ hs → e ∈ b → e' ∈ b →
  home mask (hash e) = home mask (hash e').
Proof.
  intros (_ & Hsame & _) Hb He He'. apply (Hsame b e e'); try done.
  apply elem_of_concat. eauto.
Qed.

Lemma routed_insert_ne mask seeds h j (k : nat) s :
  0 ≤ mask → k ≠ Z.to_nat (home mask h) →
  routed mask (<[k := s]> seeds) h j ↔ routed mask seeds h j.
Proof.
  intros Hmask Hne. unfold routed.
  by setoid_rewrite list_lookup_insert_ne.
Qed.

(** ** The first loop: seed search over the multi-key buckets *)

Section SolveBuckets.
Variable rangeOrder : gmap Z Z → list (Z * Z).
Hypothesis Hrange : rangeOrderContract rangeOrder.
Variable mask : Z.
Hypothesis Hmask : 0 ≤ mask < 2 ^ 31.

Lemma home_range h : 0 ≤ home mask h ≤ mask.
Proof. apply land_nonneg_range. lia. Qed.

Lemma elem_of_rangeOrder (m : gmap Z Z) k v :
  (k, v) ∈ rangeOrder m ↔ m !! k = Some v.
Proof. rewrite (Hrange m). apply elem_of_map_to_list. Qed.

Lemma NoDup_rangeOrder (m : gmap Z Z) : NoDup (rangeOrder m).*1.
Proof. rewrite (Hrange m). apply NoDup_fst_map_to_list. Qed.

Lemma length_rangeOrder (m : gmap Z Z) : length (rangeOrder m) = size m.
Proof. rewrite (Hrange m). apply length_map_to_list. Qed.

(** One round of the loop on a bucket with several keys. *)
Lemma solveBuckets_step Pb b h values seeds :
  bucketsOk mask (Pb ++ b :: h) →
  solved mask (concat Pb) values seeds →
  (1 < length b)%nat →
  match seedLoop rangeOrder b mask values with
  | Ok (seed, m) =>
      ∃ values' seeds' k0,
        commit (rangeOrder m) values = Ok values' ∧
        load b 0 = Ok k0 ∧
        store seeds (wrapInt (Z.land (hash k0) mask)) (wrapU32 seed)
          = Ok seeds' ∧
        solved mask (concat (Pb ++ [b])) values' seeds'
  | Err e => e = ErrNoSeed
  | Panic | Diverge => False
  end.
Proof.
  intros Hok [Hvl Hsl Hrt Hpv Hsd Hct] Hb.
  assert (Hidx : ∀ e, e ∈ b → idx e ≠ 0).
  { intros e He. destruct Hok as (_ & _ & Hidx). apply Hidx.
    apply elem_of_concat. exists b. split; [|done].
    apply elem_of_app. right. by left. }
  assert (Hmv : 0 ≤ mask < Z.of_nat (length values)) by lia.
  assert (Hlv : Z.of_nat (length values) ≤ 2 ^ 63) by lia.
  pose proof (seedLoop_spec rangeOrder Hrange mask values b Hmv Hlv Hidx)
    as Hloop.
  destruct (seedLoop rangeOrder b mask values) as [[seed m]|e| |];
    [|by destruct Hloop|done..].
  destruct Hloop as (Hseed & [Hnd Hfree] & _ & ->).
  set (m := placement mask seed b ∅).
  assert (Hm : ∀ k v, m !! k = Some v →
                      ∃ e, e ∈ b ∧ k = slotOf mask seed (hash e) ∧ v = idx e).
  { intros k v Hk. apply placement_lookup_Some in Hk as [Hk|Hk]; [|done].
    by rewrite lookup_empty in Hk. }
  destruct (commit_spec (rangeOrder m) values)
    as (values' & Hcommit & Hvl' & Hset & Hkeep & Hcnt);
    [apply NoDup_rangeOrder|done|..].
  { intros k v Hk%elem_of_rangeOrder. apply Hm in Hk as (e & He & -> & ->).
    pose proof (slotOf_range seed mask values Hmv (hash e)).
    split_and!; [lia|lia|by apply Hfree|by apply Hidx]. }
  destruct b as [|k0 b']; [simpl in Hb; lia|].
  pose proof (home_range (hash k0)) as Hk0. unfold home in Hk0.
  set (hk := Z.to_nat (Z.land (hash k0) mask)).
  exists values', (<[hk := seed]> seeds), k0.
  split; [done|]. split; [done|]. split.
  { rewrite wrapInt_small, wrapU32_small by lia.
    apply store_in_range. lia. }
  assert (Hhb : ∀ e, e ∈ k0 :: b' → Z.to_nat (home mask (hash e)) = hk).
  { intros e He. unfold hk. fold (home mask (hash k0)). f_equal.
    eapply (bucketsOk_same_home mask _ (k0 :: b')); [done| |done|by left].
    apply elem_of_app. right. by left. }
  assert (HhP : ∀ e, e ∈ concat Pb → hk ≠ Z.to_nat (home mask (hash e))).
  { intros e He Heq.
    apply (bucketsOk_disjoint mask Pb (k0 :: b') h k0 e Hok);
      [by left|by left|].
    pose proof (home_range (hash e)). unfold hk, home in *. lia. }
  assert (Hrb : ∀ e, e ∈ k0 :: b' →
            routed mask (<[hk := seed]> seeds) (hash e)
              (slotOf mask seed (hash e))).
  { intros e He. exists seed. rewrite (Hhb e He). split; [|by left].
    apply list_lookup_insert_eq. unfold hk. lia. }
  assert (Hin : ∀ e, e ∈ k0 :: b' →
            (slotOf mask seed (hash e), idx e) ∈ rangeOrder m).
  { intros e He. apply elem_of_rangeOrder.
    by apply placement_lookup_elem. }
  rewrite concat_app. simpl. rewrite app_nil_r. constructor.
  - lia.
  - rewrite length_insert. lia.
  - intros e [He|He]%elem_of_app.
    + destruct (Hrt e He) as (j & Hj & Hv). exists j. split.
      * apply routed_insert_ne; [lia|by apply HhP|done].
      * rewrite Hkeep; [done|]. intros k v Hk%elem_of_rangeOrder Heq.
        apply Hm in Hk as (e' & He' & -> & ->).
        specialize (Hfree e' He'). rewrite Heq, Hv in Hfree.
        injection Hfree as Hz. destruct Hok as (_ & _ & Hnz).
        apply (Hnz e); [|done]. rewrite concat_app, elem_of_app. by left.
    + exists (slotOf mask seed (hash e)). split; [by apply Hrb|].
      by apply Hset, Hin.
  - intros j v Hj Hv. destruct (m !! Z.of_nat j) as [w|] eqn:E.
    + assert (Hw : values' !! Z.to_nat (Z.of_nat j) = Some w)
        by (by apply Hset, elem_of_rangeOrder).
      rewrite Nat2Z.id, Hj in Hw. injection Hw as <-.
      apply Hm in E as (e & He & Hslot & ->).
      exists e. split; [apply elem_of_app; by right|].
      split; [|done]. rewrite Hslot. by apply Hrb.
    + rewrite Hkeep in Hj.
      * destruct (Hpv j v Hj Hv) as (e & He & Hr & ->).
        exists e. split; [apply elem_of_app; by left|]. split; [|done].
        apply routed_insert_ne; [lia|by apply HhP|done].
      * intros k w Hk%elem_of_rangeOrder <-.
        destruct (Hm k w Hk) as (e & He & -> & _).
        pose proof (slotOf_range seed mask values Hmv (hash e)).
        rewrite Z2Nat.id in E by lia. by rewrite E in Hk.
  - intros j s Hj. destruct (decide (j = hk)) as [->|Hne].
    + rewrite list_lookup_insert_eq in Hj by (unfold hk; lia).
      injection Hj as <-. lia.
    + rewrite list_lookup_insert_ne in Hj by done. by eapply Hsd.
  - rewrite length_rangeOrder in Hcnt. unfold m in Hcnt.
    rewrite placement_size in Hcnt; [|done|by intros; apply lookup_empty].
    rewrite map_size_empty in Hcnt. rewrite length_app. lia.
Qed.

(** The whole loop: it handles a prefix of buckets with several keys
    each and stops at the first bucket with at most one. *)
Lemma solveBuckets_spec h Pb values seeds :
  bucketsOk mask (Pb ++ h) →
  solved mask (concat Pb) values seeds →
  Forall (λ b, 1 < length b)%nat Pb →
  match solveBuckets rangeOrder h mask values seeds with
  | Ok (rest, values', seeds') =>
      ∃ Pb', Pb ++ h = Pb' ++ rest ∧
             solved mask (concat Pb') values' seeds' ∧
             Forall (λ b, 1 < length b)%nat Pb' ∧
             match rest with
             | b :: _ => (length b ≤ 1)%nat
             | [] => True
             end
  | Err e => e = ErrNoSeed
  | Panic | Diverge => False
  end.
Proof.
  revert Pb values seeds.
  induction h as [|b h IH]; intros Pb values seeds Hok Hinv Hmulti; simpl.
  - exists Pb. by rewrite app_nil_r.
  - destruct (Z.ltb_spec 1 (Z.of_nat (length b))) as [Hb|Hb].
    + pose proof (solveBuckets_step Pb b h values seeds Hok Hinv) as Hstep.
      destruct (seedLoop rangeOrder b mask values) as [[seed m]|e| |];
        simpl; [|apply Hstep; lia..].
      destruct Hstep as (values' & seeds' & k0 & -> & -> & Hst & Hinv');
        [lia|].
      simpl in *. rewrite Hst. simpl.
      specialize (IH (Pb ++ [b]) values' seeds').
      rewrite <- app_assoc in IH. apply IH; [done..|].
      apply Forall_app. split; [done|]. constructor; [lia|done].
    + exists Pb. split_and!; [done..|lia].
Qed.
End SolveBuckets.

(** ** Collecting the free slots *)

Lemma collectFree_spec i values :
  ∀ free out, collectFree i values = (free, out) →
    length out = length values ∧
    (∀ k : nat, out !! k =
       (λ v, if v =? 0 then 0 else wrap32 (v - 1)) <$> values !! k) ∧
    (∀ j, j ∈ free ↔ ∃ k : nat, j = i + Z.of_nat k ∧ values !! k = Some 0) ∧
    StronglySorted Z.lt free ∧
    length free = countZero values.
Proof.
  revert i. induction values as [|v values IH]; intros i free out Heq; simpl in Heq.
  - injection Heq as <- <-. split_and!; [done|done| |constructor|done].
    intros j. split; [by intros ?%elem_of_nil|]. by intros (k & _ & ?).
  - destruct (collectFree (i + 1) values) as [free' out'] eqn:E.
    destruct (IH _ _ _ E) as (Hl & Hout & Hfree & Hs & Hc).
    assert (Hfrom : ∀ j, j ∈ free' → i < j).
    { intros j (k & -> & _)%Hfree. lia. }
    unfold countZero in *. rewrite filter_cons.
    destruct (Z.eqb_spec v 0) as [->|Hv]; injection Heq as <- <-.
    + rewrite decide_True by done. simpl. split_and!; [by rewrite Hl| | | |by rewrite Hc].
      * intros [|k]; simpl; [done|apply Hout].
      * intros j. rewrite elem_of_cons, Hfree. split.
        -- intros [->|(k & -> & Hk)]; [exists 0%nat|exists (S k)]; simpl;
             split; try done; lia.
        -- intros ([|k] & -> & Hk); simpl in *; [left; lia|right].
           exists k. split; [lia|done].
      * constructor; [done|]. apply Forall_forall. intros j Hj.
        by apply Hfrom.
    + rewrite decide_False by done. simpl. split_and!; [by rewrite Hl| | |done|done].
      * intros [|k]; simpl; [|apply Hout].
        destruct (Z.eqb_spec v 0); [done|done].
      * intros j. rewrite Hfree. split.
        -- intros (k & -> & Hk). exists (S k). split; [lia|done].
        -- intros ([|k] & -> & Hk); simpl in *; [congruence|].
           exists k. split; [lia|done].
Qed.

Lemma StronglySorted_lt_NoDup (l : list Z) : StronglySorted Z.lt l → NoDup l.
Proof.
  induction 1 as [|x l Hs IH Hx]; constructor; [|done].
  intros Hin. rewrite Forall_forall in Hx. specialize (Hx x Hin). lia.
Qed.

Section Singletons.
Variable mask : Z.
Hypothesis Hmask : 0 ≤ mask < 2 ^ 31.

(** From the first loop to the second. *)
Lemma solved_placed P values seeds free out :
  solved mask P values seeds →
  (∀ e, e ∈ P → idx e ≠ 0) →
  collectFree 0 values = (free, out) →
  placed mask P free out seeds.
Proof.
  intros [Hvl Hsl Hrt Hpv Hsd Hct] Hidx Hcf.
  destruct (collectFree_spec 0 values free out Hcf)
    as (Hl & Hout & Hfree & Hsorted & Hcnt).
  assert (Hrange : ∀ h j, routed mask seeds h j → 0 ≤ j ≤ mask).
  { intros h j (s & _ & [[_ ->]|[? _]]); [|done].
    apply land_nonneg_range. lia. }
  constructor.
  - lia.
  - done.
  - intros e He. destruct (Hrt e He) as (j & Hj & Hv).
    exists j. split_and!; [done|by eapply Hrange|by eapply Hrange| |].
    + intros (k & -> & Hk)%Hfree. rewrite Z.add_0_l, Nat2Z.id in Hv.
      rewrite Hv in Hk. injection Hk as Hk. by apply (Hidx e).
    + rewrite Hout, Hv. simpl.
      destruct (Z.eqb_spec (idx e) 0); [by apply Hidx in He|done].
  - intros j Hj.
    destruct (lookup_lt_is_Some_2 values (Z.to_nat j)) as [v Hv]; [lia|].
    destruct (decide (v = 0)) as [->|Hv0].
    + left. split.
      * apply Hfree. exists (Z.to_nat j). split; [lia|done].
      * by rewrite Hout, Hv.
    + right. destruct (Hpv _ _ Hv Hv0) as (e & He & Hr & _).
      exists e. split; [done|]. by rewrite Z2Nat.id in Hr by lia.
  - by apply StronglySorted_lt_NoDup.
  - intros j (k & -> & Hk)%Hfree. apply lookup_lt_Some in Hk. lia.
  - intros j s Hj. left. by eapply Hsd.
  - lia.
Qed.

(** The second loop never finds the free list empty and places one
    single-key bucket per round. *)
Lemma placeSingletons_spec h Pb free values seeds :
  bucketsOk mask (Pb ++ h) →
  placed mask (concat Pb) free values seeds →
  Forall (λ b, length b ≤ 1)%nat h →
  (length (concat h) ≤ length free)%nat →
  match placeSingletons h mask free values seeds with
  | Ok (values', seeds') =>
      ∃ Pb' rest free',
        Pb ++ h = Pb' ++ rest ∧
        placed mask (concat Pb') free' values' seeds' ∧
        match rest with b :: _ => b = [] | [] => True end
  | Err _ | Panic | Diverge => False
  end.
Proof.
  revert Pb free values seeds.
  induction h as [|b h IH]; intros Pb free values seeds Hok Hinv Hsingle Hroom.
  - exists Pb, [], free. by rewrite app_nil_r.
  - apply Forall_cons in Hsingle as [Hb Hsingle].
    destruct b as [|k [|k' b']]; simpl in Hb; [|clear Hb|lia].
    { exists Pb, ([] :: h), free. done. }
    simpl in Hroom. destruct free as [|dst free']; simpl in Hroom; [lia|].
    destruct Hinv as [Hvl Hsl Hrt Hslots Hnd Hfr Hsd Hct].
    apply NoDup_cons in Hnd as [Hdst Hnd].
    assert (Hd : 0 ≤ dst ≤ mask) by (apply Hfr; by left).
    pose proof (land_nonneg_range (hash k) mask) as Hk.
    change (placeSingletons ([k] :: h) mask (dst :: free') values seeds)
      with (values ← store values dst (wrap32 (idx k - 1));
            seeds ← store seeds (wrapInt (Z.land (hash k) mask))
                      (Z.lor singletonBit (wrapU32 dst));
            placeSingletons h mask free' values seeds).
    rewrite (store_in_range values dst) by lia. simpl.
    rewrite wrapInt_small, wrapU32_small, store_in_range by lia. simpl.
    set (hk := Z.to_nat (Z.land (hash k) mask)).
    specialize (IH (Pb ++ [[k]]) free'
                  (<[Z.to_nat dst := wrap32 (idx k - 1)]> values)
                  (<[hk := Z.lor singletonBit dst]> seeds)).
    rewrite <- app_assoc in IH. apply IH; [done| |done|lia].
    assert (HhP : ∀ e, e ∈ concat Pb → hk ≠ Z.to_nat (home mask (hash e))).
    { intros e He Heq.
      apply (bucketsOk_disjoint mask Pb [k] h k e Hok);
        [by left|by left|].
      pose proof (land_nonneg_range (hash e) mask).
      unfold hk, home in *. lia. }
    assert (Hrk : routed mask (<[hk := Z.lor singletonBit dst]> seeds)
                    (hash k) dst).
    { exists (Z.lor singletonBit dst). split; [|by right].
      apply list_lookup_insert_eq. unfold hk. lia. }
    rewrite concat_app. simpl. constructor.
    + by rewrite length_insert.
    + by rewrite length_insert.
    + intros e [He|He]%elem_of_app.
      * destruct (Hrt e He) as (j & Hj & Hjr & Hjf & Hv).
        exists j. split_and!; [|lia|lia| |].
        -- apply routed_insert_ne; [lia|by apply HhP|done].
        -- intros Hin. apply Hjf. by right.
        -- rewrite list_lookup_insert_ne; [done|].
           intros Heq. apply Hjf. apply elem_of_cons. left. lia.
      * apply list_elem_of_singleton in He as ->.
        exists dst. split_and!; [done|lia|lia|done|].
        apply list_lookup_insert_eq. lia.
    + intros j Hj. destruct (decide (j = dst)) as [->|Hne].
      { right. exists k. split; [|done]. apply elem_of_app. right. by left. }
      destruct (Hslots j Hj) as [[Hjf Hv]|(e & He & Hr)].
      * left. apply elem_of_cons in Hjf as [?|Hjf]; [done|].
        split; [done|]. rewrite list_lookup_insert_ne; [done|lia].
      * right. exists e. split; [apply elem_of_app; by left|].
        apply routed_insert_ne; [lia|by apply HhP|done].
    + done.
    + intros j Hj. apply Hfr. by right.
    + intros j s Hj. destruct (decide (j = hk)) as [->|Hne].
      * rewrite list_lookup_insert_eq in Hj by (unfold hk; lia).
        injection Hj as <-. right. by exists dst.
      * rewrite list_lookup_insert_ne in Hj by done. by eapply Hsd.
    + rewrite length_app. simpl in *. lia.
Qed.
End Singletons.

(** ** Descriptors *)

Lemma payloadMask_ones : payloadMask = Z.ones 31.
Proof. reflexivity. Qed.

Lemma land_payloadMask_small s : 0 ≤ s < 2 ^ 31 → Z.land s payloadMask = s.
Proof.
  intros Hs. rewrite payloadMask_ones, Z.land_ones by lia.
  apply Z.mod_small. lia.
Qed.

Lemma land_singletonBit_small s : 0 ≤ s < 2 ^ 31 → Z.land s singletonBit = 0.
Proof.
  intros Hs. apply Z.bits_inj'. intros n Hn.
  rewrite Z.land_spec, Z.bits_0.
  change singletonBit with (2 ^ 31). rewrite Z.pow2_bits_eqb by lia.
  destruct (Z.eqb_spec 31 n) as [<-|]; [|by rewrite andb_false_r].
  rewrite andb_true_r. destruct (decide (s = 0)) as [->|]; [done|].
  apply Z.bits_above_log2; [lia|]. apply Z.log2_lt_pow2; lia.
Qed.

Lemma land_singletonBit_lor d : Z.land (Z.lor singletonBit d) singletonBit ≠ 0.
Proof.
  intros H. apply (f_equal (λ z, Z.testbit z 31)) in H.
  rewrite Z.land_spec, Z.lor_spec, Z.bits_0 in H.
  change singletonBit with (2 ^ 31) in H.
  by rewrite Z.pow2_bits_true in H by lia.
Qed.

Lemma land_payloadMask_lor d :
  0 ≤ d < 2 ^ 31 → Z.land (Z.lor singletonBit d) payloadMask = d.
Proof.
  intros Hd. rewrite Z.land_lor_distr_l, (land_payloadMask_small d) by done.
  by replace (Z.land singletonBit payloadMask) with 0 by reflexivity.
Qed.

(** ** [Query] *)

Lemma Query_querySlot t h :
  Values t ≠ [] → Query t h = (j ← querySlot t h; load (Values t) j).
Proof.
  intros Hne. unfold Query, querySlot.
  destruct (Values t) as [|v values] eqn:E; [done|].
  simpl. destruct (load (Seeds t) _) as [s| | |]; simpl; try done.
  by destruct (negb _).
Qed.

Lemma querySlot_routed mask values seeds h j :
  0 ≤ mask < 2 ^ 31 →
  routed mask seeds h j → querySlot (mkTable values seeds mask) h = Ok j.
Proof.
  intros Hmask (s & Hs & Hcase). unfold querySlot. simpl.
  pose proof (land_nonneg_range h mask) as Hh. unfold home in Hs.
  rewrite wrapInt_small by lia.
  unfold load. rewrite decide_True by lia. rewrite Hs. simpl.
  destruct Hcase as [[Hseed ->]|[Hj ->]].
  - rewrite land_singletonBit_small by lia. simpl.
    rewrite land_payloadMask_small by lia.
    fold (slotOf mask s h).
    pose proof (land_nonneg_range (xorshiftMult64 (wrap64 (h + s))) mask).
    unfold slotOf. by rewrite wrapInt_small by lia.
  - destruct (Z.eqb_spec (Z.land (Z.lor singletonBit j) singletonBit) 0)
      as [Hz|_]; [by apply land_singletonBit_lor in Hz|].
    simpl. by rewrite land_payloadMask_lor by lia.
Qed.

Lemma Query_routed mask values seeds h j v :
  0 ≤ mask < 2 ^ 31 → 0 ≤ j →
  routed mask seeds h j → values !! Z.to_nat j = Some v →
  Query (mkTable values seeds mask) h = Ok v.
Proof.
  intros Hmask Hj Hr Hv. rewrite Query_querySlot.
  - rewrite (querySlot_routed mask values seeds h j) by done. simpl.
    unfold load. rewrite decide_True by done. by rewrite Hv.
  - simpl. intros ->. by rewrite lookup_nil in Hv.
Qed.

(** ** The duplicate check *)

Lemma ltb_strictWeakOrder : strictWeakOrder Z.ltb.
Proof.
  split_and!.
  - intros x. apply Z.ltb_irrefl.
  - intros x y z. rewrite !Z.ltb_lt. lia.
  - intros x y z. rewrite !Z.ltb_ge. lia.
Qed.

Lemma bySizeDesc_strictWeakOrder : strictWeakOrder bySizeDesc.
Proof.
  unfold bySizeDesc. split_and!.
  - intros x. apply Z.ltb_irrefl.
  - intros x y z. rewrite !Z.ltb_lt. lia.
  - intros x y z. rewrite !Z.ltb_ge. lia.
Qed.

Lemma findDuplicate_sorted (l : list Z) :
  StronglySorted (λ x y, (y <? x) = false) l →
  match findDuplicate l with
  | Some d => ¬ NoDup l
  | None => NoDup l
  end.
Proof.
  induction 1 as [|x l Hs IH Hx]; simpl; [constructor|].
  destruct l as [|y l]; [repeat constructor; by intros ?%elem_of_nil|].
  destruct (Z.eqb_spec y x) as [->|Hne].
  - intros [Hn _]%NoDup_cons. apply Hn. by left.
  - destruct (findDuplicate (y :: l)) as [d|].
    + intros [_ Hn]%NoDup_cons. by apply IH.
    + constructor; [|done]. intros Hin.
      apply StronglySorted_inv in Hs as [_ Hy].
      apply Forall_cons in Hx as [Hxy Hx].
      apply Z.ltb_ge in Hxy.
      apply elem_of_cons in Hin as [->|Hin]; [done|].
      rewrite Forall_forall in Hy. specialize (Hy x Hin).
      apply Z.ltb_ge in Hy. lia.
Qed.

Lemma findDuplicate_twice (l : list Z) d :
  findDuplicate l = Some d →
  ∃ l1 l2, l = l1 ++ d :: d :: l2.
Proof.
  induction l as [|x l IH]; simpl; [done|].
  destruct l as [|y l]; [done|].
  destruct (Z.eqb_spec y x) as [->|Hne].
  - intros [= ->]. by exists [], l.
  - intros (l1 & l2 & ->)%IH. by exists (x :: l1), l2.
Qed.

(** ** Rearranged buckets *)

Lemma concat_Permutation {A : Type} (ls ls' : list (list A)) :
  ls ≡ₚ ls' → concat ls ≡ₚ concat ls'.
Proof.
  induction 1 as [|l ls ls' _ IH|l1 l2 ls|ls1 ls2 ls3 _ IH1 _ IH2]; simpl.
  - done.
  - by rewrite IH.
  - rewrite !app_assoc. by rewrite (Permutation_app_comm l1 l2).
  - by rewrite IH1.
Qed.

Lemma countZero_replicate (n : nat) : countZero (replicate n 0) = n.
Proof.
  unfold countZero. induction n as [|n IH]; [done|].
  change (replicate (S n) 0) with (0 :: replicate n 0).
  rewrite filter_cons, decide_True by done. simpl. by rewrite IH.
Qed.

(** In a list sorted by decreasing size, a short bucket is followed by
    short buckets only. *)
Lemma sorted_tail_short (n : nat) (b : list entry) (rest : list (list entry)) :
  StronglySorted (λ x y, bySizeDesc y x = false) (b :: rest) →
  (length b ≤ n)%nat →
  Forall (λ b', (length b' ≤ n)%nat) (b :: rest).
Proof.
  intros [_ Hb]%StronglySorted_inv Hn. constructor; [done|].
  eapply Forall_impl; [exact Hb|]. simpl. intros b' Hb'.
  unfold bySizeDesc in Hb'. apply Z.ltb_ge in Hb'. lia.
Qed.

Lemma placed_perm mask P P' free values seeds :
  P ≡ₚ P' → placed mask P free values seeds → placed mask P' free values seeds.
Proof.
  intros HP [Hvl Hsl Hrt Hslots Hnd Hfr Hsd Hct]. constructor; try done.
  - intros e He. apply Hrt. by rewrite HP.
  - intros j Hj. destruct (Hslots j Hj) as [?|(e & He & Hr)]; [by left|].
    right. exists e. by rewrite <- HP.
  - by rewrite <- HP.
Qed.

(** ** Assembling [NewUint64] *)

Section Build.
Variable sortSlice : ∀ A : Type, (A → A → bool) → list A → list A.
Variable rangeOrder : gmap Z Z → list (Z * Z).
Hypothesis Hsort : sortSliceContract sortSlice.
Hypothesis Hrange : rangeOrderContract rangeOrder.

Lemma NewUint64_phases keys :
  keys ≠ [] → Z.of_nat (length keys) ≤ 2 ^ 31 →
  findDuplicate (sortSlice Z Z.ltb keys) = None →
  NewUint64 sortSlice rangeOrder keys =
  (st ← solvePhase sortSlice rangeOrder keys; placePhase st).
Proof.
  intros Hne Hlen Hdup. unfold NewUint64, solvePhase, bucketPhase, placePhase.
  destruct (Z.eqb_spec (Z.of_nat (length keys)) 0) as [H0|_];
    [by destruct keys|].
  destruct (Z.ltb_spec (2 ^ 31) (Z.of_nat (length keys))); [lia|].
  rewrite Hdup.
  destruct (nextPower2 _) as [size| | |]; simpl; try done.
  destruct (bucketize _ _ _ _) as [h| | |]; simpl; try done.
  destruct (solveBuckets _ _ _ _ _) as [[[rest values] seeds]| | |];
    simpl; done.
Qed.

Lemma duplicate_check keys :
  match findDuplicate (sortSlice Z Z.ltb keys) with
  | Some d => ¬ NoDup keys ∧ d ∈ keys
  | None => NoDup keys
  end.
Proof.
  destruct (Hsort Z Z.ltb keys) as [Hperm Hsorted].
  specialize (Hsorted ltb_strictWeakOrder).
  pose proof (findDuplicate_sorted _ Hsorted) as Hfd.
  destruct (findDuplicate (sortSlice Z Z.ltb keys)) as [d|] eqn:E.
  - split; [by rewrite <- Hperm|].
    apply findDuplicate_twice in E as (l1 & l2 & E).
    rewrite <- Hperm, E. apply elem_of_app. right. by left.
  - by rewrite <- Hperm.
Qed.

Lemma bucketPhase_spec keys :
  1 ≤ Z.of_nat (length keys) ≤ 2 ^ 31 → NoDup keys →
  ∃ b hs,
    0 ≤ b ≤ 31 ∧ Z.of_nat (length keys) ≤ 2 ^ b ∧
    (b = 0 ∨ 2 ^ (b - 1) < Z.of_nat (length keys)) ∧
    bucketPhase sortSlice keys = Ok (2 ^ b, 2 ^ b - 1, hs) ∧
    Z.of_nat (length hs) = 2 ^ b ∧
    bucketsOk (2 ^ b - 1) hs ∧
    concat hs ≡ₚ entriesFrom 0 keys ∧
    StronglySorted (λ x y, bySizeDesc y x = false) hs.
Proof.
  intros Hn Hnd. unfold bucketPhase.
  destruct (nextPower2_spec _ Hn) as (b & Hb & -> & Hnb & Hsm). simpl.
  assert (Hp : 1 ≤ 2 ^ b ≤ 2 ^ 31).
  { split; [lia|]. apply Z.pow_le_mono_r; lia. }
  rewrite (wrap64_small (2 ^ b)), (wrap64_small (2 ^ b - 1)),
    (wrapInt_small (2 ^ b)) by lia.
  destruct (bucketize_spec keys 0 (2 ^ b - 1)
              (replicate (Z.to_nat (2 ^ b)) []))
    as (h & -> & Hl & Hperm & Hhome); rewrite ?length_replicate; [lia..|].
  simpl. rewrite concat_replicate_nil in Hperm. simpl in Hperm.
  destruct (Hsort (list entry) bySizeDesc h) as [Hsp Hss].
  specialize (Hss bySizeDesc_strictWeakOrder).
  exists b, (sortSlice (list entry) bySizeDesc h).
  split_and!; [lia|lia|done|done|done| | | |done].
  - rewrite Hsp, Hl, length_replicate. lia.
  - unfold bucketsOk.
    assert (Hh : ∀ bk e, bk ∈ h → e ∈ bk →
              ∃ j : nat, h !! j = Some bk ∧
                         Z.of_nat j = home (2 ^ b - 1) (hash e)).
    { intros bk e (j & Hj)%list_elem_of_lookup He. exists j. split; [done|].
      destruct (Hhome j bk e Hj He) as [(b0 & Hb0 & He0)|?]; [|done].
      apply lookup_replicate in Hb0 as [-> _]. by apply elem_of_nil in He0. }
    split_and!.
    + rewrite (concat_Permutation _ _ Hsp), Hperm.
      apply (NoDup_fmap_1 hash). by rewrite hash_entriesFrom.
    + intros bk e e'. rewrite Hsp.
      intros Hbk He (bk' & Hbk' & He')%elem_of_concat.
      destruct (Hh bk e Hbk He) as (j & Hj & Hje).
      destruct (Hh bk' e' Hbk' He') as (j' & Hj' & Hje').
      split.
      * intros Heq. assert (j = j') as -> by lia. congruence.
      * intros He2. destruct (Hh bk e' Hbk He2) as (j2 & Hj2 & Hje2).
        destruct (Hhome j bk e' Hj He2) as [(b0 & Hb0 & He0)|?]; [|lia].
        apply lookup_replicate in Hb0 as [-> _]. by apply elem_of_nil in He0.
    + intros e. rewrite (concat_Permutation _ _ Hsp), Hperm.
      intros (i & Hi & ->)%elem_of_entriesFrom.
      apply lookup_lt_Some in Hi. apply idx_nonzero. lia.
  - by rewrite (concat_Permutation _ _ Hsp).
Qed.

Lemma solved_init (b : Z) :
  0 ≤ b ≤ 31 →
  solved (2 ^ b - 1) [] (replicate (Z.to_nat (2 ^ b)) 0)
    (replicate (Z.to_nat (2 ^ b)) 0).
Proof.
  intros Hb. assert (0 < 2 ^ b) by (apply Z.pow_pos_nonneg; lia).
  constructor; rewrite ?length_replicate; try lia.
  - by intros e ?%elem_of_nil.
  - by intros j v [-> _]%lookup_replicate.
  - intros j s [-> _]%lookup_replicate. lia.
  - rewrite countZero_replicate. simpl. lia.
Qed.

(** The state after the first loop. *)
Lemma solvePhase_spec keys :
  1 ≤ Z.of_nat (length keys) ≤ 2 ^ 31 → NoDup keys →
  ∃ b hs,
    0 ≤ b ≤ 31 ∧ Z.of_nat (length keys) ≤ 2 ^ b ∧
    (b = 0 ∨ 2 ^ (b - 1) < Z.of_nat (length keys)) ∧
    bucketPhase sortSlice keys = Ok (2 ^ b, 2 ^ b - 1, hs) ∧
    bucketsOk (2 ^ b - 1) hs ∧
    concat hs ≡ₚ entriesFrom 0 keys ∧
    StronglySorted (λ x y, bySizeDesc y x = false) hs ∧
    match solvePhase sortSlice rangeOrder keys with
    | Ok (mask, rest, values, seeds) =>
        mask = 2 ^ b - 1 ∧
        ∃ Pb, hs = Pb ++ rest ∧
              solved mask (concat Pb) values seeds ∧
              Forall (λ bk, 1 < length bk)%nat Pb ∧
              Forall (λ bk, length bk ≤ 1)%nat rest
    | Err e => e = ErrNoSeed
    | Panic | Diverge => False
    end.
Proof.
  intros Hn Hnd.
  destruct (bucketPhase_spec keys Hn Hnd)
    as (b & hs & Hb & Hnb & Hsm & Hbp & Hl & Hok & Hperm & Hss).
  exists b, hs. split_and!; try done; try lia.
  unfold solvePhase. rewrite Hbp. simpl.
  assert (Hp : 1 ≤ 2 ^ b ≤ 2 ^ 31).
  { split; [lia|]. apply Z.pow_le_mono_r; lia. }
  rewrite (wrapInt_small (2 ^ b)) by lia.
  assert (Hmask : 0 ≤ 2 ^ b - 1 < 2 ^ 31) by lia.
  pose proof (solveBuckets_spec rangeOrder Hrange (2 ^ b - 1) Hmask hs []
                _ _ Hok (solved_init b Hb) (Forall_nil_2 _)) as Hsolve.
  destruct (solveBuckets _ _ _ _ _) as [[[rest values] seeds]|e| |];
    simpl; try done.
  destruct Hsolve as (Pb & Heq & Hinv & Hmulti & Hrest). simpl in Heq.
  split; [done|]. exists Pb. split_and!; try done.
  destruct rest as [|bk rest]; [constructor|].
  apply sorted_tail_short; [|done].
  rewrite Heq in Hss. by apply StronglySorted_app_1_r in Hss.
Qed.

(** The second half: from the state after the first loop to the table. *)
Lemma placePhase_spec keys b hs Pb rest values seeds :
  0 ≤ b ≤ 31 → Z.of_nat (length keys) ≤ 2 ^ b →
  (b = 0 ∨ 2 ^ (b - 1) < Z.of_nat (length keys)) →
  bucketsOk (2 ^ b - 1) hs →
  concat hs ≡ₚ entriesFrom 0 keys →
  StronglySorted (λ x y, bySizeDesc y x = false) hs →
  hs = Pb ++ rest →
  solved (2 ^ b - 1) (concat Pb) values seeds →
  Forall (λ bk, length bk ≤ 1)%nat rest →
  ∃ free out t,
    collectFree 0 values = (free, out) ∧
    StronglySorted Z.lt free ∧
    (length (concat rest) ≤ length free)%nat ∧
    placePhase (2 ^ b - 1, rest, values, seeds) = Ok t ∧
    tableOk keys t.
Proof.
  intros Hb Hnb Hsm Hok Hperm Hss -> Hinv Hrest.
  assert (Hp : 1 ≤ 2 ^ b ≤ 2 ^ 31).
  { split; [|apply Z.pow_le_mono_r; lia].
    assert (0 < 2 ^ b) by (apply Z.pow_pos_nonneg; lia). lia. }
  assert (Hmask : 0 ≤ 2 ^ b - 1 < 2 ^ 31) by lia.
  destruct (collectFree 0 values) as [free out] eqn:Hcf.
  assert (Hidx : ∀ e, e ∈ concat Pb → idx e ≠ 0).
  { intros e He. destruct Hok as (_ & _ & Hidx). apply Hidx.
    rewrite concat_app. apply elem_of_app. by left. }
  pose proof (solved_placed _ Hmask _ _ _ _ _ Hinv Hidx Hcf) as Hpl.
  destruct (collectFree_spec 0 values free out Hcf) as (_ & _ & _ & Hfs & _).
  assert (Hroom : (length (concat rest) ≤ length free)%nat).
  { pose proof (placed_count _ _ _ _ _ Hpl) as Hc.
    apply Permutation_length in Hperm.
    rewrite concat_app, length_app, length_entriesFrom in Hperm. lia. }
  pose proof (placeSingletons_spec _ Hmask rest Pb free out seeds
                Hok Hpl Hrest Hroom) as Hps.
  unfold placePhase. rewrite Hcf.
  destruct (placeSingletons _ _ _ _ _) as [[valuesF seedsF]| | |];
    simpl; try done.
  destruct Hps as (Pb' & rest' & free' & Heq & Hpl' & Hstop).
  exists free, out, (mkTable valuesF seedsF (2 ^ b - 1)).
  split_and!; try done.
  exists b, free'. simpl. split_and!; try done; try lia.
  eapply placed_perm; [|exact Hpl'].
  rewrite <- Hperm, Heq, concat_app.
  assert (concat rest' = []) as ->; [|by rewrite app_nil_r].
  destruct rest' as [|bk rest']; [done|]. subst bk.
  rewrite Heq in Hss. apply StronglySorted_app_1_r in Hss.
  apply (sorted_tail_short 0) in Hss; [|done].
  clear -Hss. induction Hss as [|bk l Hbk _ IH]; [done|].
  destruct bk; [done|simpl in Hbk; lia].
Qed.

(** Everything [NewUint64] can do on a non-empty input of at most
    [2^31] keys. *)
Lemma NewUint64_spec keys :
  1 ≤ Z.of_nat (length keys) ≤ 2 ^ 31 →
  match NewUint64 sortSlice rangeOrder keys with
  | Ok t => NoDup keys ∧ tableOk keys t
  | Err (ErrDuplicateHash d) => ¬ NoDup keys ∧ d ∈ keys
  | Err ErrNoSeed =>
      NoDup keys ∧ solvePhase sortSlice rangeOrder keys = Err ErrNoSeed
  | Err ErrTooManyKeys | Panic | Diverge => False
  end.
Proof.
  intros Hn. pose proof (duplicate_check keys) as Hdup.
  destruct (findDuplicate (sortSlice Z Z.ltb keys)) as [d|] eqn:E.
  - unfold NewUint64.
    destruct (Z.eqb_spec (Z.of_nat (length keys)) 0); [lia|].
    destruct (Z.ltb_spec (2 ^ 31) (Z.of_nat (length keys))); [lia|].
    by rewrite E.
  - rewrite NewUint64_phases; [|by destruct keys; simpl in *; try lia|lia|done].
    destruct (solvePhase_spec keys Hn Hdup)
      as (b & hs & Hb & Hnb & Hsm & Hbp & Hok & Hperm & Hss & Hsolve).
    destruct (solvePhase sortSlice rangeOrder keys)
      as [[[[mask rest] values] seeds]|e| |]; simpl; try done.
    + destruct Hsolve as (-> & Pb & Heq & Hinv & _ & Hrest).
      destruct (placePhase_spec keys b hs Pb rest values seeds)
        as (free & out & t & _ & _ & _ & Hpp & Ht); try done.
      unfold placePhase in Hpp. simpl in Hpp. rewrite Hpp. done.
    + by subst e.
Qed.
End Build.

(** ** Routing is a function *)

Lemma routed_functional mask seeds h j j' :
  0 ≤ mask < 2 ^ 31 →
  routed mask seeds h j → routed mask seeds h j' → j = j'.
Proof.
  intros Hmask (s & Hs & Hc) (s' & Hs' & Hc').
  assert (s' = s) as -> by congruence.
  destruct Hc as [[Hr Hj]|[Hj Hs1]], Hc' as [[Hr' Hj']|[Hj' Hs2]].
  - by subst.
  - exfalso. apply (land_singletonBit_lor j'). rewrite <- Hs2.
    apply land_singletonBit_small. lia.
  - exfalso. apply (land_singletonBit_lor j). rewrite <- Hs1.
    apply land_singletonBit_small. lia.
  - rewrite Hs1 in Hs2.
    apply (f_equal (λ z, Z.land z payloadMask)) in Hs2.
    by rewrite !land_payloadMask_lor in Hs2 by lia.
Qed.

(** ** Independence from the order of map iteration *)

Lemma loop_ext {S R : Type} (body1 body2 : S → R + S) :
  (∀ st, body1 st = body2 st) →
  ∀ n st, loop n body1 st = loop n body2 st.
Proof.
  intros Hext. induction n as [n IH|n IH|]; intros st; simpl.
  - rewrite Hext. destruct (body2 st) as [r|st1]; [done|].
    rewrite IH. destruct (loop n body2 st1) as [r|st2]; [done|]. apply IH.
  - rewrite IH. destruct (loop n body2 st) as [r|st1]; [done|]. apply IH.
  - apply Hext.
Qed.

Lemma trySeed_keys subkeys seed mask values m0 m :
  0 ≤ mask →
  trySeed subkeys seed mask values m0 = Ok (Placed m) →
  (∀ k, is_Some (m0 !! k) → 0 ≤ k ≤ mask) →
  ∀ k, is_Some (m !! k) → 0 ≤ k ≤ mask.
Proof.
  intros Hmask. revert m0. induction subkeys as [|e sub IH]; intros m0; simpl.
  - by intros [= ->].
  - destruct (_ =? 0); [|done].
    destruct (load values _) as [v| | |]; simpl; try done.
    destruct (v =? 0); [|done].
    intros Htry Hm0. apply (IH _ Htry).
    intros k [<-|[_ Hk]]%lookup_insert_is_Some; [|by apply Hm0].
    by apply land_nonneg_range.
Qed.

Section Determinism.
Variables rangeOrder1 rangeOrder2 : gmap Z Z → list (Z * Z).
Hypothesis Hrange1 : rangeOrderContract rangeOrder1.
Hypothesis Hrange2 : rangeOrderContract rangeOrder2.

Lemma seedLoop_order subkeys mask values :
  seedLoop rangeOrder1 subkeys mask values
  = seedLoop rangeOrder2 subkeys mask values.
Proof.
  unfold seedLoop. rewrite (loop_ext _ (seedStep rangeOrder2 subkeys mask values));
    [done|].
  intros [seed m]. unfold seedStep.
  destruct (_ <=? _); [done|].
  destruct (trySeed _ _ _ _ _) as [[m'|m']| | |]; try done.
  by rewrite !clearEntries_empty.
Qed.

Lemma seedLoop_keys subkeys mask values seed m :
  0 ≤ mask →
  seedLoop rangeOrder1 subkeys mask values = Ok (seed, m) →
  ∀ k, is_Some (m !! k) → 0 ≤ k ≤ mask.
Proof.
  intros Hmask. unfold seedLoop.
  pose (I := λ (_ : Z) (st : Z * gmap Z Z), st.2 = ∅).
  pose (Q := λ r : outcome (Z * gmap Z Z),
    match r with
    | Ok (_, m) => ∀ k, is_Some (m !! k) → 0 ≤ k ≤ mask
    | _ => True
    end).
  assert (Hstep : ∀ k st, I k st →
    match seedStep rangeOrder1 subkeys mask values st with
    | inl r => Q r
    | inr st' => I (k + 1) st'
    end).
  { intros n [sd m0] Hm0. unfold I in Hm0. simpl in Hm0. subst m0.
    unfold seedStep.
    destruct (_ <=? _); [done|].
    destruct (trySeed _ _ _ _ _) as [[m'|m']| | |] eqn:E; try done.
    - simpl. intros k. eapply trySeed_keys; [done|exact E|].
      intros k' [? Hk']. by rewrite lookup_empty in Hk'.
    - unfold I. simpl. by apply clearEntries_empty. }
  pose proof (loop_rounds I Q _ Hstep seedRounds 0 (0, ∅) eq_refl) as Hloop.
  destruct (loop seedRounds _ _) as [r|st]; [|done].
  intros ->. exact Hloop.
Qed.

Lemma solveBuckets_order h mask values seeds :
  0 ≤ mask < 2 ^ 64 →
  solveBuckets rangeOrder1 h mask values seeds
  = solveBuckets rangeOrder2 h mask values seeds.
Proof.
  intros Hmask. revert values seeds.
  induction h as [|b h IH]; intros values seeds; simpl; [done|].
  destruct (1 <? _); [|done].
  rewrite <- seedLoop_order.
  destruct (seedLoop rangeOrder1 b mask values) as [[seed m]| | |] eqn:E;
    simpl; try done.
  rewrite (commit_perm (rangeOrder1 m) (rangeOrder2 m)).
  - destruct (commit _ _) as [values'| | |]; simpl; try done.
    destruct (load b 0) as [k0| | |]; simpl; try done.
    destruct (store seeds _ _) as [seeds'| | |]; simpl; try done.
  - by rewrite (Hrange1 m), (Hrange2 m).
  - rewrite (Hrange1 m). apply NoDup_fst_map_to_list.
  - intros k v Hk. rewrite (Hrange1 m) in Hk.
    apply elem_of_map_to_list in Hk.
    assert (0 ≤ k ≤ mask); [|lia].
    eapply seedLoop_keys; [|exact E|by eexists]. lia.
Qed.

Lemma NewUint64_order sortSlice keys :
  NewUint64 sortSlice rangeOrder1 keys = NewUint64 sortSlice rangeOrder2 keys.
Proof.
  unfold NewUint64.
  destruct (_ =? 0); [done|]. destruct (_ <? _); [done|].
  destruct (findDuplicate _); [done|].
  destruct (nextPower2 _) as [size| | |]; simpl; try done.
  destruct (bucketize _ _ _ _) as [h| | |]; simpl; try done.
  rewrite solveBuckets_order; [done|].
  pose proof (wrap64_range (wrap64 size - 1)). lia.
Qed.
End Determinism.

(** ** Where the first loop can fail *)

Lemma load_no_Err {A : Type} (a : list A) i e : load a i ≠ Err e.
Proof. unfold load. case_decide; [|done]. by destruct (a !! Z.to_nat i). Qed.

Lemma store_no_Err {A : Type} (a : list A) i x e : store a i x ≠ Err e.
Proof. unfold store. by case_decide. Qed.

Lemma commit_no_Err visit values e : commit visit values ≠ Err e.
Proof.
  revert values. induction visit as [|[k v] visit IH]; intros values; simpl.
  - done.
  - destruct (store values (wrapInt k) v) as [values'|e'| |] eqn:E; simpl;
      [apply IH| |done..].
    by apply store_no_Err in E.
Qed.

Section SolveFailure.
Variable rangeOrder : gmap Z Z → list (Z * Z).
Variable mask : Z.

Lemma solveBuckets_app Pb h values seeds :
  solveBuckets rangeOrder (Pb ++ h) mask values seeds =
  ('(rest, values', seeds') ← solveBuckets rangeOrder Pb mask values seeds;
   match rest with
   | [] => solveBuckets rangeOrder h mask values' seeds'
   | _ :: _ => Ok (rest ++ h, values', seeds')
   end).
Proof.
  revert values seeds. induction Pb as [|b Pb IH]; intros values seeds; simpl.
  - done.
  - destruct (1 <? _); [|done].
    destruct (seedLoop _ _ _ _) as [[seed m]| | |]; simpl; try done.
    destruct (commit _ _) as [values'| | |]; simpl; try done.
    destruct (load b 0) as [k0| | |]; simpl; try done.
    destruct (store seeds _ _) as [seeds'| | |]; simpl; try done.
Qed.

Lemma solveBuckets_Err h values seeds e :
  solveBuckets rangeOrder h mask values seeds = Err e →
  ∃ Pb b rest values' seeds',
    h = Pb ++ b :: rest ∧ (1 < length b)%nat ∧
    solveBuckets rangeOrder Pb mask values seeds = Ok ([], values', seeds') ∧
    seedLoop rangeOrder b mask values' = Err e.
Proof.
  revert values seeds. induction h as [|b h IH]; intros values seeds; simpl.
  - done.
  - destruct (Z.ltb_spec 1 (Z.of_nat (length b))) as [Hb|Hb]; [|done].
    destruct (seedLoop _ _ _ _) as [[seed m]|e'| |] eqn:Hloop; simpl; try done.
    + destruct (commit _ _) as [values'|e'| |] eqn:Hc; simpl; try done;
        [|by apply commit_no_Err in Hc].
      destruct (load b 0) as [k0|e'| |] eqn:Hk0; simpl; try done;
        [|by apply load_no_Err in Hk0].
      destruct (store seeds _ _) as [seeds'|e'| |] eqn:Hs; simpl; try done;
        [|by apply store_no_Err in Hs].
      intros (Pb & b' & rest & values'' & seeds'' & -> & Hb' & Hsolve & Hfail)%IH.
      exists (b :: Pb), b', rest, values'', seeds''.
      split_and!; try done. simpl.
      destruct (Z.ltb_spec 1 (Z.of_nat (length b))); [|lia].
      rewrite Hloop. simpl. rewrite Hc. simpl. rewrite Hk0. simpl.
      rewrite Hs. simpl. done.
    + intros [= ->]. exists [], b, h, values, seeds.
      split_and!; try done. lia.
Qed.
End SolveFailure.

(** ** The low bit of [xorshiftMult64]

    The multiplier is odd, so the low bit of the result is the low bit of
    the xor-shifted word, which is the xor of six bits of the argument,
    none of them above bit 39. *)

Lemma xorshiftMult64_odd x :
  Z.odd (xorshiftMult64 x) =
  xorb (xorb (xorb (Z.testbit x 0) (Z.testbit x 12))
             (xorb (Z.testbit x 27) (Z.testbit x 39)))
       (xorb (Z.testbit x 2) (Z.testbit x 14)).
Proof.
  unfold xorshiftMult64, wrap64.
  rewrite <- Z.bit0_odd, Z.mod_pow2_bits_low by lia.
  rewrite Z.bit0_odd, Z.odd_mul.
  change (Z.odd 2685821657736338717) with true.
  rewrite andb_true_r. rewrite <- Z.bit0_odd.
  repeat first
    [ rewrite Z.lxor_spec
    | rewrite Z.shiftr_spec by lia
    | rewrite Z.mod_pow2_bits_low by lia
    | rewrite Z.shiftl_spec by lia ].
  rewrite (Z.testbit_neg_r x (0 - 25)),
    (Z.testbit_neg_r (Z.shiftr x 12) (0 - 25)) by lia.
  rewrite !Z.add_0_l. change (27 - 25) with 2. change (27 + 12) with 39.
  rewrite Z.shiftr_spec by lia. change (2 + 12) with 14.
  by destruct (Z.testbit x 0), (Z.testbit x 12), (Z.testbit x 27),
    (Z.testbit x 39), (Z.testbit x 2), (Z.testbit x 14).
Qed.

Lemma testbit_add_pow63 s n :
  0 ≤ n < 63 → Z.testbit (9223372036854775808 + s) n = Z.testbit s n.
Proof.
  intros Hn.
  rewrite <- (Z.mod_pow2_bits_low (_ + s) 63 n) by lia.
  rewrite <- (Z.mod_pow2_bits_low s 63 n) by lia.
  f_equal. change 9223372036854775808 with (1 * 2 ^ 63).
  rewrite Z.add_comm. apply Z.mod_add. lia.
Qed.

Lemma slotOf_top_bit s :
  0 ≤ s < 2 ^ 31 →
  slotOf 1 s 9223372036854775808 = slotOf 1 s 0.
Proof.
  intros Hs. unfold slotOf.
  rewrite !wrap64_small by lia.
  rewrite !(Z.land_ones _ 1) by lia.
  change (2 ^ 1) with 2. rewrite !Zmod_odd, !xorshiftMult64_odd.
  by rewrite !testbit_add_pow63 by lia.
Qed.

(** ** Consequences for a built table *)

Section Built.
Variable sortSlice : ∀ A : Type, (A → A → bool) → list A → list A.
Variable rangeOrder : gmap Z Z → list (Z * Z).
Hypothesis Hsort : sortSliceContract sortSlice.
Hypothesis Hrange : rangeOrderContract rangeOrder.

Lemma NewUint64_nil : NewUint64 sortSlice rangeOrder [] = Ok (mkTable [] [] 0).
Proof. done. Qed.

Lemma NewUint64_too_many keys :
  2 ^ 31 < Z.of_nat (length keys) →
  NewUint64 sortSlice rangeOrder keys = Err ErrTooManyKeys.
Proof.
  intros Hn. unfold NewUint64.
  destruct (Z.eqb_spec (Z.of_nat (length keys)) 0); [lia|].
  by destruct (Z.ltb_spec (2 ^ 31) (Z.of_nat (length keys))); [|lia].
Qed.

Lemma built_tableOk keys t :
  NewUint64 sortSlice rangeOrder keys = Ok t → keys ≠ [] →
  1 ≤ Z.of_nat (length keys) ≤ 2 ^ 31 ∧ NoDup keys ∧ tableOk keys t.
Proof.
  intros Hbuild Hne.
  assert (Hn : 1 ≤ Z.of_nat (length keys) ≤ 2 ^ 31).
  { split; [destruct keys; simpl in *; [done|lia]|].
    destruct (Z.le_gt_cases (Z.of_nat (length keys)) (2 ^ 31)); [done|].
    rewrite NewUint64_too_many in Hbuild by lia. done. }
  split; [done|].
  pose proof (NewUint64_spec sortSlice rangeOrder Hsort Hrange keys Hn) as H.
  by rewrite Hbuild in H.
Qed.

(** What a slot of [Values] holds: the ordinal of the key that [Query]
    sends there, or 0 when no key is sent there. *)
Lemma slot_content keys t (j : Z) :
  tableOk keys t → 0 ≤ j < Z.of_nat (length (Values t)) →
  (∃ (i : nat) k, keys !! i = Some k ∧ querySlot t k = Ok j ∧
                  Values t !! Z.to_nat j = Some (Z.of_nat i)) ∨
  ((∀ (i : nat) k, keys !! i = Some k → querySlot t k ≠ Ok j) ∧
   Values t !! Z.to_nat j = Some 0).
Proof.
  destruct t as [values seeds mask]. unfold tableOk. cbn [Values Seeds Mask].
  intros (b & free & Hb & -> & Hnb & Hsm & Hpl) Hj.
  assert (Hp : 1 ≤ 2 ^ b ≤ 2 ^ 31).
  { split; [|apply Z.pow_le_mono_r; lia].
    assert (0 < 2 ^ b) by (apply Z.pow_pos_nonneg; lia). lia. }
  assert (Hmask : 0 ≤ 2 ^ b - 1 < 2 ^ 31) by lia.
  pose proof (placed_values_len _ _ _ _ _ Hpl) as Hvl.
  assert (Hent : ∀ e, e ∈ entriesFrom 0 keys →
            ∃ i : nat, keys !! i = Some (hash e) ∧
                       wrap32 (idx e - 1) = Z.of_nat i).
  { intros e (i & Hi & He)%elem_of_entriesFrom. exists i. split; [done|].
    rewrite He, Z.add_0_l. apply idx_decrement.
    apply lookup_lt_Some in Hi. lia. }
  assert (Hkey : ∀ (i : nat) k, keys !! i = Some k →
            ∃ j', routed (2 ^ b - 1) seeds k j' ∧ 0 ≤ j' ≤ 2 ^ b - 1 ∧
                  (j' ∉ free) ∧
                  values !! Z.to_nat j' = Some (Z.of_nat i)).
  { intros i k Hi.
    destruct (placed_routed _ _ _ _ _ Hpl
                (mkEntry (wrap32 (wrap32 (Z.of_nat i) + 1)) k))
      as (j' & Hr & Hjr & Hjf & Hv).
    { apply elem_of_entriesFrom. exists i. by rewrite Z.add_0_l. }
    exists j'. split_and!; try done; try lia.
    simpl in Hv. rewrite Hv. f_equal. apply idx_decrement.
    apply lookup_lt_Some in Hi. lia. }
  destruct (placed_slots _ _ _ _ _ Hpl j) as [[Hjf Hv]|(e & He & Hr)]; [lia|..].
  - right. split; [|done]. intros i k Hi Hq.
    destruct (Hkey i k Hi) as (j' & Hr & _ & Hjf' & _).
    rewrite (querySlot_routed _ _ _ _ _ Hmask Hr) in Hq.
    by injection Hq as ->.
  - left. destruct (Hent e He) as (i & Hi & Hord).
    exists i, (hash e). split; [done|].
    split; [by apply querySlot_routed|].
    destruct (Hkey i (hash e) Hi) as (j' & Hr' & _ & _ & Hv).
    by rewrite (routed_functional _ _ _ _ _ Hmask Hr Hr').
Qed.

(** [Query] on a table built from at least one key, for any
    fingerprint. *)
Lemma Query_total keys t h :
  tableOk keys t → keys ≠ [] →
  Z.of_nat (length (Values t)) = Mask t + 1 ∧
  Z.of_nat (length (Seeds t)) = Mask t + 1 ∧
  0 ≤ home (Mask t) h < Z.of_nat (length (Seeds t)) ∧
  ∃ s j v,
    Seeds t !! Z.to_nat (home (Mask t) h) = Some s ∧
    j = (if negb (Z.land s singletonBit =? 0) then Z.land s payloadMask
         else slotOf (Mask t) (Z.land s payloadMask) h) ∧
    0 ≤ j < Z.of_nat (length (Values t)) ∧
    querySlot t h = Ok j ∧
    Values t !! Z.to_nat j = Some v ∧
    Query t h = Ok v ∧
    0 ≤ v < Z.of_nat (length keys).
Proof.
  intros Hok Hne. pose proof Hok as (b & free & Hb & Hm & Hnb & Hsm & Hpl).
  assert (Hp : 1 ≤ 2 ^ b ≤ 2 ^ 31).
  { split; [|apply Z.pow_le_mono_r; lia].
    assert (0 < 2 ^ b) by (apply Z.pow_pos_nonneg; lia). lia. }
  pose proof (placed_values_len _ _ _ _ _ Hpl) as Hvl.
  pose proof (placed_seeds_len _ _ _ _ _ Hpl) as Hsl.
  pose proof (land_nonneg_range h (Mask t)) as Hh. fold (home (Mask t) h) in Hh.
  split; [done|]. split; [done|]. split; [lia|].
  destruct (lookup_lt_is_Some_2 (Seeds t) (Z.to_nat (home (Mask t) h)))
    as [s Hs]; [lia|].
  set (j := if negb (Z.land s singletonBit =? 0) then Z.land s payloadMask
            else slotOf (Mask t) (Z.land s payloadMask) h).
  assert (Hj : 0 ≤ j ≤ Mask t ∧ querySlot t h = Ok j).
  { unfold querySlot, j. unfold home in Hs, Hh.
    rewrite wrapInt_small by lia. unfold load.
    rewrite decide_True by lia. rewrite Hs. simpl.
    destruct (placed_seeds _ _ _ _ _ Hpl _ _ Hs) as [Hsr|(dst & Hd & ->)].
    - rewrite land_singletonBit_small, land_payloadMask_small by done.
      simpl. pose proof (land_nonneg_range
                           (xorshiftMult64 (wrap64 (h + s))) (Mask t)) as Hr.
      unfold slotOf. rewrite wrapInt_small by lia. split; [lia|done].
    - destruct (Z.eqb_spec (Z.land (Z.lor singletonBit dst) singletonBit) 0)
        as [Hz|_]; [by apply land_singletonBit_lor in Hz|].
      simpl. rewrite land_payloadMask_lor by lia. split; [lia|done]. }
  destruct Hj as [Hjr Hq].
  destruct (slot_content keys t j Hok) as
    [(i & k & Hi & _ & Hv)|[_ Hv]]; [lia|..].
  - exists s, j, (Z.of_nat i). split_and!; try done; try lia.
    + rewrite Query_querySlot, Hq.
      * simpl. unfold load. rewrite decide_True by lia. by rewrite Hv.
      * intros E. by rewrite E, lookup_nil in Hv.
    + apply lookup_lt_Some in Hi. lia.
  - exists s, j, 0. split_and!; try done; try lia.
    + rewrite Query_querySlot, Hq.
      * simpl. unfold load. rewrite decide_True by lia. by rewrite Hv.
      * intros E. by rewrite E, lookup_nil in Hv.
    + destruct keys; simpl; [done|lia].
Qed.

(** [Query] gives every key of the build set its position. *)
Lemma Query_index keys t (i : nat) k :
  NewUint64 sortSlice rangeOrder keys = Ok t →
  keys !! i = Some k → Query t k = Ok (Z.of_nat i).
Proof.
  intros Hbuild Hi.
  assert (Hne : keys ≠ []) by (intros ->; by rewrite lookup_nil in Hi).
  destruct (built_tableOk keys t Hbuild Hne) as (Hn & Hnd & Hok).
  destruct Hok as (b & free & Hb & Hm & Hnb & Hsm & Hpl).
  assert (Hp : 1 ≤ 2 ^ b ≤ 2 ^ 31).
  { split; [|apply Z.pow_le_mono_r; lia].
    assert (0 < 2 ^ b) by (apply Z.pow_pos_nonneg; lia). lia. }
  destruct (placed_routed _ _ _ _ _ Hpl
              (mkEntry (wrap32 (wrap32 (Z.of_nat i) + 1)) k))
    as (j & Hr & Hjr & _ & Hv).
  { apply elem_of_entriesFrom. exists i. by rewrite Z.add_0_l. }
  simpl in Hr, Hv. rewrite idx_decrement in Hv
    by (apply lookup_lt_Some in Hi; lia).
  destruct t as [values seeds mask]. simpl in *.
  eapply Query_routed; [|  |exact Hr|exact Hv]; lia.
Qed.
End Built.

(** ** More runtimes *)

Lemma reverseInsertionSort_contract : sortSliceContract reverseInsertionSort.
Proof.
  intros A less l. unfold reverseInsertionSort.
  destruct (insertionSort_contract A less (reverse l)) as [Hp Hs].
  split; [|done]. by rewrite Hp, reverse_Permutation.
Qed.

Lemma reversedOrder_contract : rangeOrderContract reversedOrder.
Proof. intros m. apply reverse_Permutation. Qed.

Lemma bucketsOk_prefix mask l1 l2 : bucketsOk mask (l1 ++ l2) → bucketsOk mask l1.
Proof.
  intros (Hnd & Hsame & Hidx). rewrite concat_app in Hnd, Hsame, Hidx.
  split_and!.
  - by apply NoDup_app in Hnd as (? & _ & _).
  - intros b e e' Hb He He'. apply Hsame; [|done|]; apply elem_of_app; by left.
  - intros e He. apply Hidx. apply elem_of_app. by left.
Qed.

(** ** The seed search inside [NewUint64] *)

Section SeedSearch.
Variable sortSlice : ∀ A : Type, (A → A → bool) → list A → list A.
Variable rangeOrder : gmap Z Z → list (Z * Z).
Hypothesis Hsort : sortSliceContract sortSlice.
Hypothesis Hrange : rangeOrderContract rangeOrder.

(** The seed search on a bucket of the sorted list, in the state the
    first loop has reached when it comes to that bucket. *)
Lemma seedLoop_in_build (b0 : Z) hs Pb b rest values seeds :
  0 ≤ b0 ≤ 31 →
  bucketsOk (2 ^ b0 - 1) hs →
  hs = Pb ++ b :: rest →
  solveBuckets rangeOrder Pb (2 ^ b0 - 1)
    (replicate (Z.to_nat (2 ^ b0)) 0) (replicate (Z.to_nat (2 ^ b0)) 0)
    = Ok ([], values, seeds) →
  match seedLoop rangeOrder b (2 ^ b0 - 1) values with
  | Ok (seed, m) =>
      1 ≤ seed < 2 ^ 31 ∧ seedFits (2 ^ b0 - 1) values b seed ∧
      (∀ s, 1 ≤ s < seed → ¬ seedFits (2 ^ b0 - 1) values b s) ∧
      m = placement (2 ^ b0 - 1) seed b ∅
  | Err e =>
      e = ErrNoSeed ∧
      ∀ s, 1 ≤ s < 2 ^ 31 → ¬ seedFits (2 ^ b0 - 1) values b s
  | Panic | Diverge => False
  end.
Proof.
  intros Hb Hok -> Hsolve.
  assert (Hp : 1 ≤ 2 ^ b0 ≤ 2 ^ 31).
  { split; [|apply Z.pow_le_mono_r; lia].
    assert (0 < 2 ^ b0) by (apply Z.pow_pos_nonneg; lia). lia. }
  assert (Hmask : 0 ≤ 2 ^ b0 - 1 < 2 ^ 31) by lia.
  pose proof (solveBuckets_spec rangeOrder Hrange _ Hmask Pb [] _ _
                (bucketsOk_prefix _ _ _ Hok) (solved_init b0 Hb)
                (Forall_nil_2 _)) as Hspec.
  rewrite Hsolve in Hspec.
  destruct Hspec as (Pb' & Heq & Hinv & _). simpl in Heq.
  rewrite app_nil_r in Heq. subst Pb'.
  pose proof (solved_values_len _ _ _ _ Hinv) as Hvl.
  apply (seedLoop_spec rangeOrder Hrange); [lia..|].
  intros e He. destruct Hok as (_ & _ & Hidx). apply Hidx.
  rewrite concat_app. apply elem_of_app. right. simpl.
  apply elem_of_app. by left.
Qed.

Lemma NewUint64_no_seed keys (b0 : Z) hs :
  1 ≤ Z.of_nat (length keys) ≤ 2 ^ 31 → NoDup keys →
  0 ≤ b0 ≤ 31 →
  bucketPhase sortSlice keys = Ok (2 ^ b0, 2 ^ b0 - 1, hs) →
  bucketsOk (2 ^ b0 - 1) hs →
  NewUint64 sortSlice rangeOrder keys = Err ErrNoSeed ↔
  ∃ Pb b rest values seeds,
    hs = Pb ++ b :: rest ∧ (1 < length b)%nat ∧
    solveBuckets rangeOrder Pb (2 ^ b0 - 1)
      (replicate (Z.to_nat (2 ^ b0)) 0) (replicate (Z.to_nat (2 ^ b0)) 0)
      = Ok ([], values, seeds) ∧
    ∀ s, 1 ≤ s < 2 ^ 31 → ¬ seedFits (2 ^ b0 - 1) values b s.
Proof.
  intros Hn Hnd Hb Hbp Hok.
  assert (Hp : 1 ≤ 2 ^ b0 ≤ 2 ^ 31).
  { split; [|apply Z.pow_le_mono_r; lia].
    assert (0 < 2 ^ b0) by (apply Z.pow_pos_nonneg; lia). lia. }
  assert (Hdup : findDuplicate (sortSlice Z Z.ltb keys) = None).
  { pose proof (duplicate_check sortSlice Hsort keys) as Hd.
    destruct (findDuplicate _); [by destruct Hd|done]. }
  assert (Hne : keys ≠ []) by (intros ->; simpl in Hn; lia).
  assert (Hphase : solvePhase sortSlice rangeOrder keys =
    ('(rest, values, seeds) ←
       solveBuckets rangeOrder hs (2 ^ b0 - 1)
         (replicate (Z.to_nat (2 ^ b0)) 0) (replicate (Z.to_nat (2 ^ b0)) 0);
     Ok (2 ^ b0 - 1, rest, values, seeds))).
  { unfold solvePhase. rewrite Hbp. simpl.
    by rewrite (wrapInt_small (2 ^ b0)) by lia. }
  split.
  - intros Hfail.
    pose proof (NewUint64_spec sortSlice rangeOrder Hsort Hrange keys Hn)
      as Hspec.
    rewrite Hfail in Hspec. destruct Hspec as [_ Hsp].
    rewrite Hphase in Hsp.
    destruct (solveBuckets rangeOrder hs _ _ _)
      as [[[rest values] seeds]|e| |] eqn:Hsolve; simpl in Hsp; try done.
    injection Hsp as ->.
    apply solveBuckets_Err in Hsolve
      as (Pb & b & rest & values & seeds & Heq & Hlen & HPb & Hloop).
    exists Pb, b, rest, values, seeds. split_and!; try done.
    pose proof (seedLoop_in_build b0 hs Pb b rest values seeds
                  Hb Hok Heq HPb) as Hin.
    rewrite Hloop in Hin. by destruct Hin.
  - intros (Pb & b & rest & values & seeds & Heq & Hlen & HPb & Hnone).
    rewrite (NewUint64_phases sortSlice rangeOrder keys Hne) by (lia || done).
    rewrite Hphase, Heq, solveBuckets_app, HPb. simpl.
    destruct (Z.ltb_spec 1 (Z.of_nat (length b))); [|lia].
    pose proof (seedLoop_in_build b0 hs Pb b rest values seeds
                  Hb Hok Heq HPb) as Hin.
    destruct (seedLoop rangeOrder b _ values) as [[seed m]|e| |];
      simpl; try done.
    + destruct Hin as (Hseed & Hfit & _). by apply Hnone in Hfit.
    + by destruct Hin as [-> _].
Qed.
End SeedSearch.

(** ** A key set for which no seed exists *)

Lemma top_bit_pair_no_seed :
  NewUint64 insertionSort canonicalOrder [0; 9223372036854775808]
  = Err ErrNoSeed.
Proof.
  set (keys := [0; 9223372036854775808]).
  set (b := [mkEntry 1 0; mkEntry 2 9223372036854775808]).
  assert (Hbp : bucketPhase insertionSort keys = Ok (2 ^ 1, 2 ^ 1 - 1, [b; []]))
    by (by vm_compute).
  assert (Hn : 1 ≤ Z.of_nat (length keys) ≤ 2 ^ 31) by (simpl; lia).
  assert (Hnd : NoDup keys).
  { repeat constructor; [|by intros ?%elem_of_nil].
    by intros ?%list_elem_of_singleton. }
  destruct (bucketPhase_spec insertionSort insertionSort_contract keys Hn Hnd)
    as (b0 & hs & Hb0 & _ & _ & Hbp' & _ & Hok & _).
  assert (b0 = 1 ∧ hs = [b; []]) as [-> ->].
  { rewrite Hbp in Hbp'. injection Hbp' as Hsz _ Hhs. split; [|done].
    apply (Z.pow_inj_r 2); lia. }
  apply (NewUint64_no_seed insertionSort canonicalOrder insertionSort_contract
           canonicalOrder_contract keys 1 [b; []]); try done.
  exists [], b, [[]], (replicate (Z.to_nat (2 ^ 1)) 0),
    (replicate (Z.to_nat (2 ^ 1)) 0).
  split_and!; [done|simpl; lia|done|].
  intros s Hs [Hdistinct _]. unfold b in Hdistinct.
  rewrite !fmap_cons in Hdistinct. cbn [hash] in Hdistinct.
  apply NoDup_cons in Hdistinct as [Hni _]. apply Hni.
  change (2 ^ 1 - 1) with 1. rewrite slotOf_top_bit by lia. by left.
Qed.

(** * The properties of the specification *)

(** ** Bijection on the build set *)

(** C1. Whenever [NewUint64] returns a table for a key sequence, [Query] of
    the key at position [i] returns [i], for every position of the
    sequence. (A returned table implies that the keys are pairwise
    distinct, so that premise is not needed.) *)
Theorem query_returns_build_index
    (sortSlice : ∀ A : Type, (A → A → bool) → list A → list A)
    (rangeOrder : gmap Z Z → list (Z * Z)) (keys : list Z) (t : Table)
    (i : nat) (k : Z) :
  sortSliceContract sortSlice → rangeOrderContract rangeOrder →
  NewUint64 sortSlice rangeOrder keys = Ok t →
  keys !! i = Some k →
  Query t k = Ok (Z.of_nat i).
Proof. intros Hsort Hrange. by apply Query_index. Qed.

Lemma query_returns_build_index_witness :
  NewUint64 insertionSort canonicalOrder [5; 9; 2]
    = Ok (mkTable [1; 2; 0; 0] [0; 1; 2147483649; 0] 3) ∧
  Query (mkTable [1; 2; 0; 0] [0; 1; 2147483649; 0] 3) 9 = Ok 1.
Proof.
  split; [by vm_compute|].
  apply (query_returns_build_index insertionSort canonicalOrder [5; 9; 2]
           (mkTable [1; 2; 0; 0] [0; 1; 2147483649; 0] 3) 1 9
           insertionSort_contract canonicalOrder_contract).
  - by vm_compute.
  - reflexivity.
Defined.

(** C2, as the specification states it, fails: two distinct fingerprints
    that differ in bit 63 only share their home slot in a table of size 2
    and are sent to the same slot by every seed, so the seed search runs
    out and the build is refused. *)
Lemma build_can_fail_on_distinct_keys :
  NoDup [0; 9223372036854775808] ∧
  Forall isU64 [0; 9223372036854775808] ∧
  Z.of_nat (length [0; 9223372036854775808]) ≤ 2 ^ 31 ∧
  NewUint64 insertionSort canonicalOrder [0; 9223372036854775808]
    = Err ErrNoSeed.
Proof.
  split_and!.
  - distinct_literals.
  - repeat constructor; done.
  - simpl. lia.
  - apply top_bit_pair_no_seed.
Qed.

(** C2, amended. For pairwise distinct keys, at most [2^31] of them, the
    build either returns a table on which [Query] gives every key its
    position, or fails with the no-seed error; it reports no other error
    and does not panic. *)
Theorem distinct_keys_build_or_no_seed
    (sortSlice : ∀ A : Type, (A → A → bool) → list A → list A)
    (rangeOrder : gmap Z Z → list (Z * Z)) (keys : list Z) :
  sortSliceContract sortSlice → rangeOrderContract rangeOrder →
  NoDup keys → Z.of_nat (length keys) ≤ 2 ^ 31 →
  (∃ t, NewUint64 sortSlice rangeOrder keys = Ok t ∧
        ∀ (i : nat) k, keys !! i = Some k → Query t k = Ok (Z.of_nat i)) ∨
  NewUint64 sortSlice rangeOrder keys = Err ErrNoSeed.
Proof.
  intros Hsort Hrange Hnd Hn. destruct keys as [|k0 keys].
  { left. exists (mkTable [] [] 0). split; [done|].
    intros i k Hi. by rewrite lookup_nil in Hi. }
  pose proof (NewUint64_spec sortSlice rangeOrder Hsort Hrange (k0 :: keys))
    as Hspec.
  destruct (NewUint64 sortSlice rangeOrder (k0 :: keys)) as [t|[|d|]| |] eqn:E.
  - left. exists t. split; [done|]. intros i k Hi.
    by eapply Query_index.
  - exfalso. apply Hspec. simpl in *. lia.
  - exfalso. destruct Hspec as [Hdup _]; [simpl in *; lia|done].
  - by right.
  - exfalso. apply Hspec. simpl in *. lia.
  - exfalso. apply Hspec. simpl in *. lia.
Qed.

Lemma distinct_keys_build_or_no_seed_witness :
  (∃ t, NewUint64 insertionSort canonicalOrder [5; 9; 2] = Ok t ∧
        ∀ (i : nat) k, [5; 9; 2] !! i = Some k → Query t k = Ok (Z.of_nat i)) ∨
  NewUint64 insertionSort canonicalOrder [5; 9; 2] = Err ErrNoSeed.
Proof.
  apply (distinct_keys_build_or_no_seed insertionSort canonicalOrder [5; 9; 2]
           insertionSort_contract canonicalOrder_contract).
  - distinct_literals.
  - simpl. lia.
Defined.

(** ** Queries stay in bounds *)

(** C3. On a table built from at least one key, [Query] of any fingerprint
    whatsoever reads [Seeds] at the home slot and [Values] at the slot the
    descriptor designates (its payload when the flag bit is set, the
    recomputed displaced slot otherwise); both indices are below the table
    size, and the value returned is an ordinal of the build set. *)
Theorem query_reads_in_bounds
    (sortSlice : ∀ A : Type, (A → A → bool) → list A → list A)
    (rangeOrder : gmap Z Z → list (Z * Z)) (keys : list Z) (t : Table)
    (h : Z) :
  sortSliceContract sortSlice → rangeOrderContract rangeOrder →
  keys ≠ [] →
  NewUint64 sortSlice rangeOrder keys = Ok t →
  Z.of_nat (length (Seeds t)) = Z.of_nat (length (Values t)) ∧
  0 ≤ home (Mask t) h < Z.of_nat (length (Values t)) ∧
  ∃ s j v,
    Seeds t !! Z.to_nat (home (Mask t) h) = Some s ∧
    j = (if negb (Z.land s singletonBit =? 0) then Z.land s payloadMask
         else slotOf (Mask t) (Z.land s payloadMask) h) ∧
    0 ≤ j < Z.of_nat (length (Values t)) ∧
    Values t !! Z.to_nat j = Some v ∧
    Query t h = Ok v ∧
    0 ≤ v < Z.of_nat (length keys).
Proof.
  intros Hsort Hrange Hne Hbuild.
  destruct (built_tableOk sortSlice rangeOrder Hsort Hrange keys t Hbuild Hne)
    as (_ & _ & Hok).
  destruct (Query_total keys t h Hok Hne)
    as (Hvl & Hsl & Hh & s & j & v & Hs & Hj & Hjr & _ & Hv & Hq & Hvr).
  split; [lia|]. split; [lia|]. exists s, j, v.
  split_and!; try done; lia.
Qed.

Lemma query_reads_in_bounds_witness :
  ∃ s j v,
    [0; 1; 2147483649; 0] !! Z.to_nat (home 3 1) = Some s ∧
    j = (if negb (Z.land s singletonBit =? 0) then Z.land s payloadMask
         else slotOf 3 (Z.land s payloadMask) 1) ∧
    0 ≤ j < 4 ∧
    [1; 2; 0; 0] !! Z.to_nat j = Some v ∧
    Query (mkTable [1; 2; 0; 0] [0; 1; 2147483649; 0] 3) 1 = Ok v ∧
    0 ≤ v < 3.
Proof.
  apply (query_reads_in_bounds insertionSort canonicalOrder [5; 9; 2]
           (mkTable [1; 2; 0; 0] [0; 1; 2147483649; 0] 3) 1
           insertionSort_contract canonicalOrder_contract).
  - done.
  - by vm_compute.
Defined.

(** ** Determinism *)

(** C4. Two runs of [NewUint64] on the same key sequence give the same
    outcome, whatever order the two runs iterate the scratch map in; two
    tables so obtained have the same [Values], [Seeds] and [Mask] and
    answer every query alike. ([sort.Slice] is a function of its input:
    the runtime draws no randomness in it.) *)
Theorem build_deterministic
    (sortSlice : ∀ A : Type, (A → A → bool) → list A → list A)
    (rangeOrder1 rangeOrder2 : gmap Z Z → list (Z * Z)) (keys : list Z) :
  rangeOrderContract rangeOrder1 → rangeOrderContract rangeOrder2 →
  NewUint64 sortSlice rangeOrder1 keys = NewUint64 sortSlice rangeOrder2 keys ∧
  ∀ t1 t2,
    NewUint64 sortSlice rangeOrder1 keys = Ok t1 →
    NewUint64 sortSlice rangeOrder2 keys = Ok t2 →
    Values t1 = Values t2 ∧ Seeds t1 = Seeds t2 ∧ Mask t1 = Mask t2 ∧
    ∀ h, Query t1 h = Query t2 h.
Proof.
  intros H1 H2.
  pose proof (NewUint64_order rangeOrder1 rangeOrder2 H1 H2 sortSlice keys)
    as Heq.
  split; [done|]. intros t1 t2 Ht1 Ht2.
  rewrite Heq, Ht2 in Ht1. by injection Ht1 as <-.
Qed.

Lemma build_deterministic_witness :
  NewUint64 insertionSort canonicalOrder [0; 4; 8; 12; 1; 3]
  = NewUint64 insertionSort reversedOrder [0; 4; 8; 12; 1; 3].
Proof.
  apply (build_deterministic insertionSort canonicalOrder reversedOrder
           [0; 4; 8; 12; 1; 3] canonicalOrder_contract reversedOrder_contract).
Defined.

(** ** Duplicate keys *)

(** C5. On a non-empty input of at most [2^31] keys the build fails with
    the duplicate error exactly when two keys are equal. The key reported
    is one of the input, no table comes with the error, and since the scan
    runs on a sorted copy, a successful build still numbers the keys by
    their position in the caller's sequence. *)
Theorem duplicate_keys_rejected
    (sortSlice : ∀ A : Type, (A → A → bool) → list A → list A)
    (rangeOrder : gmap Z Z → list (Z * Z)) (keys : list Z) :
  sortSliceContract sortSlice → rangeOrderContract rangeOrder →
  1 ≤ Z.of_nat (length keys) ≤ 2 ^ 31 →
  ((∃ d, NewUint64 sortSlice rangeOrder keys = Err (ErrDuplicateHash d))
   ↔ ¬ NoDup keys) ∧
  (∀ d, NewUint64 sortSlice rangeOrder keys = Err (ErrDuplicateHash d) →
        d ∈ keys ∧ tableOf (NewUint64 sortSlice rangeOrder keys) = None) ∧
  (∀ t (i : nat) k,
     NewUint64 sortSlice rangeOrder keys = Ok t →
     keys !! i = Some k → Query t k = Ok (Z.of_nat i)).
Proof.
  intros Hsort Hrange Hn.
  pose proof (NewUint64_spec sortSlice rangeOrder Hsort Hrange keys Hn) as Hspec.
  split_and!.
  - split.
    + intros [d Hd]. rewrite Hd in Hspec. by destruct Hspec.
    + intros Hdup.
      destruct (NewUint64 sortSlice rangeOrder keys) as [t|[|d|]| |];
        try done; [by destruct Hspec|by exists d|by destruct Hspec].
  - intros d Hd. rewrite Hd in Hspec |- *. by destruct Hspec.
  - intros t i k Ht Hi. by eapply Query_index.
Qed.

Lemma duplicate_keys_rejected_witness :
  (∃ d, NewUint64 insertionSort canonicalOrder [5; 9; 5]
        = Err (ErrDuplicateHash d)) ↔ ¬ NoDup [5; 9; 5].
Proof.
  apply (duplicate_keys_rejected insertionSort canonicalOrder [5; 9; 5]
           insertionSort_contract canonicalOrder_contract).
  simpl. lia.
Defined.

(** ** The seed search *)

(** C6. Let [hs] be the sorted buckets of a non-empty sequence of distinct
    keys. For every bucket [b] with several keys, in the state [values]
    that the first loop has reached when it comes to [b], the seed search
    returns the least seed of [[1, 2^31)] that sends the members of [b] to
    pairwise distinct slots empty in [values], together with that
    placement; it fails, with the no-seed error, exactly when no seed of
    that range does, and it does nothing else. The build as a whole fails
    with the no-seed error exactly when this happens for some bucket. *)
Theorem seed_search_first_fit
    (sortSlice : ∀ A : Type, (A → A → bool) → list A → list A)
    (rangeOrder : gmap Z Z → list (Z * Z)) (keys : list Z) :
  sortSliceContract sortSlice → rangeOrderContract rangeOrder →
  1 ≤ Z.of_nat (length keys) ≤ 2 ^ 31 → NoDup keys →
  ∃ size mask hs,
    bucketPhase sortSlice keys = Ok (size, mask, hs) ∧
    (∀ Pb b rest values seeds,
       hs = Pb ++ b :: rest → (1 < length b)%nat →
       solveBuckets rangeOrder Pb mask
         (replicate (Z.to_nat size) 0) (replicate (Z.to_nat size) 0)
         = Ok ([], values, seeds) →
       match seedLoop rangeOrder b mask values with
       | Ok (seed, m) =>
           1 ≤ seed < 2 ^ 31 ∧ seedFits mask values b seed ∧
           (∀ s, 1 ≤ s < seed → ¬ seedFits mask values b s) ∧
           m = placement mask seed b ∅
       | Err e =>
           e = ErrNoSeed ∧ ∀ s, 1 ≤ s < 2 ^ 31 → ¬ seedFits mask values b s
       | Panic | Diverge => False
       end) ∧
    (NewUint64 sortSlice rangeOrder keys = Err ErrNoSeed ↔
     ∃ Pb b rest values seeds,
       hs = Pb ++ b :: rest ∧ (1 < length b)%nat ∧
       solveBuckets rangeOrder Pb mask
         (replicate (Z.to_nat size) 0) (replicate (Z.to_nat size) 0)
         = Ok ([], values, seeds) ∧
       ∀ s, 1 ≤ s < 2 ^ 31 → ¬ seedFits mask values b s).
Proof.
  intros Hsort Hrange Hn Hnd.
  destruct (bucketPhase_spec sortSlice Hsort keys Hn Hnd)
    as (b0 & hs & Hb0 & _ & _ & Hbp & _ & Hok & _).
  exists (2 ^ b0), (2 ^ b0 - 1), hs. split_and!; [done| |].
  - intros Pb b rest values seeds Heq _ HPb.
    by eapply (seedLoop_in_build rangeOrder Hrange).
  - by apply NewUint64_no_seed.
Qed.

Lemma seed_search_first_fit_witness :
  ∃ size mask hs,
    bucketPhase insertionSort [5; 9; 2] = Ok (size, mask, hs) ∧
    (NewUint64 insertionSort canonicalOrder [5; 9; 2] = Err ErrNoSeed ↔
     ∃ Pb b rest values seeds,
       hs = Pb ++ b :: rest ∧ (1 < length b)%nat ∧
       solveBuckets canonicalOrder Pb mask
         (replicate (Z.to_nat size) 0) (replicate (Z.to_nat size) 0)
         = Ok ([], values, seeds) ∧
       ∀ s, 1 ≤ s < 2 ^ 31 → ¬ seedFits mask values b s).
Proof.
  destruct (seed_search_first_fit insertionSort canonicalOrder [5; 9; 2]
              insertionSort_contract canonicalOrder_contract)
    as (size & mask & hs & Hbp & _ & Hiff).
  - simpl. lia.
  - distinct_literals.
  - exists size, mask, hs. split; [exact Hbp|exact Hiff].
Defined.

(** ** The empty table *)

(** C7. The build of the empty sequence returns the table with empty
    arrays. A query returns -1 exactly on a table built from no key: on
    the empty table it does so for every fingerprint, before any read of an
    array (a read would panic, both arrays being empty), and on a table
    built from one key or more it never does. *)
Theorem empty_table_sentinel
    (sortSlice : ∀ A : Type, (A → A → bool) → list A → list A)
    (rangeOrder : gmap Z Z → list (Z * Z)) :
  sortSliceContract sortSlice → rangeOrderContract rangeOrder →
  NewUint64 sortSlice rangeOrder [] = Ok (mkTable [] [] 0) ∧
  (∀ h, Query (mkTable [] [] 0) h = Ok (-1) ∧
        querySlot (mkTable [] [] 0) h = Panic) ∧
  (∀ keys t h,
     NewUint64 sortSlice rangeOrder keys = Ok t →
     (Query t h = Ok (-1) ↔ keys = [])) ∧
  (∀ keys t,
     NewUint64 sortSlice rangeOrder keys = Ok t →
     (length (Values t) = 0%nat ↔ keys = [])).
Proof.
  intros Hsort Hrange. split_and!.
  - done.
  - intros h. split; [done|]. unfold querySlot, load. simpl.
    by destruct (decide _).
  - intros keys t h Hbuild. split.
    + intros Hq. destruct keys as [|k0 keys]; [done|]. exfalso.
      destruct (built_tableOk sortSlice rangeOrder Hsort Hrange _ t Hbuild)
        as (_ & _ & Hok); [done|].
      destruct (Query_total (k0 :: keys) t h Hok)
        as (_ & _ & _ & s & j & v & _ & _ & _ & _ & _ & Hv & Hvr); [done|].
      rewrite Hq in Hv. injection Hv as <-. lia.
    + intros ->. by injection Hbuild as <-.
  - intros keys t Hbuild. split.
    + intros Hl. destruct keys as [|k0 keys]; [done|]. exfalso.
      destruct (built_tableOk sortSlice rangeOrder Hsort Hrange _ t Hbuild)
        as (_ & _ & Hok); [done|].
      destruct (Query_total (k0 :: keys) t 0 Hok) as (Hvl & _ & Hh & _); [done|].
      destruct Hok as (b & _ & Hb & Hm & _).
      assert (0 < 2 ^ b) by (apply Z.pow_pos_nonneg; lia). lia.
    + intros ->. by injection Hbuild as <-.
Qed.

Lemma empty_table_sentinel_witness :
  NewUint64 insertionSort canonicalOrder [] = Ok (mkTable [] [] 0) ∧
  (∀ h, Query (mkTable [] [] 0) h = Ok (-1) ∧
        querySlot (mkTable [] [] 0) h = Panic).
Proof.
  destruct (empty_table_sentinel insertionSort canonicalOrder
              insertionSort_contract canonicalOrder_contract)
    as (Hnil & Hq & _).
  by split.
Defined.

(** ** The order of the buckets *)

Lemma StronglySorted_weaken {A : Type} (R1 R2 : A → A → Prop) (l : list A) :
  (∀ x y, R1 x y → R2 x y) → StronglySorted R1 l → StronglySorted R2 l.
Proof.
  intros HR. induction 1 as [|x l _ IH Hx]; constructor; [done|].
  eapply Forall_impl; [exact Hx|]. apply HR.
Qed.

(** C8, as the specification states it, fails: the comparison handed to
    [sort.Slice] looks at the sizes only, so two buckets of the same size
    are not ordered by it, and two sorts that both meet the contract of
    [sort.Slice] process them in different orders and build different
    tables from the same keys. *)
Lemma no_tie_break_between_equal_buckets :
  sortSliceContract insertionSort ∧
  sortSliceContract reverseInsertionSort ∧
  bySizeDesc [mkEntry 1 0; mkEntry 3 8] [mkEntry 2 4; mkEntry 4 12] = false ∧
  bySizeDesc [mkEntry 2 4; mkEntry 4 12] [mkEntry 1 0; mkEntry 3 8] = false ∧
  bucketPhase insertionSort [0; 4; 8; 12; 1; 3]
    = Ok (8, 7, [[mkEntry 1 0; mkEntry 3 8]; [mkEntry 2 4; mkEntry 4 12];
                 [mkEntry 5 1]; [mkEntry 6 3]; []; []; []; []]) ∧
  bucketPhase reverseInsertionSort [0; 4; 8; 12; 1; 3]
    = Ok (8, 7, [[mkEntry 2 4; mkEntry 4 12]; [mkEntry 1 0; mkEntry 3 8];
                 [mkEntry 6 3]; [mkEntry 5 1]; []; []; []; []]) ∧
  NewUint64 insertionSort canonicalOrder [0; 4; 8; 12; 1; 3]
    = Ok (mkTable [4; 5; 0; 0; 1; 0; 3; 2]
            [1; 2147483648; 0; 2147483649; 1; 0; 0; 0] 7) ∧
  NewUint64 reverseInsertionSort canonicalOrder [0; 4; 8; 12; 1; 3]
    = Ok (mkTable [5; 4; 0; 0; 1; 0; 3; 2]
            [1; 2147483649; 0; 2147483648; 1; 0; 0; 0] 7).
Proof.
  split_and!;
    [apply insertionSort_contract|apply reverseInsertionSort_contract
    |by vm_compute..].
Qed.

(** C8, amended. The first loop handles exactly the buckets with two keys
    or more, which come first in the sorted list and in order of
    non-increasing size; it leaves the buckets with at most one key. The
    order among buckets of the same size is whatever [sort.Slice] leaves:
    the comparison has no secondary key. *)
Theorem multi_key_buckets_by_decreasing_size
    (sortSlice : ∀ A : Type, (A → A → bool) → list A → list A)
    (rangeOrder : gmap Z Z → list (Z * Z)) (keys : list Z) :
  sortSliceContract sortSlice → rangeOrderContract rangeOrder →
  1 ≤ Z.of_nat (length keys) ≤ 2 ^ 31 → NoDup keys →
  ∃ size mask hs,
    bucketPhase sortSlice keys = Ok (size, mask, hs) ∧
    bucketsOk mask hs ∧
    StronglySorted (λ x y, (length y ≤ length x)%nat) hs ∧
    ∀ rest values seeds,
      solveBuckets rangeOrder hs mask
        (replicate (Z.to_nat size) 0) (replicate (Z.to_nat size) 0)
        = Ok (rest, values, seeds) →
      ∃ Pb, hs = Pb ++ rest ∧
            Forall (λ b, (2 ≤ length b)%nat) Pb ∧
            Forall (λ b, (length b ≤ 1)%nat) rest ∧
            solved mask (concat Pb) values seeds.
Proof.
  intros Hsort Hrange Hn Hnd.
  destruct (solvePhase_spec sortSlice rangeOrder Hsort Hrange keys Hn Hnd)
    as (b0 & hs & Hb0 & _ & _ & Hbp & Hok & _ & Hss & Hsolve).
  exists (2 ^ b0), (2 ^ b0 - 1), hs. split_and!; [done|done| |].
  - eapply StronglySorted_weaken; [|exact Hss]. simpl.
    intros x y Hxy. unfold bySizeDesc in Hxy. apply Z.ltb_ge in Hxy. lia.
  - intros rest values seeds Hs.
    assert (Hp : 1 ≤ 2 ^ b0 ≤ 2 ^ 31).
    { split; [|apply Z.pow_le_mono_r; lia].
      assert (0 < 2 ^ b0) by (apply Z.pow_pos_nonneg; lia). lia. }
    unfold solvePhase in Hsolve. rewrite Hbp in Hsolve. simpl in Hsolve.
    rewrite (wrapInt_small (2 ^ b0)), Hs in Hsolve by lia. simpl in Hsolve.
    destruct Hsolve as (_ & Pb & Heq & Hinv & Hmulti & Hrest).
    exists Pb. by split_and!.
Qed.

Lemma multi_key_buckets_by_decreasing_size_witness :
  ∃ size mask hs,
    bucketPhase insertionSort [0; 4; 8; 12; 1; 3] = Ok (size, mask, hs) ∧
    bucketsOk mask hs ∧
    StronglySorted (λ x y, (length y ≤ length x)%nat) hs.
Proof.
  destruct (multi_key_buckets_by_decreasing_size insertionSort canonicalOrder
              [0; 4; 8; 12; 1; 3] insertionSort_contract
              canonicalOrder_contract)
    as (size & mask & hs & Hbp & Hok & Hss & _).
  - simpl. lia.
  - distinct_literals.
  - exists size, mask, hs. split; [exact Hbp|]. split; [exact Hok|exact Hss].
Defined.

(** ** The singleton allocation *)

(** C9. In the state the first loop leaves, the free list holds the empty
    slots of [values] in increasing order, every bucket still to handle
    has at most one key, and there are at least as many free slots as keys
    left; the second loop therefore never reads an empty free list: it ends
    normally, and its arrays are those of the table returned. *)
Theorem singleton_allocation_never_fails
    (sortSlice : ∀ A : Type, (A → A → bool) → list A → list A)
    (rangeOrder : gmap Z Z → list (Z * Z)) (keys : list Z)
    (mask : Z) (rest : list (list entry)) (values seeds : list Z) :
  sortSliceContract sortSlice → rangeOrderContract rangeOrder →
  1 ≤ Z.of_nat (length keys) ≤ 2 ^ 31 → NoDup keys →
  solvePhase sortSlice rangeOrder keys = Ok (mask, rest, values, seeds) →
  ∃ free out values' seeds',
    collectFree 0 values = (free, out) ∧
    StronglySorted Z.lt free ∧
    (∀ j, j ∈ free ↔ ∃ k : nat, j = Z.of_nat k ∧ values !! k = Some 0) ∧
    Forall (λ b, (length b ≤ 1)%nat) rest ∧
    (length (concat rest) ≤ length free)%nat ∧
    placeSingletons rest mask free out seeds = Ok (values', seeds') ∧
    NewUint64 sortSlice rangeOrder keys = Ok (mkTable values' seeds' mask).
Proof.
  intros Hsort Hrange Hn Hnd Hsolve.
  destruct (solvePhase_spec sortSlice rangeOrder Hsort Hrange keys Hn Hnd)
    as (b0 & hs & Hb0 & Hnb & Hsm & Hbp & Hok & Hperm & Hss & Hspec).
  rewrite Hsolve in Hspec.
  destruct Hspec as (-> & Pb & Heq & Hinv & _ & Hrest).
  destruct (placePhase_spec keys b0 hs Pb rest values seeds)
    as (free & out & t & Hcf & Hfs & Hroom & Hpp & _); try done.
  destruct (collectFree_spec 0 values free out Hcf) as (_ & _ & Hfree & _).
  unfold placePhase in Hpp. rewrite Hcf in Hpp.
  destruct (placeSingletons rest (2 ^ b0 - 1) free out seeds)
    as [[values' seeds']| | |] eqn:Hps; simpl in Hpp; try done.
  exists free, out, values', seeds'. split_and!; try done.
  assert (Hdup : findDuplicate (sortSlice Z Z.ltb keys) = None).
  { pose proof (duplicate_check sortSlice Hsort keys) as Hd.
    destruct (findDuplicate _); [by destruct Hd|done]. }
  rewrite (NewUint64_phases sortSlice rangeOrder keys);
    [|intros ->; simpl in Hn; lia|lia|done].
  rewrite Hsolve. simpl. unfold placePhase. rewrite Hcf, Hps. done.
Qed.

Lemma singleton_allocation_never_fails_witness :
  ∃ free out values' seeds',
    collectFree 0 [0; 0; 0; 0; 2; 1; 4; 3] = (free, out) ∧
    StronglySorted Z.lt free ∧
    (length (concat [[mkEntry 5 1]; [mkEntry 6 3]; []; []; []; []])
       ≤ length free)%nat ∧
    placeSingletons [[mkEntry 5 1]; [mkEntry 6 3]; []; []; []; []] 7 free out
      [1; 0; 0; 0; 1; 0; 0; 0] = Ok (values', seeds').
Proof.
  destruct (singleton_allocation_never_fails insertionSort canonicalOrder
              [0; 4; 8; 12; 1; 3] 7
              [[mkEntry 5 1]; [mkEntry 6 3]; []; []; []; []]
              [0; 0; 0; 0; 2; 1; 4; 3] [1; 0; 0; 0; 1; 0; 0; 0]
              insertionSort_contract canonicalOrder_contract)
    as (free & out & values' & seeds' & Hcf & Hs & _ & _ & Hroom & Hps & _).
  - simpl. lia.
  - distinct_literals.
  - by vm_compute.
  - exists free, out, values', seeds'.
    split; [exact Hcf|]. split; [exact Hs|]. split; [exact Hroom|exact Hps].
Defined.

(** ** Unused slots *)

(** C10. In a table built from at least one key, a slot of [Values] that
    [Query] reaches for no key of the build set holds 0, and 0 is also what
    [Query] returns for the first key. A fingerprint outside the build set
    can be sent to such a slot, as fingerprint 1 is by the table built from
    5, 9, 2: the answer 0 it gets there is the answer of key 5. *)
Theorem unused_slots_hold_zero
    (sortSlice : ∀ A : Type, (A → A → bool) → list A → list A)
    (rangeOrder : gmap Z Z → list (Z * Z)) :
  sortSliceContract sortSlice → rangeOrderContract rangeOrder →
  (∀ keys t j,
     keys ≠ [] → NewUint64 sortSlice rangeOrder keys = Ok t →
     0 ≤ j < Z.of_nat (length (Values t)) →
     (∀ (i : nat) k, keys !! i = Some k → querySlot t k ≠ Ok j) →
     Values t !! Z.to_nat j = Some 0) ∧
  (∀ keys t k0,
     NewUint64 sortSlice rangeOrder keys = Ok t → keys !! 0%nat = Some k0 →
     Query t k0 = Ok 0) ∧
  (∃ keys t h j,
     NewUint64 insertionSort canonicalOrder keys = Ok t ∧
     (h ∉ keys) ∧
     querySlot t h = Ok j ∧
     (∀ (i : nat) k, keys !! i = Some k → querySlot t k ≠ Ok j) ∧
     Query t h = Ok 0 ∧
     ∃ k0, keys !! 0%nat = Some k0 ∧ Query t k0 = Ok 0).
Proof.
  intros Hsort Hrange. split_and!.
  - intros keys t j Hne Hbuild Hj Hunused.
    destruct (built_tableOk sortSlice rangeOrder Hsort Hrange keys t Hbuild Hne)
      as (_ & _ & Hok).
    destruct (slot_content keys t j Hok Hj)
      as [(i & k & Hi & Hq & _)|[_ Hv]]; [|done].
    exfalso. by apply (Hunused i k Hi).
  - intros keys t k0 Hbuild Hk0.
    by apply (Query_index sortSlice rangeOrder Hsort Hrange keys t 0 k0).
  - exists [5; 9; 2], (mkTable [1; 2; 0; 0] [0; 1; 2147483649; 0] 3), 1, 2.
    split_and!.
    + by vm_compute.
    + rewrite !elem_of_cons, elem_of_nil. lia.
    + by vm_compute.
    + intros [|[|[|i]]] k Hi; simpl in Hi; try done;
        injection Hi as <-; by vm_compute.
    + by vm_compute.
    + exists 5. split; [done|by vm_compute].
Qed.

Lemma unused_slots_hold_zero_witness :
  [1; 2; 0; 0] !! Z.to_nat 2 = Some 0.
Proof.
  destruct (unused_slots_hold_zero insertionSort canonicalOrder
              insertionSort_contract canonicalOrder_contract)
    as (Hzero & _ & _).
  apply (Hzero [5; 9; 2] (mkTable [1; 2; 0; 0] [0; 1; 2147483649; 0] 3) 2).
  - done.
  - by vm_compute.
  - simpl. lia.
  - intros [|[|[|i]]] k Hi; simpl in Hi; try done;
      injection Hi as <-; by vm_compute.
Defined.

(** * Further properties of the code *)

(** ** [nextPower2] *)

Lemma nextPower2_loop_stop (fuel : nat) (i n : Z) :
  n ≤ i → nextPower2_loop fuel i n = Ok i.
Proof.
  intros Hn. destruct fuel; simpl; by destruct (Z.ltb_spec i n); [lia|].
Qed.

(** X1. For [n] up to [2^62], [nextPower2] returns a power of two that is
    at least [n], and no smaller power of two is; for [n] below 1 that is
    [2^0]. *)
Theorem nextPower2_smallest_power (n : Z) :
  n ≤ 2 ^ 62 →
  ∃ b, 0 ≤ b ≤ 62 ∧ nextPower2 n = Ok (2 ^ b) ∧ n ≤ 2 ^ b ∧
       ∀ c, 0 ≤ c → n ≤ 2 ^ c → b ≤ c.
Proof.
  intros Hn. destruct (Z.le_gt_cases 1 n) as [H1|H1].
  - destruct (nextPower2_loop_spec 64 0 n) as (b & Hb & Heq & Hnb & Hsm);
      try lia.
    exists b. split; [lia|]. split; [exact Heq|]. split; [exact Hnb|].
    intros c Hc Hnc. destruct Hsm as [->|Hsm]; [done|].
    destruct (Z.le_gt_cases b c) as [|Hlt]; [done|].
    assert (2 ^ c ≤ 2 ^ (b - 1)) by (apply Z.pow_le_mono_r; lia). lia.
  - exists 0. split_and!; try lia.
    unfold nextPower2. by rewrite nextPower2_loop_stop by lia.
Qed.

Lemma nextPower2_smallest_power_witness :
  ∃ b, 0 ≤ b ≤ 62 ∧ nextPower2 5 = Ok (2 ^ b) ∧ 5 ≤ 2 ^ b ∧
       ∀ c, 0 ≤ c → 5 ≤ 2 ^ c → b ≤ c.
Proof. apply (nextPower2_smallest_power 5). lia. Defined.

Lemma nextPower2_loop_zero (fuel : nat) (n : Z) :
  0 < n → nextPower2_loop fuel 0 n = Diverge.
Proof.
  intros Hn. induction fuel as [|fuel IH]; simpl.
  - by destruct (Z.ltb_spec 0 n); [|lia].
  - destruct (Z.ltb_spec 0 n); [|lia]. exact IH.
Qed.

Lemma nextPower2_loop_overflow (fuel : nat) (j n : Z) :
  0 ≤ j ≤ 62 → 2 ^ 62 < n → nextPower2_loop fuel (2 ^ j) n = Diverge.
Proof.
  revert j. induction fuel as [|fuel IH]; intros j Hj Hn;
    assert (2 ^ j ≤ 2 ^ 62) by (apply Z.pow_le_mono_r; lia); simpl;
    (destruct (Z.ltb_spec (2 ^ j) n); [|lia]); [done|].
  rewrite Z.shiftl_mul_pow2 by lia.
  replace (2 ^ j * 2 ^ 1) with (2 ^ (j + 1)) by (rewrite Z.pow_add_r; lia).
  destruct (decide (j = 62)) as [->|Hne].
  - change (wrapInt (2 ^ (62 + 1))) with (- 2 ^ 63).
    destruct fuel as [|fuel]; simpl.
    + by destruct (Z.ltb_spec (- 2 ^ 63) n); [|lia].
    + destruct (Z.ltb_spec (- 2 ^ 63) n); [|lia].
      change (wrapInt (Z.shiftl (- 2 ^ 63) 1)) with 0.
      apply nextPower2_loop_zero. lia.
  - assert (2 ^ (j + 1) ≤ 2 ^ 62) by (apply Z.pow_le_mono_r; lia).
    assert (0 < 2 ^ (j + 1)) by (apply Z.pow_pos_nonneg; lia).
    rewrite wrapInt_small by lia. apply IH; lia.
Qed.

(** X2. For [n] above [2^62] the loop of [nextPower2] never ends: [i]
    overflows to [-2^63], then to 0, and stays below [n] for good, however
    many rounds are followed. *)
Theorem nextPower2_overflow_diverges (n : Z) (fuel : nat) :
  2 ^ 62 < n →
  nextPower2_loop fuel 1 n = Diverge ∧ nextPower2 n = Diverge.
Proof.
  intros Hn. split; [|unfold nextPower2];
    apply (nextPower2_loop_overflow _ 0 n); lia.
Qed.

Lemma nextPower2_overflow_diverges_witness :
  nextPower2_loop 1000 1 (2 ^ 62 + 1) = Diverge ∧
  nextPower2 (2 ^ 62 + 1) = Diverge.
Proof. apply (nextPower2_overflow_diverges (2 ^ 62 + 1) 1000). lia. Defined.

(** ** [xorshiftMult64] is one-to-one *)

Lemma testbit_high x n : 0 ≤ x < 2 ^ 64 → 64 ≤ n → Z.testbit x n = false.
Proof.
  intros Hx Hn. destruct (decide (x = 0)) as [->|]; [apply Z.bits_0|].
  apply Z.bits_above_log2; [lia|].
  assert (Z.log2 x < 64) by (apply Z.log2_lt_pow2; lia). lia.
Qed.

Lemma lxor_range a b :
  0 ≤ a < 2 ^ 64 → 0 ≤ b < 2 ^ 64 → 0 ≤ Z.lxor a b < 2 ^ 64.
Proof.
  intros Ha Hb.
  assert (H0 : 0 ≤ Z.lxor a b) by (apply Z.lxor_nonneg; lia).
  split; [done|].
  replace (Z.lxor a b) with (Z.lxor a b mod 2 ^ 64);
    [apply Z.mod_pos_bound; lia|].
  apply Z.bits_inj'. intros n Hn.
  destruct (Z.lt_ge_cases n 64).
  - by rewrite Z.mod_pow2_bits_low by lia.
  - rewrite Z.mod_pow2_bits_high by lia.
    by rewrite Z.lxor_spec, !testbit_high by lia.
Qed.

Lemma xorb_cancel_r (a b c : bool) : xorb a c = xorb b c → a = b.
Proof. by destruct a, b, c. Qed.

(** [x ^= x >> k] can be undone from the top bit down. *)
Lemma xor_shiftr_inj k x y :
  0 < k → 0 ≤ x < 2 ^ 64 → 0 ≤ y < 2 ^ 64 →
  Z.lxor x (Z.shiftr x k) = Z.lxor y (Z.shiftr y k) → x = y.
Proof.
  intros Hk Hx Hy Heq.
  assert (Hbits : ∀ (m : nat) n, 64 - Z.of_nat m ≤ n →
                    Z.testbit x n = Z.testbit y n).
  { induction m as [|m IH]; intros n Hn.
    - by rewrite !testbit_high by lia.
    - destruct (Z.lt_ge_cases n 0) as [Hneg|Hpos];
        [by rewrite !Z.testbit_neg_r by lia|].
      apply (f_equal (λ z, Z.testbit z n)) in Heq.
      rewrite !Z.lxor_spec, !Z.shiftr_spec in Heq by lia.
      rewrite (IH (n + k)) in Heq by lia.
      by apply xorb_cancel_r in Heq. }
  apply Z.bits_inj'. intros n Hn. apply (Hbits 64%nat). lia.
Qed.

(** [x ^= x << k] (in 64 bits) can be undone from bit 0 up. *)
Lemma xor_shiftl_inj k x y :
  0 < k → 0 ≤ x < 2 ^ 64 → 0 ≤ y < 2 ^ 64 →
  Z.lxor x (wrap64 (Z.shiftl x k)) = Z.lxor y (wrap64 (Z.shiftl y k)) →
  x = y.
Proof.
  intros Hk Hx Hy Heq. unfold wrap64 in Heq.
  assert (Hbits : ∀ (m : nat) n, n < Z.of_nat m →
                    Z.testbit x n = Z.testbit y n).
  { induction m as [|m IH]; intros n Hn.
    - by rewrite !Z.testbit_neg_r by lia.
    - destruct (Z.lt_ge_cases n 0) as [Hneg|Hpos];
        [by rewrite !Z.testbit_neg_r by lia|].
      destruct (Z.lt_ge_cases n 64) as [Hlow|Hhigh];
        [|by rewrite !testbit_high by lia].
      apply (f_equal (λ z, Z.testbit z n)) in Heq.
      rewrite !Z.lxor_spec, !Z.mod_pow2_bits_low, !Z.shiftl_spec in Heq by lia.
      rewrite (IH (n - k)) in Heq by lia.
      by apply xorb_cancel_r in Heq. }
  apply Z.bits_inj'. intros n Hn. apply (Hbits (S (Z.to_nat n))). lia.
Qed.

(** The multiplier is odd, hence invertible modulo [2^64]. *)
Lemma mul_odd_inj x y :
  0 ≤ x < 2 ^ 64 → 0 ≤ y < 2 ^ 64 →
  wrap64 (x * 2685821657736338717) = wrap64 (y * 2685821657736338717) →
  x = y.
Proof.
  intros Hx Hy Heq. unfold wrap64 in Heq.
  assert (Hinv : ∀ z, 0 ≤ z < 2 ^ 64 →
            ((z * 2685821657736338717) mod 2 ^ 64 * 6415128727920758069)
              mod 2 ^ 64 = z).
  { intros z Hz. rewrite Z.mul_mod_idemp_l by lia.
    rewrite <- Z.mul_assoc.
    rewrite <- Z.mul_mod_idemp_r by lia.
    replace ((2685821657736338717 * 6415128727920758069) mod 2 ^ 64) with 1
      by reflexivity.
    rewrite Z.mul_1_r. apply Z.mod_small. lia. }
  rewrite <- (Hinv x Hx), <- (Hinv y Hy). by rewrite Heq.
Qed.

(** X8. [xorshiftMult64] maps 64-bit words to 64-bit words and never sends
    two different words to the same one. *)
Theorem xorshiftMult64_injective (x y : Z) :
  0 ≤ x < 2 ^ 64 → 0 ≤ y < 2 ^ 64 →
  0 ≤ xorshiftMult64 x < 2 ^ 64 ∧
  (xorshiftMult64 x = xorshiftMult64 y → x = y).
Proof.
  intros Hx Hy. split; [apply wrap64_range|].
  unfold xorshiftMult64. intros Heq.
  assert (Hr : ∀ z k, 0 ≤ k → 0 ≤ z < 2 ^ 64 → 0 ≤ Z.shiftr z k < 2 ^ 64).
  { intros z k Hk Hz. rewrite Z.shiftr_div_pow2 by lia.
    assert (0 < 2 ^ k) by (apply Z.pow_pos_nonneg; lia).
    split; [apply Z.div_pos; lia|].
    apply Z.le_lt_trans with z; [|lia]. apply Z.div_le_upper_bound; nia. }
  set (x1 := Z.lxor x (Z.shiftr x 12)) in *.
  set (y1 := Z.lxor y (Z.shiftr y 12)) in *.
  assert (Hx1 : 0 ≤ x1 < 2 ^ 64) by (apply lxor_range; [done|apply Hr; lia]).
  assert (Hy1 : 0 ≤ y1 < 2 ^ 64) by (apply lxor_range; [done|apply Hr; lia]).
  set (x2 := Z.lxor x1 (wrap64 (Z.shiftl x1 25))) in *.
  set (y2 := Z.lxor y1 (wrap64 (Z.shiftl y1 25))) in *.
  assert (Hx2 : 0 ≤ x2 < 2 ^ 64)
    by (apply lxor_range; [done|apply wrap64_range]).
  assert (Hy2 : 0 ≤ y2 < 2 ^ 64)
    by (apply lxor_range; [done|apply wrap64_range]).
  set (x3 := Z.lxor x2 (Z.shiftr x2 27)) in *.
  set (y3 := Z.lxor y2 (Z.shiftr y2 27)) in *.
  assert (Hx3 : 0 ≤ x3 < 2 ^ 64) by (apply lxor_range; [done|apply Hr; lia]).
  assert (Hy3 : 0 ≤ y3 < 2 ^ 64) by (apply lxor_range; [done|apply Hr; lia]).
  apply mul_odd_inj in Heq; [|done..].
  apply xor_shiftr_inj in Heq; [|lia|done..].
  apply xor_shiftl_inj in Heq; [|lia|done..].
  apply xor_shiftr_inj in Heq; [done|lia|done..].
Qed.

Lemma xorshiftMult64_injective_witness :
  0 ≤ xorshiftMult64 12345 < 2 ^ 64 ∧
  (xorshiftMult64 12345 = xorshiftMult64 54321 → 12345 = 54321).
Proof. apply (xorshiftMult64_injective 12345 54321); lia. Defined.

(** ** The bucketing loop, exactly *)

Lemma bucketize_exact keys i0 mask (h0 : list (list entry)) :
  0 ≤ mask < Z.of_nat (length h0) →
  Z.of_nat (length h0) ≤ 2 ^ 63 →
  ∃ h, bucketize i0 keys mask h0 = Ok h ∧
       length h = length h0 ∧
       ∀ (j : nat) b0, h0 !! j = Some b0 →
         h !! j = Some (b0 ++ filter (λ e, home mask (hash e) = Z.of_nat j)
                                     (entriesFrom i0 keys)).
Proof.
  revert i0 h0. induction keys as [|k keys IH]; intros i0 h0 Hmask Hlen; simpl.
  - exists h0. split_and!; [done..|]. intros j b0 Hj.
    by rewrite filter_nil, app_nil_r.
  - pose proof (land_nonneg_range k mask ltac:(lia)) as Hk.
    rewrite wrapInt_small by lia.
    destruct (load_in_range h0 (Z.land k mask) ltac:(lia)) as (b & Hb & ->).
    simpl. rewrite store_in_range by lia. simpl.
    set (e0 := mkEntry (wrap32 (wrap32 i0 + 1)) k).
    destruct (IH (i0 + 1) (<[Z.to_nat (Z.land k mask) := b ++ [e0]]> h0))
      as (h & -> & Hl & Hh); rewrite ?length_insert; [done..|].
    exists h. rewrite length_insert in Hl. split_and!; [done..|].
    intros j b0 Hj. rewrite filter_cons.
    destruct (decide (j = Z.to_nat (Z.land k mask))) as [->|Hne].
    + rewrite Hb in Hj. injection Hj as <-.
      rewrite decide_True by (unfold home; simpl; lia).
      rewrite (Hh _ (b ++ [e0])) by (apply list_lookup_insert_eq; lia).
      by rewrite <- app_assoc.
    + rewrite decide_False by (unfold home; simpl; lia).
      apply Hh. by rewrite list_lookup_insert_ne.
Qed.

(** X9. The bucketing loop on [size] empty buckets, [mask < size], puts in
    bucket [j] exactly the keys whose masked fingerprint is [j], in input
    order, each with its 1-based position. *)
Theorem bucketize_partition (keys : list Z) (mask : Z) (size : nat) :
  0 ≤ mask < Z.of_nat size → Z.of_nat size ≤ 2 ^ 63 →
  ∃ h, bucketize 0 keys mask (replicate size []) = Ok h ∧
       length h = size ∧
       ∀ j : nat, (j < size)%nat →
         h !! j = Some (filter (λ e, home mask (hash e) = Z.of_nat j)
                               (entriesFrom 0 keys)).
Proof.
  intros Hmask Hsize.
  destruct (bucketize_exact keys 0 mask (replicate size []))
    as (h & Hb & Hl & Hh); rewrite ?length_replicate; [done..|].
  exists h. rewrite length_replicate in Hl. split_and!; [done..|].
  intros j Hj. rewrite (Hh j []); [done|]. by apply lookup_replicate_2.
Qed.

Lemma bucketize_partition_witness :
  ∃ h, bucketize 0 [5; 9; 2] 3 (replicate 4 []) = Ok h ∧
       length h = 4%nat ∧
       ∀ j : nat, (j < 4)%nat →
         h !! j = Some (filter (λ e, home 3 (hash e) = Z.of_nat j)
                               (entriesFrom 0 [5; 9; 2])).
Proof. apply (bucketize_partition [5; 9; 2] 3 4); lia. Defined.

(** ** Which duplicate is reported *)

Lemma filter_eq_absent (x : Z) (l : list Z) :
  x ∉ l → filter (λ y, y = x) l = [].
Proof.
  induction l as [|y l IH]; intros Hx; [done|].
  apply not_elem_of_cons in Hx as [Hne Hx].
  rewrite filter_cons, decide_False by done. by apply IH.
Qed.

Lemma filter_eq_NoDup (x : Z) (l : list Z) :
  NoDup l → (length (filter (λ y, y = x) l) ≤ 1)%nat.
Proof.
  induction 1 as [|y l Hy Hnd IH]; [simpl; lia|].
  rewrite filter_cons. destruct (decide (y = x)) as [->|]; [|done].
  rewrite filter_eq_absent by done. simpl. lia.
Qed.

Lemma findDuplicate_first (l : list Z) (d : Z) :
  StronglySorted (λ x y, (y <? x) = false) l →
  findDuplicate l = Some d →
  ∃ l1 l2, l = l1 ++ d :: d :: l2 ∧ NoDup l1 ∧
           (∀ x, x ∈ l1 → x < d) ∧ (∀ x, x ∈ l2 → d ≤ x).
Proof.
  induction 1 as [|x l Hs IH Hx]; simpl; [done|].
  destruct l as [|y l]; [done|].
  apply Forall_cons in Hx as [Hxy Hx]. apply Z.ltb_ge in Hxy.
  destruct (Z.eqb_spec y x) as [->|Hne].
  - intros [= ->]. exists [], l. split_and!; [done|constructor| |].
    + by intros ? ?%elem_of_nil.
    + intros z Hz. rewrite Forall_forall in Hx. specialize (Hx z Hz).
      by apply Z.ltb_ge in Hx.
  - intros Hfd. destruct (IH Hfd) as (l1 & l2 & Heq & Hnd & Hlt & Hge).
    assert (Hxd : x < d).
    { destruct l1 as [|z l1]; simpl in Heq.
      - injection Heq as -> _. lia.
      - injection Heq as <- _. assert (y < d) by (apply Hlt; by left). lia. }
    exists (x :: l1), l2. rewrite Heq. split_and!; [done| | |done].
    + constructor; [|done]. intros Hin.
      assert (Hin' : x ∈ y :: l) by (rewrite Heq; apply elem_of_app; by left).
      apply elem_of_cons in Hin' as [->|Hin']; [done|].
      rewrite Forall_forall in Hx. specialize (Hx x Hin').
      apply StronglySorted_inv in Hs as [_ Hy].
      rewrite Forall_forall in Hy. specialize (Hy x Hin').
      apply Z.ltb_ge in Hy. lia.
    + intros z [->|Hz]%elem_of_cons; [done|by apply Hlt].
Qed.

(** X10. When the build is refused for a duplicate, the value reported
    occurs at least twice among the keys, and it is the least value that
    does. *)
Theorem duplicate_reported_is_least
    (sortSlice : ∀ A : Type, (A → A → bool) → list A → list A)
    (rangeOrder : gmap Z Z → list (Z * Z)) (keys : list Z) (d : Z) :
  sortSliceContract sortSlice → rangeOrderContract rangeOrder →
  NewUint64 sortSlice rangeOrder keys = Err (ErrDuplicateHash d) →
  (2 ≤ length (filter (λ y, y = d) keys))%nat ∧
  ∀ x, (2 ≤ length (filter (λ y, y = x) keys))%nat → d ≤ x.
Proof.
  intros Hsort Hrange Hbuild.
  destruct (Hsort Z Z.ltb keys) as [Hperm Hsorted].
  specialize (Hsorted ltb_strictWeakOrder).
  assert (Hfd : findDuplicate (sortSlice Z Z.ltb keys) = Some d).
  { pose proof (duplicate_check sortSlice Hsort keys) as Hdc.
    pose proof (NewUint64_spec sortSlice rangeOrder Hsort Hrange keys) as Hspec.
    rewrite Hbuild in Hspec. unfold NewUint64 in Hbuild.
    destruct (Z.eqb_spec (Z.of_nat (length keys)) 0); [done|].
    destruct (Z.ltb_spec (2 ^ 31) (Z.of_nat (length keys))); [done|].
    destruct (findDuplicate _) as [d'|]; [by injection Hbuild as ->|].
    destruct Hspec as [Hnd _]; [lia|done]. }
  destruct (findDuplicate_first _ d Hsorted Hfd)
    as (l1 & l2 & Heq & Hnd & Hlt & Hge).
  assert (Hcount : ∀ x, length (filter (λ y, y = x) keys)
                        = length (filter (λ y, y = x) (l1 ++ d :: d :: l2))).
  { intros x. by rewrite <- Heq, Hperm. }
  split.
  - rewrite Hcount, filter_app, length_app, !filter_cons.
    rewrite !decide_True by done. simpl. lia.
  - intros x Hx. rewrite Hcount, filter_app, length_app in Hx.
    destruct (Z.le_gt_cases d x) as [|Hlt']; [done|]. exfalso.
    pose proof (filter_eq_NoDup x l1 Hnd).
    rewrite (filter_eq_absent x (d :: d :: l2)) in Hx; [simpl in Hx; lia|].
    rewrite !not_elem_of_cons. split_and!; [lia|lia|].
    intros Hin. apply Hge in Hin. lia.
Qed.

Lemma duplicate_reported_is_least_witness :
  (2 ≤ length (filter (λ y, y = 3) [7; 3; 7; 3])%Z)%nat ∧
  ∀ x, (2 ≤ length (filter (λ y, y = x) [7; 3; 7; 3])%Z)%nat → 3 ≤ x.
Proof.
  apply (duplicate_reported_is_least insertionSort canonicalOrder
           [7; 3; 7; 3] 3 insertionSort_contract canonicalOrder_contract).
  vm_compute. reflexivity.
Defined.

(** ** Outcomes of [NewUint64] *)

(** X3. On every input [NewUint64] returns normally: it neither panics nor
    loops. It reports too many keys exactly for more than [2^31] keys
    (before looking for duplicates), a duplicate only for an input that has
    one, and the no-seed failure only for at least two distinct keys; a
    table is returned only for pairwise distinct keys. *)
Theorem NewUint64_outcomes
    (sortSlice : ∀ A : Type, (A → A → bool) → list A → list A)
    (rangeOrder : gmap Z Z → list (Z * Z)) (keys : list Z) :
  sortSliceContract sortSlice → rangeOrderContract rangeOrder →
  match NewUint64 sortSlice rangeOrder keys with
  | Ok t => Z.of_nat (length keys) ≤ 2 ^ 31 ∧ NoDup keys
  | Err ErrTooManyKeys => 2 ^ 31 < Z.of_nat (length keys)
  | Err (ErrDuplicateHash d) =>
      Z.of_nat (length keys) ≤ 2 ^ 31 ∧ ¬ NoDup keys ∧ d ∈ keys
  | Err ErrNoSeed => 2 ≤ Z.of_nat (length keys) ≤ 2 ^ 31 ∧ NoDup keys
  | Panic | Diverge => False
  end.
Proof.
  intros Hsort Hrange.
  destruct (Z.le_gt_cases (Z.of_nat (length keys)) (2 ^ 31)) as [Hn|Hn];
    [|by rewrite NewUint64_too_many].
  destruct (decide (keys = [])) as [->|Hne];
    [rewrite NewUint64_nil; split; [simpl; lia|constructor]|].
  assert (Hn1 : 1 ≤ Z.of_nat (length keys) ≤ 2 ^ 31)
    by (destruct keys; simpl in *; [done|lia]).
  pose proof (NewUint64_spec sortSlice rangeOrder Hsort Hrange keys Hn1)
    as Hspec.
  destruct (NewUint64 sortSlice rangeOrder keys) as [t|[|d|]| |] eqn:E;
    try done.
  - destruct Hspec as [Hnd _]. split; [lia|done].
  - destruct Hspec as [Hnd _]. split; [|done]. split; [|lia].
    destruct (bucketPhase_spec sortSlice Hsort keys Hn1 Hnd)
      as (b0 & hs & Hb0 & _ & _ & Hbp & _ & Hok & Hperm & _).
    apply (NewUint64_no_seed sortSlice rangeOrder Hsort Hrange keys b0 hs)
      in E as (Pb & b & rest & _ & _ & -> & Hb & _); try done.
    apply Permutation_length in Hperm.
    rewrite concat_app, length_app, length_entriesFrom in Hperm.
    simpl in Hperm. rewrite length_app in Hperm. lia.
Qed.

Lemma NewUint64_outcomes_witness :
  Z.of_nat (length [5; 9; 2]) ≤ 2 ^ 31 ∧ NoDup [5; 9; 2].
Proof.
  pose proof (NewUint64_outcomes insertionSort canonicalOrder
                [5; 9; 2] insertionSort_contract
                canonicalOrder_contract) as H.
  assert (E : NewUint64 insertionSort canonicalOrder [5; 9; 2]
              = Ok (mkTable [1; 2; 0; 0] [0; 1; 2147483649; 0] 3))
    by (vm_compute; reflexivity).
  rewrite E in H. exact H.
Defined.

(** ** Shape of a built table *)

(** X4. A table built from [N ≥ 1] keys has [Values] and [Seeds] of one
    length, a power of two that is at least [N] and less than [2N], and
    [Mask] is that length minus one. *)
Theorem built_table_size
    (sortSlice : ∀ A : Type, (A → A → bool) → list A → list A)
    (rangeOrder : gmap Z Z → list (Z * Z)) (keys : list Z) (t : Table) :
  sortSliceContract sortSlice → rangeOrderContract rangeOrder →
  keys ≠ [] →
  NewUint64 sortSlice rangeOrder keys = Ok t →
  ∃ b, 0 ≤ b ≤ 31 ∧
       Z.of_nat (length (Values t)) = 2 ^ b ∧
       Z.of_nat (length (Seeds t)) = 2 ^ b ∧
       Mask t = 2 ^ b - 1 ∧
       Z.of_nat (length keys) ≤ 2 ^ b < 2 * Z.of_nat (length keys).
Proof.
  intros Hsort Hrange Hne Hbuild.
  destruct (built_tableOk sortSlice rangeOrder Hsort Hrange keys t Hbuild Hne)
    as (Hn & _ & b & free & Hb & Hm & Hnb & Hsm & Hpl).
  pose proof (placed_values_len _ _ _ _ _ Hpl).
  pose proof (placed_seeds_len _ _ _ _ _ Hpl).
  exists b. split_and!; try lia.
  destruct (decide (b = 0)) as [->|Hb0]; [change (2 ^ 0) with 1; lia|].
  destruct Hsm as [->|Hsm]; [done|].
  replace (2 ^ b) with (2 * 2 ^ (b - 1)); [lia|].
  rewrite <- Z.pow_succ_r by lia. f_equal. lia.
Qed.

Lemma built_table_size_witness :
  ∃ b, 0 ≤ b ≤ 31 ∧
       Z.of_nat (length [1; 2; 0; 0]) = 2 ^ b ∧
       Z.of_nat (length [0; 1; 2147483649; 0]) = 2 ^ b ∧
       3 = 2 ^ b - 1 ∧
       Z.of_nat (length [5; 9; 2]) ≤ 2 ^ b < 2 * Z.of_nat (length [5; 9; 2]).
Proof.
  apply (built_table_size insertionSort canonicalOrder [5; 9; 2]
           (mkTable [1; 2; 0; 0] [0; 1; 2147483649; 0] 3)
           insertionSort_contract canonicalOrder_contract).
  - done.
  - by vm_compute.
Defined.

(** ** Perfect and minimal *)

(** X5. In a built table no two keys of the build set are sent to the same
    slot of [Values], and the slots that no key is sent to are exactly
    [size - N] in number. *)
Theorem built_table_perfect_minimal
    (sortSlice : ∀ A : Type, (A → A → bool) → list A → list A)
    (rangeOrder : gmap Z Z → list (Z * Z)) (keys : list Z) (t : Table) :
  sortSliceContract sortSlice → rangeOrderContract rangeOrder →
  keys ≠ [] →
  NewUint64 sortSlice rangeOrder keys = Ok t →
  (∀ (i1 i2 : nat) k1 k2,
     keys !! i1 = Some k1 → keys !! i2 = Some k2 → i1 ≠ i2 →
     querySlot t k1 ≠ querySlot t k2) ∧
  ∃ unused : list Z,
    NoDup unused ∧
    Z.of_nat (length unused)
      = Z.of_nat (length (Values t)) - Z.of_nat (length keys) ∧
    ∀ j, 0 ≤ j < Z.of_nat (length (Values t)) →
      (j ∈ unused ↔
       ∀ (i : nat) k, keys !! i = Some k → querySlot t k ≠ Ok j).
Proof.
  intros Hsort Hrange Hne Hbuild.
  destruct (built_tableOk sortSlice rangeOrder Hsort Hrange keys t Hbuild Hne)
    as (Hn & _ & Hok).
  split.
  - intros i1 i2 k1 k2 H1 H2 Hi Heq.
    pose proof (Query_index sortSlice rangeOrder Hsort Hrange keys t i1 k1
                  Hbuild H1) as Hq1.
    pose proof (Query_index sortSlice rangeOrder Hsort Hrange keys t i2 k2
                  Hbuild H2) as Hq2.
    assert (Hv : Values t ≠ []).
    { destruct (Query_total keys t 0 Hok Hne) as (Hvl & Hsl & Hh & _).
      intros E. rewrite E in Hvl. simpl in Hvl. lia. }
    rewrite Query_querySlot in Hq1, Hq2 by done.
    rewrite Heq, Hq2 in Hq1. injection Hq1 as Hq1. lia.
  - destruct Hok as (b & free & Hb & Hm & Hnb & Hsm & Hpl).
    assert (Hp : 1 ≤ 2 ^ b ≤ 2 ^ 31).
    { split; [|apply Z.pow_le_mono_r; lia].
      assert (0 < 2 ^ b) by (apply Z.pow_pos_nonneg; lia). lia. }
    assert (Hmask : 0 ≤ Mask t < 2 ^ 31) by lia.
    pose proof (placed_values_len _ _ _ _ _ Hpl) as Hvl.
    pose proof (placed_count _ _ _ _ _ Hpl) as Hct.
    rewrite length_entriesFrom in Hct.
    assert (Hq : ∀ k j, routed (Mask t) (Seeds t) k j → querySlot t k = Ok j).
    { intros k j Hr. destruct t as [values seeds mask].
      by apply querySlot_routed. }
    exists free. split_and!; [by eapply placed_free_NoDup|lia|].
    intros j Hj. split.
    + intros Hjf i k Hi Hqk.
      destruct (placed_routed _ _ _ _ _ Hpl
                  (mkEntry (wrap32 (wrap32 (Z.of_nat i) + 1)) k))
        as (j' & Hr & _ & Hjf' & _).
      { apply elem_of_entriesFrom. exists i. by rewrite Z.add_0_l. }
      simpl in Hr. rewrite (Hq _ _ Hr) in Hqk. by injection Hqk as ->.
    + intros Hun.
      destruct (placed_slots _ _ _ _ _ Hpl j) as [[Hjf _]|(e & He & Hr)];
        [lia|done|].
      apply elem_of_entriesFrom in He as (i & Hi & _).
      exfalso. by apply (Hun i (hash e) Hi), Hq.
Qed.

Lemma built_table_perfect_minimal_witness :
  ∃ unused : list Z,
    NoDup unused ∧
    Z.of_nat (length unused)
      = Z.of_nat (length [1; 2; 0; 0]) - Z.of_nat (length [5; 9; 2]).
Proof.
  destruct (built_table_perfect_minimal insertionSort canonicalOrder [5; 9; 2]
              (mkTable [1; 2; 0; 0] [0; 1; 2147483649; 0] 3)
              insertionSort_contract canonicalOrder_contract)
    as (_ & unused & Hnd & Hlen & _).
  - done.
  - by vm_compute.
  - exists unused. split; [exact Hnd|exact Hlen].
Defined.

(** X6. In a built table every ordinal other than 0 is held by exactly one
    slot of [Values]: the one [Query] reads for the key with that
    ordinal. (Ordinal 0 is also what the unused slots hold.) *)
Theorem nonzero_ordinal_in_one_slot
    (sortSlice : ∀ A : Type, (A → A → bool) → list A → list A)
    (rangeOrder : gmap Z Z → list (Z * Z)) (keys : list Z) (t : Table)
    (i : nat) (k : Z) :
  sortSliceContract sortSlice → rangeOrderContract rangeOrder →
  NewUint64 sortSlice rangeOrder keys = Ok t →
  keys !! i = Some k → (0 < i)%nat →
  ∃ j, querySlot t k = Ok j ∧
       ∀ j' : nat, Values t !! j' = Some (Z.of_nat i) ↔ Z.of_nat j' = j.
Proof.
  intros Hsort Hrange Hbuild Hi Hpos.
  assert (Hne : keys ≠ []) by (intros ->; by rewrite lookup_nil in Hi).
  destruct (built_tableOk sortSlice rangeOrder Hsort Hrange keys t Hbuild Hne)
    as (Hn & Hnd & Hok).
  destruct (Query_total keys t k Hok Hne)
    as (_ & _ & _ & s & j & v & _ & _ & Hjr & Hq & Hv & Hqv & _).
  rewrite (Query_index sortSlice rangeOrder Hsort Hrange keys t i k Hbuild Hi)
    in Hqv. injection Hqv as <-.
  exists j. split; [done|]. intros j'. split.
  - intros Hv'.
    destruct (slot_content keys t (Z.of_nat j') Hok)
      as [(i' & k' & Hi' & Hq' & Hv'')|[_ Hz]].
    + apply lookup_lt_Some in Hv'. lia.
    + rewrite Nat2Z.id, Hv' in Hv''. injection Hv'' as Heq.
      assert (i' = i) as -> by lia.
      assert (k' = k) as -> by congruence.
      rewrite Hq in Hq'. by injection Hq'.
    + rewrite Nat2Z.id, Hv' in Hz. injection Hz as Hz. lia.
  - intros <-. by rewrite Nat2Z.id in Hv.
Qed.

Lemma nonzero_ordinal_in_one_slot_witness :
  ∃ j, querySlot (mkTable [1; 2; 0; 0] [0; 1; 2147483649; 0] 3) 9 = Ok j ∧
       ∀ j' : nat, [1; 2; 0; 0] !! j' = Some 1 ↔ Z.of_nat j' = j.
Proof.
  apply (nonzero_ordinal_in_one_slot insertionSort canonicalOrder [5; 9; 2]
           (mkTable [1; 2; 0; 0] [0; 1; 2147483649; 0] 3) 1 9
           insertionSort_contract canonicalOrder_contract).
  - by vm_compute.
  - reflexivity.
  - lia.
Defined.

(** ** [Query] on an arbitrary table *)

(** X7. [Table] has exported fields, so [Query] may be given a table that
    [NewUint64] did not build. On a table whose arrays have length
    [Mask + 1], [Query] panics exactly when the descriptor at the home slot
    has the flag bit set and a payload beyond the last slot; in every other
    case it returns an element of [Values]. *)
Theorem Query_panics_only_on_bad_payload (t : Table) (h s : Z) :
  shaped t →
  Seeds t !! Z.to_nat (home (Mask t) h) = Some s →
  (Query t h = Panic ↔
   Z.land s singletonBit ≠ 0 ∧ Mask t < Z.land s payloadMask) ∧
  (Query t h ≠ Panic → ∃ v, Query t h = Ok v ∧ v ∈ Values t).
Proof.
  intros (Hm & Hvl & Hsl) Hs.
  pose proof (land_nonneg_range h (Mask t)) as Hh.
  assert (Hne : Z.of_nat (length (Values t)) ≠ 0) by lia.
  unfold Query. destruct (Z.eqb_spec (Z.of_nat (length (Values t))) 0); [done|].
  rewrite wrapInt_small by lia. unfold home in Hs.
  destruct (load_in_range (Seeds t) (Z.land h (Mask t)) ltac:(lia))
    as (s' & Hs' & ->).
  rewrite Hs in Hs'. injection Hs' as <-.
  cbv beta iota delta [mbind outcome_bind].
  destruct (Z.eqb_spec (Z.land s singletonBit) 0) as [Hflag|Hflag];
    cbv beta iota delta [negb].
  - pose proof (land_nonneg_range
                  (xorshiftMult64 (wrap64 (h + Z.land s payloadMask)))
                  (Mask t) ltac:(lia)) as Hj.
    rewrite wrapInt_small by lia.
    destruct (load_in_range (Values t)
                (Z.land (xorshiftMult64 (wrap64 (h + Z.land s payloadMask)))
                   (Mask t)) ltac:(lia)) as (v & Hv & ->).
    split; [split; [done|by intros [? _]]|].
    intros _. exists v. split; [done|]. by eapply list_elem_of_lookup_2.
  - assert (Hp : 0 ≤ Z.land s payloadMask).
    { apply Z.land_nonneg. right. by vm_compute. }
    destruct (Z.le_gt_cases (Z.land s payloadMask) (Mask t)) as [Hin|Hout].
    + destruct (load_in_range (Values t) (Z.land s payloadMask) ltac:(lia))
        as (v & Hv & ->).
      split; [split; [done|intros [_ ?]; lia]|].
      intros _. exists v. split; [done|]. by eapply list_elem_of_lookup_2.
    + unfold load. rewrite decide_True by done.
      rewrite lookup_ge_None_2 by lia. split; [|done].
      split; [done|by intros _].
Qed.

Lemma Query_panics_only_on_bad_payload_witness :
  Query (mkTable [7; 8] [2147483653; 0] 1) 0 = Panic ↔
  Z.land 2147483653 singletonBit ≠ 0 ∧ 1 < Z.land 2147483653 payloadMask.
Proof.
  apply (Query_panics_only_on_bad_payload
           (mkTable [7; 8] [2147483653; 0] 1) 0 2147483653).
  - unfold shaped. simpl. lia.
  - reflexivity.
Defined.

(** ** The three kinds of seed descriptor *)

Lemma load_Ok {A : Type} (a : list A) (i : Z) (x : A) :
  load a i = Ok x → 0 ≤ i ∧ a !! Z.to_nat i = Some x.
Proof.
  unfold load. case_decide; [|done].
  destruct (a !! Z.to_nat i) eqn:E; [|done]. by intros [= ->].
Qed.

Lemma store_Ok {A : Type} (a a' : list A) (i : Z) (x : A) :
  store a i x = Ok a' →
  0 ≤ i < Z.of_nat (length a) ∧ a' = <[Z.to_nat i := x]> a.
Proof. unfold store. case_decide; [|done]. by intros [= <-]. Qed.

Lemma solveBuckets_seeds rangeOrder h mask values seeds rest values' seeds' :
  solveBuckets rangeOrder h mask values seeds = Ok (rest, values', seeds') →
  ∃ Pb, h = Pb ++ rest ∧
    ∀ j : nat,
      seeds' !! j = seeds !! j ∨
      ∃ b e, b ∈ Pb ∧ e ∈ b ∧ j = Z.to_nat (wrapInt (Z.land (hash e) mask)).
Proof.
  revert values seeds. induction h as [|b h IH]; intros values seeds; simpl.
  - intros [= <- <- <-]. exists []. split; [done|]. intros j. by left.
  - destruct (1 <? _).
    + destruct (seedLoop _ _ _ _) as [[seed m]| | |]; simpl; try done.
      destruct (commit _ _) as [values0| | |]; simpl; try done.
      destruct (load b 0) as [k0| | |] eqn:El; simpl; try done.
      destruct (store seeds _ _) as [seeds0| | |] eqn:Es; simpl; try done.
      intros Hrec. destruct (IH _ _ Hrec) as (Pb & -> & Hfr).
      apply load_Ok in El as [_ El]. apply store_Ok in Es as [Hr ->].
      exists (b :: Pb). split; [done|]. intros j.
      destruct (Hfr j) as [Hj|(b' & e & Hb' & He & ->)].
      * destruct (decide (j = Z.to_nat (wrapInt (Z.land (hash k0) mask))))
          as [->|Hne].
        -- right. exists b, k0. split_and!; [by left| |done].
           by eapply list_elem_of_lookup_2.
        -- left. by rewrite Hj, list_lookup_insert_ne.
      * right. exists b', e. split_and!; [by right|done..].
    + intros [= <- <- <-]. exists []. split; [done|]. intros j. by left.
Qed.

Lemma placeSingletons_seeds h mask free values seeds values' seeds' :
  placeSingletons h mask free values seeds = Ok (values', seeds') →
  ∀ j : nat,
    seeds' !! j = seeds !! j ∨
    ∃ b e d, b ∈ h ∧ e ∈ b ∧
      j = Z.to_nat (wrapInt (Z.land (hash e) mask)) ∧
      seeds' !! j = Some (Z.lor singletonBit (wrapU32 d)).
Proof.
  revert free values seeds. induction h as [|b h IH];
    intros free values seeds; simpl.
  - intros [= <- <-] j. by left.
  - destruct (0 <? _); [|intros [= <- <-] j; by left].
    destruct (load b 0) as [k| | |] eqn:El; simpl; try done.
    destruct (load free 0) as [dst| | |]; simpl; try done.
    destruct (store values _ _) as [values0| | |]; simpl; try done.
    destruct (store seeds _ _) as [seeds0| | |] eqn:Es; simpl; try done.
    intros Hrec j.
    apply load_Ok in El as [_ El]. apply store_Ok in Es as [Hr ->].
    destruct (IH _ _ _ Hrec j) as [Hj|(b' & e & d & Hb' & He & -> & Hv)].
    + destruct (decide (j = Z.to_nat (wrapInt (Z.land (hash k) mask))))
        as [->|Hne].
      * right. exists b, k, dst. split_and!; [by left| |done|].
        -- by eapply list_elem_of_lookup_2.
        -- rewrite Hj. apply list_lookup_insert_eq. lia.
      * left. by rewrite Hj, list_lookup_insert_ne.
    + right. exists b', e, d. split_and!; [by right|done..].
Qed.

Lemma filter_home_entriesFrom mask (j : Z) i0 keys :
  hash <$> filter (λ e, home mask (hash e) = j) (entriesFrom i0 keys)
  = filter (λ k, home mask k = j) keys.
Proof.
  revert i0. induction keys as [|k keys IH]; intros i0; simpl; [done|].
  rewrite !filter_cons. simpl.
  destruct (decide (home mask k = j)); simpl; by rewrite IH.
Qed.

Lemma NoDup_concat_elem {A : Type} (ls : list (list A)) (l : list A) :
  NoDup (concat ls) → l ∈ ls → NoDup l.
Proof.
  intros Hnd (l1 & l2 & ->)%list_elem_of_split.
  rewrite concat_app in Hnd. simpl in Hnd.
  apply NoDup_app in Hnd as (_ & _ & Hnd).
  by apply NoDup_app in Hnd as (Hnd & _).
Qed.

(** The bucket that holds an entry has as many entries as there are keys
    with the entry's masked fingerprint. *)
Lemma bucket_size mask hs keys b e :
  bucketsOk mask hs → concat hs ≡ₚ entriesFrom 0 keys →
  b ∈ hs → e ∈ b →
  length b = length (filter (λ k, home mask k = home mask (hash e)) keys).
Proof.
  intros Hok Hperm Hb He. pose proof Hok as (Hnd & Hsame & _).
  rewrite <- (filter_home_entriesFrom mask _ 0 keys), length_fmap.
  apply Permutation_length, NoDup_Permutation.
  - by eapply NoDup_concat_elem.
  - apply NoDup_filter. by rewrite <- Hperm.
  - intros x. rewrite list_elem_of_filter, <- Hperm. split.
    + intros Hx. split.
      * symmetry. by eapply bucketsOk_same_home.
      * apply elem_of_concat. by exists b.
    + intros [Hh Hx]. by apply (Hsame b e x).
Qed.

(** X13. In a table built from at least one key, the descriptor at
    position [j] of [Seeds] tells how many keys have the masked fingerprint
    [j]: it is 0 when there is none, the flag bit together with a slot
    number when there is exactly one, and a plain seed between 1 and
    [2^31 - 1] when there are two or more. *)
Theorem seed_descriptor_kinds
    (sortSlice : ∀ A : Type, (A → A → bool) → list A → list A)
    (rangeOrder : gmap Z Z → list (Z * Z)) (keys : list Z) (t : Table)
    (j : Z) :
  sortSliceContract sortSlice → rangeOrderContract rangeOrder →
  keys ≠ [] →
  NewUint64 sortSlice rangeOrder keys = Ok t →
  0 ≤ j ≤ Mask t →
  ∃ s, Seeds t !! Z.to_nat j = Some s ∧
    match filter (λ k, home (Mask t) k = j) keys with
    | [] => s = 0
    | [_] => ∃ dst, 0 ≤ dst ≤ Mask t ∧ s = Z.lor singletonBit dst
    | _ :: _ :: _ => 1 ≤ s < 2 ^ 31
    end.
Proof.
  intros Hsort Hrange Hne Hbuild Hj.
  destruct (built_tableOk sortSlice rangeOrder Hsort Hrange keys t Hbuild Hne)
    as (Hn & Hnd & b' & free' & Hb' & Hm' & _ & _ & Hpl).
  pose proof (duplicate_check sortSlice Hsort keys) as Hdc.
  destruct (findDuplicate _) as [d|] eqn:Hfd; [by destruct Hdc|].
  rewrite (NewUint64_phases sortSlice rangeOrder keys Hne ltac:(lia) Hfd)
    in Hbuild.
  destruct (solvePhase_spec sortSlice rangeOrder Hsort Hrange keys Hn Hnd)
    as (b & hs & Hb & _ & _ & Hbp & Hok & Hperm & _ & Hsp).
  unfold solvePhase in Hbuild, Hsp. rewrite Hbp in Hbuild, Hsp.
  cbv beta iota delta [mbind outcome_bind] in Hbuild, Hsp.
  assert (Hp : 1 ≤ 2 ^ b ≤ 2 ^ 31).
  { split; [|apply Z.pow_le_mono_r; lia].
    assert (0 < 2 ^ b) by (apply Z.pow_pos_nonneg; lia). lia. }
  rewrite (wrapInt_small (2 ^ b)) in Hbuild, Hsp by lia.
  destruct (solveBuckets _ _ _ _ _) as [[[rest values1] seeds1]| | |] eqn:Hsb;
    try done.
  destruct Hsp as (_ & Pb & -> & Hsol & HPb & Hrest).
  apply solveBuckets_seeds in Hsb as (Pb' & HPb' & Hfr1).
  apply app_inv_tail in HPb' as <-.
  unfold placePhase in Hbuild.
  destruct (collectFree 0 values1) as [free out].
  destruct (placeSingletons _ _ _ _ _) as [[valuesF seedsF]| | |] eqn:Hps;
    try done.
  injection Hbuild as <-. simpl in *.
  pose proof (placeSingletons_seeds _ _ _ _ _ _ _ Hps) as Hfr2.
  assert (Hhome : ∀ e, Z.to_nat j = Z.to_nat (wrapInt (Z.land (hash e)
                    (2 ^ b - 1))) → home (2 ^ b - 1) (hash e) = j).
  { intros e He. pose proof (land_nonneg_range (hash e) (2 ^ b - 1)).
    rewrite wrapInt_small in He by lia. unfold home. lia. }
  assert (Hin : ∀ bk e, bk ∈ Pb ++ rest → e ∈ bk →
            hash e ∈ filter (λ k, home (2 ^ b - 1) k
                                  = home (2 ^ b - 1) (hash e)) keys).
  { intros bk e Hbk He. apply list_elem_of_filter. split; [done|].
    rewrite <- (hash_entriesFrom 0 keys). apply list_elem_of_fmap.
    exists e. split; [done|]. rewrite <- Hperm.
    apply elem_of_concat. by exists bk. }
  assert (Hlen2 : Z.of_nat (length seedsF) = 2 ^ b).
  { pose proof (placed_seeds_len _ _ _ _ _ Hpl). lia. }
  destruct (lookup_lt_is_Some_2 seedsF (Z.to_nat j) ltac:(lia)) as [s Hs].
  exists s. split; [done|].
  (* how the descriptor at [j] came about *)
  assert (Hkind :
    s = 0 ∨
    (∃ bk e, bk ∈ Pb ∧ e ∈ bk ∧ home (2 ^ b - 1) (hash e) = j
             ∧ 1 ≤ s < 2 ^ 31) ∨
    (∃ bk e, bk ∈ rest ∧ e ∈ bk ∧ home (2 ^ b - 1) (hash e) = j
             ∧ ∃ dst, 0 ≤ dst ≤ 2 ^ b - 1 ∧ s = Z.lor singletonBit dst)).
  { destruct (Hfr2 (Z.to_nat j)) as [H2|(bk & e & d & Hbk & He & Hje & Hv)].
    - rewrite Hs in H2.
      destruct (Hfr1 (Z.to_nat j)) as [H1|(bk & e & Hbk & He & Hje)].
      + left. rewrite <- H2, lookup_replicate_2 in H1 by lia. by injection H1.
      + right. left. exists bk, e. split; [done|]. split; [done|]. split; [by apply Hhome|].
        destruct (solved_routed _ _ _ _ Hsol e) as (jj & (s' & Hs' & Hr) & _).
        { apply elem_of_concat. by exists bk. }
        rewrite (Hhome e Hje), <- H2 in Hs'. injection Hs' as <-.
        destruct Hr as [[Hr _]|[_ ->]]; [done|].
        pose proof (solved_seeds _ _ _ _ Hsol _ _ (eq_sym H2)) as Hlt.
        apply land_singletonBit_small in Hlt.
        by apply land_singletonBit_lor in Hlt.
    - right. right. exists bk, e. split; [done|]. split; [done|]. split; [by apply Hhome|].
      rewrite Hs in Hv. injection Hv as ->.
      destruct (placed_seeds _ _ _ _ _ Hpl _ _ Hs) as [Hlt|Hdst]; [|done].
      apply land_singletonBit_small in Hlt.
      by apply land_singletonBit_lor in Hlt. }
  destruct (filter _ keys) as [|k1 [|k2 ks]] eqn:Hf.
  - destruct Hkind as [->|[(bk & e & Hbk & He & <- & _)
                          |(bk & e & Hbk & He & <- & _)]]; [done| |].
    + exfalso. assert (Hx := Hin bk e ltac:(apply elem_of_app; by left) He).
      rewrite Hf in Hx. by apply elem_of_nil in Hx.
    + exfalso. assert (Hx := Hin bk e ltac:(apply elem_of_app; by right) He).
      rewrite Hf in Hx. by apply elem_of_nil in Hx.
  - destruct Hkind as [->|[(bk & e & Hbk & He & <- & _)
                          |(bk & e & Hbk & He & <- & Hd)]]; [| |done].
    + exfalso. assert (Hk : k1 ∈ keys).
      { eapply (list_elem_of_filter (λ k, home (2 ^ b - 1) k = j)).
        rewrite Hf. by left. }
      assert (Hkj : home (2 ^ b - 1) k1 = j).
      { eapply (list_elem_of_filter (λ k, home (2 ^ b - 1) k = j) keys).
        rewrite Hf. by left. }
      apply list_elem_of_lookup in Hk as [i Hi].
      destruct (placed_routed _ _ _ _ _ Hpl
                  (mkEntry (wrap32 (wrap32 (Z.of_nat i) + 1)) k1))
        as (jj & (s' & Hs' & Hr) & _).
      { apply elem_of_entriesFrom. exists i. by rewrite Z.add_0_l. }
      simpl in Hs'. rewrite Hkj, Hs in Hs'. injection Hs' as <-.
      destruct Hr as [[Hr _]|[_ Hr]]; [lia|].
      by apply (land_singletonBit_lor jj); rewrite <- Hr.
    + exfalso.
      pose proof (bucket_size _ _ keys bk e Hok Hperm
                    ltac:(apply elem_of_app; by left) He) as Hbs.
      rewrite Hf in Hbs. rewrite Forall_forall in HPb.
      specialize (HPb bk Hbk). simpl in Hbs. lia.
  - destruct Hkind as [->|[(bk & e & Hbk & He & <- & Hd)
                          |(bk & e & Hbk & He & <- & _)]]; [|done|].
    + exfalso. assert (Hk : k1 ∈ keys).
      { eapply (list_elem_of_filter (λ k, home (2 ^ b - 1) k = j)).
        rewrite Hf. by left. }
      assert (Hkj : home (2 ^ b - 1) k1 = j).
      { eapply (list_elem_of_filter (λ k, home (2 ^ b - 1) k = j) keys).
        rewrite Hf. by left. }
      apply list_elem_of_lookup in Hk as [i Hi].
      destruct (placed_routed _ _ _ _ _ Hpl
                  (mkEntry (wrap32 (wrap32 (Z.of_nat i) + 1)) k1))
        as (jj & (s' & Hs' & Hr) & _).
      { apply elem_of_entriesFrom. exists i. by rewrite Z.add_0_l. }
      simpl in Hs'. rewrite Hkj, Hs in Hs'. injection Hs' as <-.
      destruct Hr as [[Hr _]|[_ Hr]]; [lia|].
      by apply (land_singletonBit_lor jj); rewrite <- Hr.
    + exfalso.
      pose proof (bucket_size _ _ keys bk e Hok Hperm
                    ltac:(apply elem_of_app; by right) He) as Hbs.
      rewrite Hf in Hbs. rewrite Forall_forall in Hrest.
      specialize (Hrest bk Hbk). simpl in Hbs. lia.
Qed.

Lemma seed_descriptor_kinds_witness :
  ∃ s, [0; 1; 2147483649; 0] !! Z.to_nat 1 = Some s ∧
    match filter (λ k, home 3 k = 1) [5; 9; 2] with
    | [] => s = 0
    | [_] => ∃ dst, 0 ≤ dst ≤ 3 ∧ s = Z.lor singletonBit dst
    | _ :: _ :: _ => 1 ≤ s < 2 ^ 31
    end.
Proof.
  apply (seed_descriptor_kinds insertionSort canonicalOrder [5; 9; 2]
           (mkTable [1; 2; 0; 0] [0; 1; 2147483649; 0] 3) 1
           insertionSort_contract canonicalOrder_contract).
  - done.
  - by vm_compute.
  - simpl. lia.
Defined.

(** ** A sufficient condition for the build to succeed *)

(** X14. When the keys (at most [2^31]) differ pairwise in their masked
    fingerprints, that is in the low bits selected by the table size
    minus one, the build always succeeds. *)
Theorem distinct_low_bits_always_build
    (sortSlice : ∀ A : Type, (A → A → bool) → list A → list A)
    (rangeOrder : gmap Z Z → list (Z * Z)) (keys : list Z) (size : Z) :
  sortSliceContract sortSlice → rangeOrderContract rangeOrder →
  Z.of_nat (length keys) ≤ 2 ^ 31 →
  nextPower2 (Z.of_nat (length keys)) = Ok size →
  NoDup ((λ k, Z.land k (size - 1)) <$> keys) →
  ∃ t, NewUint64 sortSlice rangeOrder keys = Ok t.
Proof.
  intros Hsort Hrange Hlen Hnp Hlow.
  destruct (decide (keys = [])) as [->|Hne];
    [rewrite NewUint64_nil; by eexists|].
  assert (Hn : 1 ≤ Z.of_nat (length keys) ≤ 2 ^ 31)
    by (destruct keys; simpl in *; [done|lia]).
  assert (Hnd : NoDup keys) by (by eapply NoDup_fmap_1).
  pose proof (NewUint64_spec sortSlice rangeOrder Hsort Hrange keys Hn)
    as Hspec.
  destruct (NewUint64 sortSlice rangeOrder keys) as [t|[|d|]| |] eqn:E;
    try done; [by exists t|by destruct Hspec|]. exfalso.
  destruct (bucketPhase_spec sortSlice Hsort keys Hn Hnd)
    as (b0 & hs & Hb0 & _ & _ & Hbp & _ & Hok & Hperm & _).
  assert (Hsize : size = 2 ^ b0).
  { assert (Hp : 1 ≤ 2 ^ b0 ≤ 2 ^ 31).
    { split; [|apply Z.pow_le_mono_r; lia].
      assert (0 < 2 ^ b0) by (apply Z.pow_pos_nonneg; lia). lia. }
    destruct (nextPower2_spec _ Hn) as (b1 & Hb1 & Hnp1 & _).
    rewrite Hnp in Hnp1. injection Hnp1 as ->.
    assert (Hp1 : 1 ≤ 2 ^ b1 ≤ 2 ^ 31).
    { split; [|apply Z.pow_le_mono_r; lia].
      assert (0 < 2 ^ b1) by (apply Z.pow_pos_nonneg; lia). lia. }
    unfold bucketPhase in Hbp. rewrite Hnp in Hbp.
    cbv beta iota zeta delta [mbind outcome_bind] in Hbp.
    destruct (bucketize _ _ _ _); [|done..].
    injection Hbp as Hbp _ _. by rewrite wrap64_small in Hbp by lia. }
  subst size.
  apply (NewUint64_no_seed sortSlice rangeOrder Hsort Hrange keys b0 hs)
    in E as (Pb & b & rest & _ & _ & -> & Hb & _); try done.
  destruct b as [|e1 [|e2 b]]; simpl in Hb; try lia.
  assert (Hin : ∀ e, e ∈ e1 :: e2 :: b → e ∈ entriesFrom 0 keys).
  { intros e He. rewrite <- Hperm. apply elem_of_concat.
    exists (e1 :: e2 :: b). split; [|done].
    apply elem_of_app. right. by left. }
  assert (Hb12 : NoDup (e1 :: e2 :: b)).
  { eapply NoDup_concat_elem; [apply Hok|].
    apply elem_of_app. right. by left. }
  assert (Hh : home (2 ^ b0 - 1) (hash e1) = home (2 ^ b0 - 1) (hash e2)).
  { apply (bucketsOk_same_home _ _ (e1 :: e2 :: b) e1 e2 Hok).
    - apply elem_of_app. right. by left.
    - by left.
    - right. by left. }
  destruct (proj1 (elem_of_entriesFrom e1 0 keys) (Hin e1 ltac:(by left)))
    as (i1 & Hi1 & Hx1).
  destruct (proj1 (elem_of_entriesFrom e2 0 keys)
              (Hin e2 ltac:(right; by left))) as (i2 & Hi2 & Hx2).
  unfold home in Hh.
  assert (i1 = i2) as ->.
  { apply (NoDup_lookup _ i1 i2 (Z.land (hash e1) (2 ^ b0 - 1)) Hlow);
      rewrite list_lookup_fmap; [by rewrite Hi1|by rewrite Hi2, Hh]. }
  apply NoDup_cons in Hb12 as [Hb12 _]. apply Hb12.
  replace e1 with e2; [by left|].
  destruct e1, e2; simpl in *. congruence.
Qed.

Lemma distinct_low_bits_always_build_witness :
  ∃ t, NewUint64 insertionSort canonicalOrder [4; 9; 2; 7; 16] = Ok t.
Proof.
  apply (distinct_low_bits_always_build insertionSort canonicalOrder
           [4; 9; 2; 7; 16] 8 insertionSort_contract canonicalOrder_contract).
  - simpl. lia.
  - reflexivity.
  - vm_compute. distinct_literals.
Defined.

(** ** [New]: string keys *)

(** X11. A table built by [New] from strings answers, for the fingerprint
    of the string at position [i], the ordinal [i]; and no other position
    of the input holds a string with the same fingerprint. *)
Theorem New_answers_position
    (sortSlice : ∀ A : Type, (A → A → bool) → list A → list A)
    (rangeOrder : gmap Z Z → list (Z * Z))
    (Sum64String : string → Z)
    (keys : list string) (t : Table) (i : nat) (s : string) :
  sortSliceContract sortSlice → rangeOrderContract rangeOrder →
  New sortSlice rangeOrder Sum64String keys = Ok t →
  keys !! i = Some s →
  Query t (Sum64String s) = Ok (Z.of_nat i) ∧
  ∀ (j : nat) s', keys !! j = Some s' → j ≠ i →
    Sum64String s' ≠ Sum64String s.
Proof.
  intros Hsort Hrange Hbuild Hi. unfold New in Hbuild.
  assert (Hq : ∀ (j : nat) s', keys !! j = Some s' →
            Query t (Sum64String s') = Ok (Z.of_nat j)).
  { intros j s' Hj.
    apply (Query_index sortSlice rangeOrder Hsort Hrange
             (Sum64String <$> keys)); [done|].
    by rewrite list_lookup_fmap, Hj. }
  split; [by apply Hq|].
  intros j s' Hj Hne Heq. apply Hq in Hj. apply Hq in Hi.
  rewrite Heq, Hi in Hj. injection Hj as Hj. lia.
Qed.

Lemma New_answers_position_witness :
  ∃ t, New insertionSort canonicalOrder
         (λ s, Z.of_nat (String.length s))
         ["a"; "bcd"; "ef"]%string = Ok t ∧
       Query t 3 = Ok 1.
Proof.
  eexists. split; [vm_compute; reflexivity|].
  apply (New_answers_position insertionSort canonicalOrder
           (λ s, Z.of_nat (String.length s))
           ["a"; "bcd"; "ef"]%string _ 1 "bcd"%string
           insertionSort_contract canonicalOrder_contract).
  - vm_compute. reflexivity.
  - reflexivity.
Defined.


